(** * VX utilities: [safeStringify], [parseContent] and [quickFind]

    A shallow embedding of the utilities of the repository,
    [safeStringify.js] (with its memoized variant), [smartParse.js] and
    [quickFind.js], together with the parts of the JavaScript runtime they
    call ([JSON.stringify] with and without a replacer, [JSON.parse],
    [String], [Array.prototype.join], property lookup through
    [Object.prototype], [Map], [RegExp.prototype.exec] and the string
    methods).

    Modelling conventions.
    - Strings are byte strings; numbers are integers ([Z]), so [NaN],
      infinities and fractions are outside the model, and so is the
      exponent form in which the runtime prints the integers from [1e21]
      up.
    - Objects live in a heap and are referred to by location, so that a value
      graph can be cyclic or shared and object identity is the location.
      Plain objects carry their own enumerable properties in enumeration
      order and have no accessors. The conversions of the runtime
      ([JSON.stringify], [String]) are modelled for objects that do not
      define a conversion method of their own, that is, have no own
      property named [toJSON], [toString] or [valueOf]; the statements
      that depend on it say so ([plain_heap]).
    - A call returns or throws ([completion]). A traversal of the heap has
      two more results, [Dangling] and [OutOfFuel] (a location outside the
      heap, the recursion budget exhausted); they are artefacts of the
      encoding and are proved unreachable on well-formed heaps.
    - Functions supplied by the caller (rule predicates, transforms, the
      callbacks) are functions of their argument that return or throw; they
      have no other effect.
    - [console.warn] lines and callback invocations are recorded in a log;
      the arrays of rules that [parseContent] builds and mutates live in a
      store that is threaded through the calls, and so do the [RegExp]
      objects that the caller hands to [quickFind].
    - The pattern compiler of the runtime is a parameter of [quickFind]: a
      compiled pattern is the function that tells, for a text and an index,
      whether a match starts there and how long it is. The two readings of
      the clock are arguments.

    The file has the definitions first (values and runtime, the serializer,
    its reading on trees, the resolver, a JSON reader, the cache, the
    search, invariants and example values), then the theorems. *)

From Stdlib Require Import ZArith DecimalString.
From stdpp Require Import gmap strings list.

Set Warnings "-clear-no-such-hyp".

Open Scope string_scope.
Open Scope list_scope.
Open Scope nat_scope.
Open Scope stdpp_scope.

(** ** Values *)

Abbreviation loc := nat.

Inductive prim :=
| PUndefined
| PNull
| PBool (b : bool)
| PNum (n : Z)
| PBigInt (n : Z)
| PStr (s : string)
| PSymbol (description : string).

Inductive value :=
| VPrim (p : prim)
| VRef (l : loc).

(** A [Date] is represented by what its methods print: the ISO-8601 text of
    [toISOString] and the local text of [toString]; an invalid date has
    neither. *)
Inductive date :=
| InvalidDate
| ValidDate (iso display : string).

Inductive obj :=
| ODate (d : date)
| ORegExp (text : string)
| OFunction (src : string)
| OArray (elems : list value)
| OObject (props : list (string * value)).

Abbreviation heap := (list obj).

(** Finite, unshared values: what [JSON.parse] builds, and what a heap value
    unfolds to when nothing in it is referenced twice. *)
#[warnings="-register-all"]
Inductive tree :=
| TPrim (p : prim)
| TDate (d : date)
| TRegExp (text : string)
| TFunction (src : string)
| TArray (elems : list tree)
| TObject (props : list (string * tree)).

(** ** Results *)

(** What a [throw] carries: an error object with a name and a message, or
    [null] or [undefined], whose [message] cannot be read. *)
Inductive thrown :=
| JsError (name message : string)
| ThrownNullish.

(** The completion of a call: it returns, or it throws. *)
Inductive completion (A : Type) :=
| Return (a : A)
| Raise (e : thrown).
Arguments Return {A} a.
Arguments Raise {A} e.

#[global] Instance completion_ret : MRet completion := @Return.
#[global] Instance completion_bind : MBind completion := λ A B f m,
  match m with
  | Return a => f a
  | Raise e => Raise e
  end.
#[global] Instance completion_fmap : FMap completion := λ A B f m,
  match m with
  | Return a => Return (f a)
  | Raise e => Raise e
  end.

(** The result of a computation over the heap: a completion, or one of the
    two artefacts of the encoding. *)
Inductive res (A : Type) :=
| Ok (a : A)
| Throw (e : thrown)
| Dangling
| OutOfFuel.
Arguments Ok {A} a.
Arguments Throw {A} e.
Arguments Dangling {A}.
Arguments OutOfFuel {A}.

#[global] Instance res_ret : MRet res := @Ok.
#[global] Instance res_bind : MBind res := λ A B f m,
  match m with
  | Ok a => f a
  | Throw e => Throw e
  | Dangling => Dangling
  | OutOfFuel => OutOfFuel
  end.
#[global] Instance res_fmap : FMap res := λ A B f m,
  match m with
  | Ok a => Ok (f a)
  | Throw e => Throw e
  | Dangling => Dangling
  | OutOfFuel => OutOfFuel
  end.

Definition lift {A} (c : completion A) : res A :=
  match c with
  | Return a => Ok a
  | Raise e => Throw e
  end.

Definition TypeError (message : string) : thrown := JsError "TypeError" message.
Definition RangeError (message : string) : thrown := JsError "RangeError" message.
Definition SyntaxError (message : string) : thrown := JsError "SyntaxError" message.

(** [err.message]: reading the property of [null] or [undefined] throws. *)
Definition message (err : thrown) : completion string :=
  match err with
  | JsError _ m => Return m
  | ThrownNullish => Raise (TypeError "Cannot read properties of null (reading 'message')")
  end.

(** ** Runtime text primitives *)

(** [Number.prototype.toString] on an integer: its decimal digits. *)
Definition Number_toString (n : Z) : string :=
  NilZero.string_of_int (Z.to_int n).

Definition hex_digit (n : nat) : string :=
  String.substring n 1 "0123456789abcdef".

(** The escape of one code unit in [QuoteJSONString]. *)
Definition quote_char (c : Ascii.ascii) : string :=
  let n := Ascii.nat_of_ascii c in
  if decide (n = 8) then "\b"
  else if decide (n = 9) then "\t"
  else if decide (n = 10) then "\n"
  else if decide (n = 12) then "\f"
  else if decide (n = 13) then "\r"
  else if decide (n = 34) then "\" +:+ String c EmptyString
  else if decide (n = 92) then "\\"
  else if decide (n < 32) then "\u00" +:+ hex_digit (n / 16) +:+ hex_digit (n mod 16)
  else String c EmptyString.

Fixpoint quote_chars (s : string) : string :=
  match s with
  | EmptyString => EmptyString
  | String c s => quote_char c +:+ quote_chars s
  end.

Definition dquote : string := String (Ascii.ascii_of_nat 34) EmptyString.

Definition QuoteJSONString (s : string) : string :=
  dquote +:+ quote_chars s +:+ dquote.

Definition bigint_error : thrown :=
  TypeError "Do not know how to serialize a BigInt".

Definition symbol_error : thrown :=
  TypeError "Cannot convert a Symbol value to a string".

(** [SerializeJSONProperty] on a primitive: [None] is the [undefined] result
    that makes the caller skip a member or print [null] in an array. *)
Definition prim_json (p : prim) : completion (option string) :=
  match p with
  | PUndefined => Return None
  | PNull => Return (Some "null")
  | PBool true => Return (Some "true")
  | PBool false => Return (Some "false")
  | PNum n => Return (Some (Number_toString n))
  | PBigInt _ => Raise bigint_error
  | PStr s => Return (Some (QuoteJSONString s))
  | PSymbol _ => Return None
  end.

(** [ToString] on a primitive. *)
Definition prim_ToString (p : prim) : completion string :=
  match p with
  | PUndefined => Return "undefined"
  | PNull => Return "null"
  | PBool true => Return "true"
  | PBool false => Return "false"
  | PNum n => Return (Number_toString n)
  | PBigInt n => Return (Number_toString n)
  | PStr s => Return s
  | PSymbol _ => Raise symbol_error
  end.

Definition toISOString (d : date) : completion string :=
  match d with
  | ValidDate iso _ => Return iso
  | InvalidDate => Raise (RangeError "Invalid time value")
  end.

Definition Date_toString (d : date) : string :=
  match d with
  | ValidDate _ display => display
  | InvalidDate => "Invalid Date"
  end.

(** [Date.prototype.toJSON]: [null] for an invalid date. *)
Definition Date_toJSON (d : date) : prim :=
  match d with
  | ValidDate iso _ => PStr iso
  | InvalidDate => PNull
  end.

(** The text of a JSON array and of a JSON object from their parts. *)
Definition array_text (parts : list string) : string :=
  "[" +:+ String.concat "," parts +:+ "]".

Definition object_text (members : list string) : string :=
  "{" +:+ String.concat "," members +:+ "}".

Definition member_text (key part : string) : string :=
  QuoteJSONString key +:+ ":" +:+ part.

Definition element_text (part : option string) : string :=
  default "null" part.

Definition circular_placeholder : string := "[Circular Reference]".

Definition cyclic_structure : thrown :=
  TypeError "Converting circular structure to JSON".

(** ** [JSON.stringify] with the replacer of [safeStringify] *)

Section Serializer.
Variable h : heap.

(** [typeof val === 'object' && val !== null]: every heap object that is
    not callable. *)
Definition typeof_object (o : obj) : bool :=
  match o with
  | OFunction _ => false
  | _ => true
  end.

(** The replacer arrow function of [safeStringify]; [seen] is the
    [WeakSet], threaded through the calls. *)
Definition replacer (seen : gset loc) (val : value)
  : res (value * gset loc) :=
  match val with
  | VPrim _ => Ok (val, seen)
  | VRef l =>
    match h !! l with
    | None => Dangling
    | Some o =>
      if typeof_object o && bool_decide (l ∈ seen)
      then Ok (VPrim (PStr circular_placeholder), seen)
      else
        let seen := if typeof_object o then {[l]} ∪ seen else seen in
        match o with
        | ODate d => s ← lift (toISOString d); Ok (VPrim (PStr s), seen)
        | ORegExp text => Ok (VPrim (PStr text), seen)
        | OFunction src => Ok (VPrim (PStr src), seen)
        | _ => Ok (val, seen)
        end
    end
  end.

(** Step 2 of [SerializeJSONProperty]: the value's [toJSON] method, which
    only dates have on a heap whose objects define none of their own. *)
Definition toJSON (v : value) : res value :=
  match v with
  | VPrim _ => Ok v
  | VRef l =>
    match h !! l with
    | None => Dangling
    | Some (ODate d) => Ok (VPrim (Date_toJSON d))
    | Some _ => Ok v
    end
  end.

Section Members.
Variable property : gset loc → value → res (option string * gset loc).

(** [SerializeJSONArray]: an element without a JSON text prints as
    [null]. *)
Fixpoint SerializeJSONArray (seen : gset loc) (elems : list value)
  : res (list string * gset loc) :=
  match elems with
  | [] => Ok ([], seen)
  | e :: elems =>
    '(part, seen) ← property seen e;
    '(parts, seen) ← SerializeJSONArray seen elems;
    Ok (element_text part :: parts, seen)
  end.

(** [SerializeJSONObject]: a member without a JSON text is left out. *)
Fixpoint SerializeJSONObject (seen : gset loc) (props : list (string * value))
  : res (list string * gset loc) :=
  match props with
  | [] => Ok ([], seen)
  | (key, v) :: props =>
    '(part, seen) ← property seen v;
    '(members, seen) ← SerializeJSONObject seen props;
    Ok (match part with
        | Some s => member_text key s :: members
        | None => members
        end, seen)
  end.
End Members.

(** [SerializeJSONProperty] with the replacer in place. [stack] is the
    serializer's own list of objects being written, on which it raises
    its circular-structure [TypeError]. *)
Fixpoint SerializeJSONProperty (fuel : nat) (stack : list loc)
    (seen : gset loc) (v : value) : res (option string * gset loc) :=
  match fuel with
  | 0 => OutOfFuel
  | S fuel =>
    v ← toJSON v;
    '(v, seen) ← replacer seen v;
    match v with
    | VPrim p => part ← lift (prim_json p); Ok (part, seen)
    | VRef l =>
      match h !! l with
      | None => Dangling
      | Some (OFunction _) => Ok (None, seen)
      | Some o =>
        if bool_decide (l ∈ stack) then Throw cyclic_structure
        else
          let property := SerializeJSONProperty fuel (l :: stack) in
          match o with
          | OArray elems =>
            '(parts, seen) ← SerializeJSONArray property seen elems;
            Ok (Some (array_text parts), seen)
          | OObject props =>
            '(members, seen) ← SerializeJSONObject property seen props;
            Ok (Some (object_text members), seen)
          | _ => Ok (Some (object_text []), seen)
          end
      end
    end
  end.

(** [JSON.stringify(value, replacer)] with a fresh [WeakSet]: a string, or
    [undefined] when the value has no JSON text. Nested calls are on
    distinct objects of the heap, so the budget of one more than its size
    is never exhausted ([SerializeJSONProperty_post]). *)
Definition JSON_stringify (v : value) : res prim :=
  '(part, _) ← SerializeJSONProperty (S (length h)) [] ∅ v;
  Ok (from_option PStr PUndefined part).

(** ** [String(value)] *)

Section Join.
Variable ToString : value → res string.

(** [Array.prototype.join]: [undefined] and [null] elements print as the
    empty string. *)
Fixpoint join_parts (elems : list value) : res (list string) :=
  match elems with
  | [] => Ok []
  | e :: elems =>
    part ← match e with
           | VPrim PUndefined | VPrim PNull => Ok EmptyString
           | _ => ToString e
           end;
    parts ← join_parts elems;
    Ok (part :: parts)
  end.
End Join.

(** [ToString]. An array is joined; as in V8, an array met again while it
    is being joined contributes the empty string. A plain object prints
    through [Object.prototype.toString], which is what the runtime does
    when the object defines no [toString] or [valueOf] of its own. *)
Fixpoint ToString (fuel : nat) (joining : list loc) (v : value)
  : res string :=
  match fuel with
  | 0 => OutOfFuel
  | S fuel =>
    match v with
    | VPrim p => lift (prim_ToString p)
    | VRef l =>
      match h !! l with
      | None => Dangling
      | Some (ODate d) => Ok (Date_toString d)
      | Some (ORegExp text) => Ok text
      | Some (OFunction src) => Ok src
      | Some (OObject _) => Ok "[object Object]"
      | Some (OArray elems) =>
        if bool_decide (l ∈ joining) then Ok EmptyString
        else
          parts ← join_parts (ToString fuel (l :: joining)) elems;
          Ok (String.concat "," parts)
      end
    end
  end.

(** [String(value)]: a symbol prints its description instead of throwing.
    The budget is enough for the same reason ([ToString_post]). *)
Definition JsString (v : value) : res string :=
  match v with
  | VPrim (PSymbol description) => Ok ("Symbol(" +:+ description +:+ ")")
  | _ => ToString (S (length h)) [] v
  end.

(** ** [safeStringify] *)

(** The body of the [try] block. *)
Definition safeStringify_try (value : value) : res prim :=
  match value with
  | VPrim PUndefined => Ok (PStr "undefined")
  | VPrim _ => JSON_stringify value
  | VRef l =>
    match h !! l with
    | None => Dangling
    | Some (ODate d) => PStr <$> lift (toISOString d)
    | Some (ORegExp text) => Ok (PStr text)
    | Some (OFunction src) => Ok (PStr src)
    | Some _ => JSON_stringify value
    end
  end.

(** [safeStringify]: the warnings logged and the result. *)
Definition safeStringify (value : value) : list string * res prim :=
  match safeStringify_try value with
  | Throw err =>
    match message err with
    | Return m => (["Error in safeStringify: " +:+ m], PStr <$> JsString value)
    | Raise e => ([], Throw e)
    end
  | r => ([], r)
  end.
End Serializer.

(** ** Well-formed heaps *)

Definition value_closed (h : heap) (v : value) : Prop :=
  match v with
  | VPrim _ => True
  | VRef l => l < length h
  end.

Definition children (o : obj) : list value :=
  match o with
  | OArray elems => elems
  | OObject props => props.*2
  | _ => []
  end.

(** Every reference stored in the heap points into the heap. *)
Definition heap_closed (h : heap) : Prop :=
  Forall (λ o, Forall (value_closed h) (children o)) h.

(** The names under which the runtime looks for a conversion method of an
    object. *)
Definition conversion_methods : list string := ["toJSON"; "toString"; "valueOf"].

(** An object that defines no conversion method of its own: none of its own
    properties has one of these names. *)
Definition plain_object (o : obj) : Prop :=
  match o with
  | OObject props => Forall (λ name, name ∉ props.*1) conversion_methods
  | _ => True
  end.

Definition plain_heap (h : heap) : Prop := Forall plain_object h.

#[global] Instance plain_object_dec o : Decision (plain_object o).
Proof. destruct o; simpl; apply _. Defined.

#[global] Instance plain_heap_dec h : Decision (plain_heap h).
Proof. unfold plain_heap. apply _. Defined.

#[global] Instance value_closed_dec h v : Decision (value_closed h v).
Proof. destruct v; simpl; apply _. Defined.

#[global] Instance heap_closed_dec h : Decision (heap_closed h).
Proof. unfold heap_closed. apply _. Defined.


(** ** The standard encoding on trees *)

Section TreeMembers.
Variable property : tree → completion (option string).

Fixpoint tree_elements (elems : list tree) : completion (list string) :=
  match elems with
  | [] => Return []
  | e :: elems =>
    part ← property e;
    parts ← tree_elements elems;
    Return (element_text part :: parts)
  end.

Fixpoint tree_members (props : list (string * tree)) : completion (list string) :=
  match props with
  | [] => Return []
  | (key, t) :: props =>
    part ← property t;
    members ← tree_members props;
    Return (match part with
        | Some s => member_text key s :: members
        | None => members
        end)
  end.
End TreeMembers.

(** [SerializeJSONProperty] without a replacer: a date goes through its
    [toJSON], a compiled pattern has no enumerable property and prints as an
    empty object, a callable has no JSON text. *)
Fixpoint json_property (t : tree) : completion (option string) :=
  match t with
  | TPrim p => prim_json p
  | TDate d => prim_json (Date_toJSON d)
  | TRegExp _ => Return (Some (object_text []))
  | TFunction _ => Return None
  | TArray elems =>
    parts ← tree_elements json_property elems;
    Return (Some (array_text parts))
  | TObject props =>
    members ← tree_members json_property props;
    Return (Some (object_text members))
  end.

(** The substitutions the replacer makes below the top level: a compiled
    pattern and a callable become their text. *)
Fixpoint substitute (t : tree) : tree :=
  match t with
  | TRegExp text => TPrim (PStr text)
  | TFunction src => TPrim (PStr src)
  | TArray elems => TArray (map substitute elems)
  | TObject props => TObject (map (prod_map id substitute) props)
  | _ => t
  end.

(** [ToString] and [String(value)] on trees whose objects define no
    [toString] or [valueOf] of their own. *)
Section TreeJoin.
Variable ToString : tree → completion string.

Fixpoint tree_join_parts (elems : list tree) : completion (list string) :=
  match elems with
  | [] => Return []
  | e :: elems =>
    part ← match e with
           | TPrim PUndefined | TPrim PNull => Return EmptyString
           | _ => ToString e
           end;
    parts ← tree_join_parts elems;
    Return (part :: parts)
  end.
End TreeJoin.

Fixpoint tree_ToString (t : tree) : completion string :=
  match t with
  | TPrim p => prim_ToString p
  | TDate d => Return (Date_toString d)
  | TRegExp text => Return text
  | TFunction src => Return src
  | TObject _ => Return "[object Object]"
  | TArray elems =>
    parts ← tree_join_parts tree_ToString elems;
    Return (String.concat "," parts)
  end.

Definition tree_String (t : tree) : completion string :=
  match t with
  | TPrim (PSymbol description) => Return ("Symbol(" +:+ description +:+ ")")
  | _ => tree_ToString t
  end.

(** Serialization of a tree for a given treatment of nested values: the
    special kinds are dispatched at the top, everything else is encoded
    structurally after [nested] has been applied, and a failure falls back
    to the plain coercion of the whole value. *)
Definition serialize_attempt (nested : tree → completion tree) (t : tree)
  : completion prim :=
  match t with
  | TPrim PUndefined => Return (PStr "undefined")
  | TDate d => PStr <$> toISOString d
  | TRegExp text => Return (PStr text)
  | TFunction src => Return (PStr src)
  | _ =>
    t' ← nested t;
    part ← json_property t';
    Return (from_option PStr PUndefined part)
  end.

Definition serialize_with (nested : tree → completion tree) (t : tree)
  : list string * completion prim :=
  match serialize_attempt nested t with
  | Raise err =>
    match message err with
    | Return m => (["Error in safeStringify: " +:+ m], PStr <$> tree_String t)
    | Raise e => ([], Raise e)
    end
  | r => ([], r)
  end.

(** What the code computes on a value that unfolds to a tree. *)
Definition tree_serialize : tree → list string * completion prim :=
  serialize_with (λ t, Return (substitute t)).

(** Following the specification's words (section 4.1, steps 1 and 4): the
    four special encodings, the absent marker included, are applied to
    every nested value. *)
Section SpecSubstitute.
Variable spec_substitute : tree → completion tree.

Fixpoint spec_substitute_elements (elems : list tree) : completion (list tree) :=
  match elems with
  | [] => Return []
  | e :: elems =>
    e' ← spec_substitute e;
    elems' ← spec_substitute_elements elems;
    Return (e' :: elems')
  end.

Fixpoint spec_substitute_members (props : list (string * tree))
  : completion (list (string * tree)) :=
  match props with
  | [] => Return []
  | (key, t) :: props =>
    t' ← spec_substitute t;
    props' ← spec_substitute_members props;
    Return ((key, t') :: props')
  end.
End SpecSubstitute.

Fixpoint spec_substitute (t : tree) : completion tree :=
  match t with
  | TPrim PUndefined => Return (TPrim (PStr "undefined"))
  | TPrim p => Return (TPrim p)
  | TDate d => s ← toISOString d; Return (TPrim (PStr s))
  | TRegExp text => Return (TPrim (PStr text))
  | TFunction src => Return (TPrim (PStr src))
  | TArray elems => TArray <$> spec_substitute_elements spec_substitute elems
  | TObject props => TObject <$> spec_substitute_members spec_substitute props
  end.

Definition spec_serialize : tree → list string * completion prim :=
  serialize_with spec_substitute.

(** ** Heap values that are trees *)

(** [tree_at h v t fp]: in [h], the value [v] unfolds to the tree [t], and
    [fp] is the set of objects the replacer records on the way, each of
    them met exactly once. Dates and callables are never recorded, so they
    may be shared. *)
Inductive tree_at (h : heap) : value → tree → gset loc → Prop :=
| at_prim p :
    tree_at h (VPrim p) (TPrim p) ∅
| at_date l d :
    h !! l = Some (ODate d) →
    tree_at h (VRef l) (TDate d) ∅
| at_regexp l text :
    h !! l = Some (ORegExp text) →
    tree_at h (VRef l) (TRegExp text) {[l]}
| at_function l src :
    h !! l = Some (OFunction src) →
    tree_at h (VRef l) (TFunction src) ∅
| at_array l elems ts fp :
    h !! l = Some (OArray elems) →
    elements_at h elems ts fp →
    l ∉ fp →
    tree_at h (VRef l) (TArray ts) ({[l]} ∪ fp)
| at_object l props ts fp :
    h !! l = Some (OObject props) →
    members_at h props ts fp →
    l ∉ fp →
    tree_at h (VRef l) (TObject ts) ({[l]} ∪ fp)
with elements_at (h : heap) : list value → list tree → gset loc → Prop :=
| at_nil :
    elements_at h [] [] ∅
| at_cons v t fp vs ts fps :
    tree_at h v t fp →
    elements_at h vs ts fps →
    fp ## fps →
    elements_at h (v :: vs) (t :: ts) (fp ∪ fps)
with members_at (h : heap)
  : list (string * value) → list (string * tree) → gset loc → Prop :=
| at_no_member :
    members_at h [] [] ∅
| at_member key v t fp ps ts fps :
    tree_at h v t fp →
    members_at h ps ts fps →
    fp ## fps →
    members_at h ((key, v) :: ps) ((key, t) :: ts) (fp ∪ fps).

Scheme tree_at_mut := Minimality for tree_at Sort Prop
  with elements_at_mut := Minimality for elements_at Sort Prop
  with members_at_mut := Minimality for members_at Sort Prop.

Combined Scheme tree_at_mutind from tree_at_mut, elements_at_mut, members_at_mut.

(** ** Edges of a value graph *)

(** [edge h l l']: the object at [l] holds a reference to [l']. *)
Definition edge (h : heap) (l l' : loc) : Prop :=
  ∃ o, h !! l = Some o ∧ VRef l' ∈ children o.

(** An edge that closes a cycle: its target leads back to its source. *)
Definition cyclic_edge (h : heap) (l l' : loc) : Prop :=
  edge h l l' ∧ rtc (edge h) l' l.

(** * [parseContent] *)

(** ** Caller-supplied pieces *)

(** A JavaScript function of one argument as the resolver uses it: it
    returns a value or throws. Calling something that is not callable
    throws a [TypeError], so it is a function that always throws. *)
Definition fn := tree → completion tree.

(** The [parse] field of a rule: one function, or an array of functions. *)
Inductive transform :=
| Single (f : fn)
| Pipeline (fs : list fn).

Record ruleObj := { rule : fn; parse : transform }.

(** The value stored under a key of the caller's [parsers] object. *)
Inductive entry :=
| EArray (rules : list ruleObj)
| EFunction (f : fn)
| EOther.

(** [response]: its [type] may be missing ([None]) and [body] is any value.
    A falsy [response] is [None] at the call. *)
Record Response := { type : option string; body : tree }.

(** What the callback receives: values, and the error object built when the
    content cannot be extracted. *)
Inductive arg :=
| AValue (v : tree)
| AError (e : thrown).

(** [callback]: [None] stands for [null] and for anything not callable. *)
Definition callback_fn := list arg → completion tree.

Inductive event :=
| Warn (line : string)
| Callback (args : list arg).

(** ** Objects holding rule arrays *)

(** Arrays of rules live in a store and are referred to by index, so that
    an array shared by two objects is one cell. *)
Abbreviation store := (list (list ruleObj)).

(** An object whose own properties hold rule arrays. *)
Abbreviation object := (list (string * nat)).

(** What an object literal inherits from [Object.prototype]: functions, of
    which only [length] is read here, and the prototype object itself under
    [__proto__]. *)
Inductive inherited :=
| IFunction (length : nat)
| IObject.

Definition Object_prototype : list (string * inherited) :=
  [ ("constructor", IFunction 1);
    ("__defineGetter__", IFunction 2);
    ("__defineSetter__", IFunction 2);
    ("hasOwnProperty", IFunction 1);
    ("__lookupGetter__", IFunction 1);
    ("__lookupSetter__", IFunction 1);
    ("isPrototypeOf", IFunction 1);
    ("propertyIsEnumerable", IFunction 1);
    ("toString", IFunction 0);
    ("valueOf", IFunction 0);
    ("__proto__", IObject);
    ("toLocaleString", IFunction 0) ].
Arguments Object_prototype : simpl never.

Fixpoint assoc {V} (key : string) (props : list (string * V)) : option V :=
  match props with
  | [] => None
  | (k, v) :: props => if decide (k = key) then Some v else assoc key props
  end.

Inductive slot :=
| SArray (r : nat)
| SInherited (i : inherited)
| SUndefined.

(** [o[key]]: an own property, else a member of [Object.prototype]. *)
Definition Get (o : object) (key : string) : slot :=
  match assoc key o with
  | Some r => SArray r
  | None =>
    match assoc key Object_prototype with
    | Some i => SInherited i
    | None => SUndefined
    end
  end.

(** [array.unshift(...items)] on the array at [r]. *)
Definition unshift (r : nat) (items : list ruleObj) (σ : store) : store :=
  alter (app items) r σ.

(** ** Truthiness *)

Definition truthy (t : tree) : bool :=
  match t with
  | TPrim PUndefined | TPrim PNull => false
  | TPrim (PBool b) => b
  | TPrim (PNum n) | TPrim (PBigInt n) => negb (n =? 0)%Z
  | TPrim (PStr EmptyString) => false
  | _ => true
  end.

(** ** The resolver *)

(** [JSON.parse(text)] returns a value or throws a [SyntaxError]. *)
Inductive parse_result :=
| Parsed (t : tree)
| Malformed (message : string).

Section Resolver.
Variable JSON_parse_text : string → parse_result.

(** [JSON.parse(content)]: the argument is first converted to a string. *)
Definition JSON_parse (content : tree) : completion tree :=
  text ← tree_ToString content;
  match JSON_parse_text text with
  | Parsed t => Return t
  | Malformed m => Raise (SyntaxError m)
  end.

Definition always : fn := λ _, Return (TPrim (PBool true)).
Definition identity : fn := λ content, Return content.

Definition default_json : ruleObj := {| rule := always; parse := Single JSON_parse |}.
Definition default_html : ruleObj := {| rule := always; parse := Single identity |}.
Definition default_text : ruleObj := {| rule := always; parse := Single identity |}.

(** The object literal [defaultParsers]: three new arrays on every call. *)
Definition defaultParsers (σ : store) : object * store :=
  let r := length σ in
  ([("json", r); ("html", S r); ("text", S (S r))],
   σ ++ [[default_json]; [default_html]; [default_text]]).

(** [response.type || 'text'] *)
Definition type_of (response : Response) : string :=
  match type response with
  | Some (String c s) => String c s
  | _ => "text"
  end.

(** The body of the first [try]: only [JSON.parse] can throw in it. *)
Definition extract (type : string) (body : tree) : completion tree :=
  if decide (type = "json") then
    match body with
    | TPrim (PStr _) => JSON_parse body
    | _ => Return body
    end
  else Return body.

(** The rules a [parsers] entry contributes. *)
Definition items (e : entry) : option (list ruleObj) :=
  match e with
  | EArray rules => Some rules
  | EFunction f => Some [{| rule := always; parse := Single f |}]
  | EOther => None
  end.

(** One turn of the [forEach] over [Object.keys(parsers)]. *)
Definition merge_entry (key : string) (e : entry) (merged : object) (σ : store)
  : store * completion object :=
  let '(merged, σ) :=
    match Get merged key with
    | SUndefined => (merged ++ [(key, length σ)], σ ++ [[]])
    | _ => (merged, σ)
    end in
  match items e with
  | None => (σ, Return merged)
  | Some rules =>
    match Get merged key with
    | SArray r => (unshift r rules σ, Return merged)
    | _ => (σ, Raise (TypeError "mergedParsers[type].unshift is not a function"))
    end
  end.

Fixpoint merge (parsers : list (string * entry)) (merged : object) (σ : store)
  : store * completion object :=
  match parsers with
  | [] => (σ, Return merged)
  | (key, e) :: parsers =>
    match merge_entry key e merged σ with
    | (σ, Return merged) => merge parsers merged σ
    | failed => failed
    end
  end.

(** [mergedParsers]: the spread copies the three references of
    [defaultParsers], not the arrays. *)
Definition mergedParsers (parsers : list (string * entry)) (σ : store)
  : store * completion object :=
  let '(defaults, σ) := defaultParsers σ in
  merge parsers defaults σ.

(** [parse.reduce((currentContent, parser) => parser(currentContent), content)] *)
Definition reduce (fs : list fn) (content : tree) : completion tree :=
  foldl (λ current f, current ≫= f) (Return content) fs.

Definition apply_parse (p : transform) (content : tree) : completion tree :=
  match p with
  | Single f => f content
  | Pipeline fs => reduce fs content
  end.

(** The body of the [try] inside the loop: [Some result] when the rule has
    processed the content, [None] when its predicate is falsy. *)
Definition attempt (r : ruleObj) (content : tree) : completion (option tree) :=
  b ← rule r content;
  if truthy b then Some <$> apply_parse (parse r) content else Return None.

(** The [for ... of] loop with its [catch]. The handler reads [err.message],
    which itself throws when [err] is [null] or [undefined]. *)
Fixpoint run_rules (rules : list ruleObj) (content : tree)
  : list event * completion (option tree) :=
  match rules with
  | [] => ([], Return None)
  | r :: rules =>
    match attempt r content with
    | Return (Some result) => ([], Return (Some result))
    | Return None => run_rules rules content
    | Raise err =>
      match message err with
      | Return m =>
        let '(log, result) := run_rules rules content in
        (Warn ("Failed to parse content: " +:+ m) :: log, result)
      | Raise e => ([], Raise e)
      end
    end
  end.

(** [if (callback && typeof callback === 'function') callback(...args)] *)
Definition invoke (callback : option callback_fn) (args : list arg)
  : list event * completion unit :=
  match callback with
  | None => ([], Return ())
  | Some f => ([Callback args], (λ _, ()) <$> f args)
  end.

(** Hand [result] to the callback, then return it. *)
Definition deliver (callback : option callback_fn) (result : tree)
  : list event * completion tree :=
  let '(log, done) := invoke callback [AValue result] in
  (log, (λ _, result) <$> done).

(** The value of [typeRules]: an array of rules, or what the key names in
    [Object.prototype]. *)
Inductive rules_value :=
| RArray (rules : list ruleObj)
| RInherited (i : inherited).

(** [mergedParsers[type] || []] *)
Definition typeRules (merged : object) (σ : store) (type : string)
  : rules_value :=
  match Get merged type with
  | SArray r => RArray (default [] (σ !! r))
  | SUndefined => RArray []
  | SInherited i => RInherited i
  end.

(** Everything after [typeRules]: the early return on [length === 0], the
    loop, the callback. A function or a plain object is not iterable. *)
Definition resolve_rules (rules : rules_value) (content : tree)
    (callback : option callback_fn) : list event * completion tree :=
  match rules with
  | RArray [] | RInherited (IFunction 0) => deliver callback content
  | RArray rules =>
    match run_rules rules content with
    | (log, Return processed) =>
      let '(log', result) := deliver callback (default content processed) in
      (log ++ log', result)
    | (log, Raise e) => (log, Raise e)
    end
  | RInherited _ => ([], Raise (TypeError "typeRules is not iterable"))
  end.

Definition ContentDecodeError (m : string) : thrown :=
  JsError "Error" ("Failed to parse content: " +:+ m).

Record execution := { final : store; log : list event; outcome : completion tree }.

(** [parseContent(response, parsers, callback)]. [parsers] is the list of
    the entries of the caller's table, in the order of [Object.keys]; a
    call without a table is the call on the empty list. A call whose table
    is [null], which fails at [Object.keys], is outside the model. *)
Definition parseContent (σ : store) (response : option Response)
    (parsers : list (string * entry)) (callback : option callback_fn) : execution :=
  match response with
  | None =>
    {| final := σ; log := [];
       outcome := Raise (JsError "Error" "Response is required") |}
  | Some response =>
    let type := type_of response in
    match extract type (body response) with
    | Raise err =>
      match message err with
      | Return m =>
        let error := ContentDecodeError m in
        let '(log, done) :=
          invoke callback [AValue (TPrim PNull); AError error] in
        {| final := σ; log := log;
           outcome := done ≫= λ _, Raise error |}
      | Raise e => {| final := σ; log := []; outcome := Raise e |}
      end
    | Return content =>
      match mergedParsers parsers σ with
      | (σ, Raise e) => {| final := σ; log := []; outcome := Raise e |}
      | (σ, Return merged) =>
        let '(log, result) :=
          resolve_rules (typeRules merged σ type) content callback in
        {| final := σ; log := log; outcome := result |}
      end
    end
  end.
End Resolver.

(** ** Vocabulary for the rule table *)

(** The rules the caller supplies for [kind], as the merge lays them out:
    each entry for the kind goes in front of what is already there. *)
Definition custom_rules (parsers : list (string * entry)) (kind : string)
  : list ruleObj :=
  foldl (λ acc '(key, e),
           if decide (key = kind) then default [] (items e) ++ acc else acc)
        [] parsers.

(** The built-in rules of a kind. *)
Definition default_rules (JSON_parse_text : string → parse_result)
    (kind : string) : list ruleObj :=
  if decide (kind = "json") then [default_json JSON_parse_text]
  else if decide (kind = "html") then [default_html]
  else if decide (kind = "text") then [default_text]
  else [].

(** A key that names a member of [Object.prototype]. *)
Definition inherited_name (key : string) : Prop :=
  is_Some (assoc key Object_prototype).

#[global] Instance inherited_name_dec key : Decision (inherited_name key).
Proof. unfold inherited_name. apply _. Defined.

(** No entry asks for rules to be placed under an inherited name. *)
Definition mergeable (parsers : list (string * entry)) : Prop :=
  Forall (λ '(key, e), items e = None ∨ ¬ inherited_name key) parsers.

#[global] Instance items_None_dec e : Decision (items e = None).
Proof. destruct e; simpl; [right|right|left]; done. Defined.

#[global] Instance mergeable_dec parsers : Decision (mergeable parsers).
Proof.
  unfold mergeable. apply Forall_dec. intros [key e]. apply _.
Defined.

(** The calls of a session, each leaving its store to the next. *)
Record call := {
  call_response : option Response;
  call_parsers : list (string * entry);
  call_callback : option callback_fn
}.

Definition store_after (JSON_parse_text : string → parse_result)
    (calls : list call) (σ : store) : store :=
  foldl (λ σ c,
           final (parseContent JSON_parse_text σ (call_response c)
                    (call_parsers c) (call_callback c)))
        σ calls.

(** A completion that is not [throw null] or [throw undefined]: what it
    throws, if anything, has a [message] the handler can read. *)
Definition readable {A} (c : completion A) : Prop :=
  c ≠ Raise ThrownNullish.

(** No rule of the caller throws [null] or [undefined]. *)
Definition polite (parsers : list (string * entry)) : Prop :=
  Forall (λ '(_, e),
            Forall (λ q, ∀ content, readable (attempt q content))
                   (default [] (items e)))
         parsers.

(** A rule that does not process the content: its predicate is falsy, or
    the rule throws an error that the handler logs. *)
Definition skipped (q : ruleObj) (content : tree) : Prop :=
  attempt q content = Return None ∨
  ∃ name m, attempt q content = Raise (JsError name m).

(** A rule whose predicate does not return a true value: it returns a false
    one, or it throws an error that the handler logs. *)
Definition unmatched (q : ruleObj) (content : tree) : Prop :=
  (∃ b, rule q content = Return b ∧ truthy b = false) ∨
  (∃ name m, rule q content = Raise (JsError name m)).

(** The argument lists of the callback invocations in a log. *)
Definition callbacks (log : list event) : list (list arg) :=
  omap (λ ev, match ev with Callback args => Some args | Warn _ => None end) log.

(** [String.prototype.toUpperCase] on byte strings. *)
Definition upper_char (c : Ascii.ascii) : Ascii.ascii :=
  let n := Ascii.nat_of_ascii c in
  if bool_decide (97 ≤ n ≤ 122) then Ascii.ascii_of_nat (n - 32) else c.

Fixpoint toUpperCase (s : string) : string :=
  match s with
  | EmptyString => EmptyString
  | String c s => String (upper_char c) (toUpperCase s)
  end.

(** [content => content.toUpperCase()] *)
Definition uppercase : fn := λ content,
  match content with
  | TPrim (PStr s) => Return (TPrim (PStr (toUpperCase s)))
  | _ => Raise (TypeError "content.toUpperCase is not a function")
  end.

(** The number of places of [s] at which [pattern] starts. *)
Fixpoint occurrences (pattern s : string) : nat :=
  match s with
  | EmptyString => 0
  | String _ rest =>
    (if String.prefix pattern s then 1 else 0) + occurrences pattern rest
  end.

(** ** The rule table as a map

    A second reading of the merge, without store or references: the table
    is the map from a key to the value [mergedParsers[key] || []] has. It is
    compared below with the one that shares arrays. *)

Definition view := string → rules_value.

(** The table of the built-in rules. *)
Definition default_view (JSON_parse_text : string → parse_result) : view :=
  λ key,
    match default_rules JSON_parse_text key with
    | [] =>
      match assoc key Object_prototype with
      | Some i => RInherited i
      | None => RArray []
      end
    | rules => RArray rules
    end.

(** One entry of the caller's table. *)
Definition entry_step (key : string) (e : entry) (v : view) : completion view :=
  match items e with
  | None => Return v
  | Some rules =>
    match v key with
    | RArray old =>
      Return (λ k, if decide (k = key) then RArray (rules ++ old) else v k)
    | RInherited _ =>
      Raise (TypeError "mergedParsers[type].unshift is not a function")
    end
  end.

Fixpoint steps (parsers : list (string * entry)) (v : view) : completion view :=
  match parsers with
  | [] => Return v
  | (key, e) :: parsers => v ← entry_step key e v; steps parsers v
  end.

(** [parseContent] over the map: its log and its outcome. *)
Definition parseContent_view (JSON_parse_text : string → parse_result)
    (response : option Response) (parsers : list (string * entry))
    (callback : option callback_fn) : list event * completion tree :=
  match response with
  | None => ([], Raise (JsError "Error" "Response is required"))
  | Some response =>
    let type := type_of response in
    match extract JSON_parse_text type (body response) with
    | Raise err =>
      match message err with
      | Return m =>
        let error := ContentDecodeError m in
        let '(log, done) :=
          invoke callback [AValue (TPrim PNull); AError error] in
        (log, done ≫= λ _, Raise error)
      | Raise e => ([], Raise e)
      end
    | Return content =>
      match steps parsers (default_view JSON_parse_text) with
      | Raise e => ([], Raise e)
      | Return v => resolve_rules (v type) content callback
      end
    end
  end.

(** * A reader for JSON texts

    [JSON.parse] on byte strings whose numerals are integers. Two parts of
    the JSON grammar have no value in this model and are reported as
    malformed: a numeral with a fraction or an exponent, and a [\u] escape
    above [ÿ]. Integers are kept exact whatever their size, and a rejection
    carries one of two fixed messages. The theorems about [parseContent]
    take the parser as a parameter; this reader runs their examples. *)

Module JsonText.

Definition code (c : Ascii.ascii) : nat := Ascii.nat_of_ascii c.

Definition is_ws (c : Ascii.ascii) : bool :=
  bool_decide (code c ∈ [32; 9; 10; 13]).

Definition is_digit (c : Ascii.ascii) : bool :=
  bool_decide (48 ≤ code c ≤ 57).

Fixpoint skip_ws (s : list Ascii.ascii) : list Ascii.ascii :=
  match s with
  | c :: s' => if is_ws c then skip_ws s' else s
  | [] => []
  end.

(** The longest run of digits at the head of [s], most significant first. *)
Fixpoint digits (s : list Ascii.ascii) : list nat * list Ascii.ascii :=
  match s with
  | c :: s' =>
    if is_digit c
    then let '(ds, rest) := digits s' in ((code c - 48) :: ds, rest)
    else ([], s)
  | [] => ([], [])
  end.

Definition number_of (ds : list nat) : Z :=
  foldl (λ n d, 10 * n + Z.of_nat d)%Z 0%Z ds.

(** An optional minus sign and an integer without a leading zero, with
    nothing of a fraction or an exponent after it. *)
Definition read_number (s : list Ascii.ascii) : option (Z * list Ascii.ascii) :=
  let '(negative, s) :=
    match s with
    | c :: s' => if decide (code c = 45) then (true, s') else (false, s)
    | [] => (false, [])
    end in
  let '(ds, rest) := digits s in
  let integral :=
    match ds with
    | [] => false
    | 0 :: _ :: _ => false
    | _ => true
    end in
  let ends :=
    match rest with
    | c :: _ => negb (bool_decide (code c ∈ [46; 101; 69]))
    | [] => true
    end in
  if integral && ends
  then Some (if negative then (- number_of ds)%Z else number_of ds, rest)
  else None.

Definition hex_value (c : Ascii.ascii) : option nat :=
  let n := code c in
  if bool_decide (48 ≤ n ≤ 57) then Some (n - 48)
  else if bool_decide (97 ≤ n ≤ 102) then Some (n - 87)
  else if bool_decide (65 ≤ n ≤ 70) then Some (n - 55)
  else None.

(** The characters of a string up to its closing quote. *)
Fixpoint read_chars (fuel : nat) (s : list Ascii.ascii)
  : option (string * list Ascii.ascii) :=
  match fuel with
  | 0 => None
  | S fuel =>
    match s with
    | [] => None
    | c :: s =>
      if decide (code c = 34) then Some (EmptyString, s)
      else if decide (code c = 92) then
        match s with
        | e :: s =>
          let plain (n : nat) :=
            '(text, rest) ← read_chars fuel s;
            Some (String (Ascii.ascii_of_nat n) text, rest) in
          if decide (code e = 34) then plain 34
          else if decide (code e = 92) then plain 92
          else if decide (code e = 47) then plain 47
          else if decide (code e = 98) then plain 8
          else if decide (code e = 102) then plain 12
          else if decide (code e = 110) then plain 10
          else if decide (code e = 114) then plain 13
          else if decide (code e = 116) then plain 9
          else if decide (code e = 117) then
            match s with
            | a :: b :: c' :: d :: s =>
              a ← hex_value a; b ← hex_value b;
              c' ← hex_value c'; d ← hex_value d;
              if decide (a = 0 ∧ b = 0) then
                '(text, rest) ← read_chars fuel s;
                Some (String (Ascii.ascii_of_nat (16 * c' + d)) text, rest)
              else None
            | _ => None
            end
          else None
        | [] => None
        end
      else if decide (code c < 32) then None
      else
        '(text, rest) ← read_chars fuel s;
        Some (String c text, rest)
    end
  end.

Definition read_string (s : list Ascii.ascii)
  : option (string * list Ascii.ascii) :=
  match s with
  | c :: s => if decide (code c = 34) then read_chars (length s) s else None
  | [] => None
  end.

Fixpoint strip (word s : list Ascii.ascii) : option (list Ascii.ascii) :=
  match word, s with
  | [] , _ => Some s
  | w :: word, c :: s => if decide (w = c) then strip word s else None
  | _ :: _, [] => None
  end.

(** An array index: the canonical numeral of an integer below [2^32 - 1].
    Such keys are enumerated first, in ascending order. *)
Definition array_index (key : string) : option Z :=
  match read_number (String.list_ascii_of_string key) with
  | Some (n, []) =>
    if bool_decide (0 ≤ n < 4294967295)%Z && bool_decide (Number_toString n = key)
    then Some n else None
  | _ => None
  end.

Fixpoint replace_property (key : string) (v : tree) (props : list (string * tree))
  : list (string * tree) :=
  match props with
  | [] => []
  | (k, w) :: props =>
    if decide (k = key) then (k, v) :: props
    else (k, w) :: replace_property key v props
  end.

Fixpoint insert_index (n : Z) (key : string) (v : tree)
    (props : list (string * tree)) : list (string * tree) :=
  match props with
  | [] => [(key, v)]
  | (k, w) :: rest =>
    match array_index k with
    | Some m =>
      if bool_decide (m < n)%Z then (k, w) :: insert_index n key v rest
      else (key, v) :: props
    | None => (key, v) :: props
    end
  end.

(** [CreateDataProperty]: a key met again keeps its place and takes the new
    value. *)
Definition set_property (key : string) (v : tree) (props : list (string * tree))
  : list (string * tree) :=
  match assoc key props with
  | Some _ => replace_property key v props
  | None =>
    match array_index key with
    | Some n => insert_index n key v props
    | None => props ++ [(key, v)]
    end
  end.

(** One value, then the rest of an array after an element ([read_elements])
    and the rest of an object after a member ([read_members]). *)
Fixpoint read_value (fuel : nat) (s : list Ascii.ascii)
  : option (tree * list Ascii.ascii) :=
  match fuel with
  | 0 => None
  | S fuel =>
    let read_elements :=
      fix read_elements (budget : nat) (acc : list tree) (s : list Ascii.ascii)
        : option (tree * list Ascii.ascii) :=
        match budget with
        | 0 => None
        | S budget =>
          match skip_ws s with
          | c :: s =>
            if decide (code c = 93) then Some (TArray (reverse acc), s)
            else if decide (code c = 44) then
              '(e, s) ← read_value fuel s;
              read_elements budget (e :: acc) s
            else None
          | [] => None
          end
        end in
    let read_member (acc : list (string * tree)) (s : list Ascii.ascii)
      : option (list (string * tree) * list Ascii.ascii) :=
      '(key, s) ← read_string (skip_ws s);
      match skip_ws s with
      | c :: s =>
        if decide (code c = 58) then
          '(v, s) ← read_value fuel s;
          Some (set_property key v acc, s)
        else None
      | [] => None
      end in
    let read_members :=
      fix read_members (budget : nat) (acc : list (string * tree))
          (s : list Ascii.ascii) : option (tree * list Ascii.ascii) :=
        match budget with
        | 0 => None
        | S budget =>
          match skip_ws s with
          | c :: s =>
            if decide (code c = 125) then Some (TObject acc, s)
            else if decide (code c = 44) then
              '(acc, s) ← read_member acc s;
              read_members budget acc s
            else None
          | [] => None
          end
        end in
    match skip_ws s with
    | [] => None
    | c :: s' =>
      if decide (code c = 91) then
        match skip_ws s' with
        | c' :: s'' =>
          if decide (code c' = 93) then Some (TArray [], s'')
          else
            '(e, s) ← read_value fuel s';
            read_elements (length s) [e] s
        | [] => None
        end
      else if decide (code c = 123) then
        match skip_ws s' with
        | c' :: s'' =>
          if decide (code c' = 125) then Some (TObject [], s'')
          else
            '(acc, s) ← read_member [] s';
            read_members (length s) acc s
        | [] => None
        end
      else if decide (code c = 34) then
        '(text, s) ← read_string (c :: s');
        Some (TPrim (PStr text), s)
      else if decide (code c = 116) then
        s ← strip (String.list_ascii_of_string "rue") s'; Some (TPrim (PBool true), s)
      else if decide (code c = 102) then
        s ← strip (String.list_ascii_of_string "alse") s'; Some (TPrim (PBool false), s)
      else if decide (code c = 110) then
        s ← strip (String.list_ascii_of_string "ull") s'; Some (TPrim PNull, s)
      else
        '(n, s) ← read_number (c :: s');
        Some (TPrim (PNum n), s)
    end
  end.

Definition parse (text : string) : parse_result :=
  let s := String.list_ascii_of_string text in
  match read_value (S (length s)) s with
  | Some (t, rest) =>
    match skip_ws rest with
    | [] => Parsed t
    | _ => Malformed "Unexpected non-whitespace character after JSON"
    end
  | None => Malformed "Unexpected token in JSON"
  end.

End JsonText.


(** * [memoizedStringify] *)

#[global] Instance prim_eq_dec : EqDecision prim.
Proof. solve_decision. Defined.

#[global] Instance value_eq_dec : EqDecision value.
Proof. solve_decision. Defined.

(** The [Map] [stringifyCache]: its entries in insertion order. Keys are
    compared as [SameValueZero] compares them: a primitive by its value, an
    object by its identity. *)
Abbreviation cache := (list (value * prim)).

Fixpoint Map_find (key : value) (m : cache) : option prim :=
  match m with
  | [] => None
  | (k, v) :: m => if decide (k = key) then Some v else Map_find key m
  end.

Definition Map_has (key : value) (m : cache) : bool :=
  bool_decide (is_Some (Map_find key m)).

Definition Map_get (key : value) (m : cache) : prim :=
  default PUndefined (Map_find key m).

Fixpoint Map_set (key : value) (v : prim) (m : cache) : cache :=
  match m with
  | [] => [(key, v)]
  | (k, w) :: m =>
    if decide (k = key) then (k, v) :: m else (k, w) :: Map_set key v m
  end.

(** [memoizedStringify(value)]: the cache it leaves, the lines logged and
    the result. When [safeStringify] throws, nothing is stored. *)
Definition memoizedStringify (h : heap) (stringifyCache : cache)
    (value : value) : cache * (list string * res prim) :=
  if Map_has value stringifyCache
  then (stringifyCache, ([], Ok (Map_get value stringifyCache)))
  else
    match safeStringify h value with
    | (warnings, Ok s) =>
      let stringifyCache := Map_set value s stringifyCache in
      (stringifyCache, (warnings, Ok (Map_get value stringifyCache)))
    | failed => (stringifyCache, failed)
    end.

(** The calls of a session on one cache, each on the heap as it is at the
    time of the call. *)
Definition cache_after (calls : list (heap * value)) (m : cache) : cache :=
  foldl (λ m '(h, v), (memoizedStringify h m v).1) m calls.

(** * [quickFind] *)

(** ** String methods *)

Definition slash : Ascii.ascii := Ascii.ascii_of_nat 47.

(** A letter of the class [[gimuy]]. *)
Definition is_flag (c : Ascii.ascii) : bool :=
  bool_decide (c ∈ String.list_ascii_of_string "gimuy").

Fixpoint flags_only (s : string) : bool :=
  match s with
  | EmptyString => true
  | String c s => is_flag c && flags_only s
  end.

(** [/\/[gimuy]*$/.test(s)]: at some place of [s] there is a slash with
    nothing but letters of the class between it and the end of [s]. *)
Fixpoint literal_tail (s : string) : bool :=
  match s with
  | EmptyString => false
  | String c rest =>
    (bool_decide (c = slash) && flags_only rest) || literal_tail rest
  end.

(** [s.lastIndexOf(c)], which is [-1] when [c] does not occur. *)
Fixpoint lastIndexOf (c : Ascii.ascii) (s : string) : Z :=
  match s with
  | EmptyString => -1
  | String a rest =>
    let k := lastIndexOf c rest in
    if (0 <=? k)%Z then (k + 1)%Z
    else if decide (a = c) then 0%Z else (-1)%Z
  end.

(** The position an argument of [slice] denotes: a negative one counts from
    the end, and both ends are clamped to the string. *)
Definition slice_position (len : nat) (k : Z) : nat :=
  if (k <? 0)%Z then Z.to_nat (Z.of_nat len + k)
  else Nat.min (Z.to_nat k) len.

(** [s.slice(from, to)] and [s.slice(from)] *)
Definition slice (s : string) (from to : Z) : string :=
  let a := slice_position (String.length s) from in
  let b := slice_position (String.length s) to in
  String.substring a (b - a) s.

Definition slice_from (s : string) (from : Z) : string :=
  let a := slice_position (String.length s) from in
  String.substring a (String.length s - a) s.

(** The letters [g] and [y]. *)
Definition letter_g : Ascii.ascii := Ascii.ascii_of_nat 103.
Definition letter_y : Ascii.ascii := Ascii.ascii_of_nat 121.

Fixpoint has_flag (c : Ascii.ascii) (flags : string) : bool :=
  match flags with
  | EmptyString => false
  | String a flags => bool_decide (a = c) || has_flag c flags
  end.

(** ** Regular expression objects *)

(** What a compiled pattern does at one place of a text: [m s i = Some n]
    when a match of [n] code units starts at index [i] of [s]. *)
Definition matcher := string → nat → option nat.

(** A [RegExp] object: its matcher, the two flags that [exec] reads, and the
    [lastIndex] property, the only part of it that changes. *)
Record RegExp := {
  regexp_matcher : matcher;
  global : bool;
  sticky : bool;
  lastIndex : nat
}.

(** The objects of the caller live in a store, so that a pattern passed
    under two names, or to two calls, is one cell. *)
Abbreviation regexps := (list RegExp).

Definition set_lastIndex (r : RegExp) (n : nat) : RegExp :=
  {| regexp_matcher := regexp_matcher r; global := global r;
     sticky := sticky r; lastIndex := n |}.

(** The loop of [RegExpBuiltinExec]: the first index from [i] on, among
    [i], ..., [i + n], at which the matcher succeeds. *)
Fixpoint first_match (m : matcher) (s : string) (i n : nat)
  : option (nat * nat) :=
  match m s i with
  | Some len => Some (i, len)
  | None =>
    match n with
    | 0 => None
    | S n => first_match m s (S i) n
    end
  end.

(** What a successful [exec] returns, as far as it is read: [match.index]
    and [match[0]]. *)
Record hit := { hit_index : nat; hit_text : string }.

(** [RegExpBuiltinExec(r, s)]. The search starts at [lastIndex] when the
    object is global or sticky; a sticky object looks at that index only. A
    success moves [lastIndex] to the end of the match, a failure resets it. *)
Definition RegExpBuiltinExec (r : RegExp) (s : string) : RegExp * option hit :=
  let stateful := global r || sticky r in
  let start := if stateful then lastIndex r else 0 in
  let found :=
    if decide (String.length s < start) then None
    else if sticky r
         then (λ len, (start, len)) <$> regexp_matcher r s start
         else first_match (regexp_matcher r) s start (String.length s - start) in
  match found with
  | None => (if stateful then set_lastIndex r 0 else r, None)
  | Some (i, len) =>
    (if stateful then set_lastIndex r (i + len) else r,
     Some {| hit_index := i; hit_text := String.substring i len s |})
  end.

(** [r.exec(string)]: the argument is converted to a string first. *)
Definition exec (r : RegExp) (string : prim)
  : completion (RegExp * option hit) :=
  s ← prim_ToString string;
  Return (RegExpBuiltinExec r s).

(** ** The search *)

(** An element of a [matches] array. *)
Record found := {
  found_index : nat;
  found_value : string;
  found_pattern : string
}.

(** A value of the [patterns] object: a [RegExp] object of the caller, or a
    primitive. *)
Inductive pattern_value :=
| PatRegExp (l : loc)
| PatPrim (p : prim).

Definition value_truthy (v : value) : bool :=
  match v with
  | VPrim p => truthy (TPrim p)
  | VRef _ => true
  end.

Definition found_tree (m : found) : tree :=
  TObject [ ("index", TPrim (PNum (Z.of_nat (found_index m))));
            ("value", TPrim (PStr (found_value m)));
            ("pattern", TPrim (PStr (found_pattern m))) ].

(** [matches.length > 0 ? matches : null] *)
Definition matches_tree (matches : list found) : tree :=
  match matches with
  | [] => TPrim PNull
  | _ => TArray (map found_tree matches)
  end.

(** [results[patternName] = v] on an object created by [{}]: the name
    [__proto__] reaches the setter of [Object.prototype], which replaces
    the prototype by the array or [null] and creates no property; any other
    name becomes an own property, at its place in the property order. *)
Definition assign (name : string) (v : tree) (results : list (string * tree))
  : list (string * tree) :=
  if decide (name = "__proto__") then results
  else JsonText.set_property name v results.

Definition stats_tree (executionTime : Z) (patternsProcessed : nat) : tree :=
  TObject [ ("executionTime", TPrim (PNum executionTime));
            ("patternsProcessed", TPrim (PNum (Z.of_nat patternsProcessed))) ].

Definition report_tree (results : list (string * tree)) (stats : tree) : tree :=
  TObject [("results", TObject results); ("stats", stats)].

(** [JSON.stringify(value)] *)
Definition JSON_text (t : tree) : completion prim :=
  part ← json_property t;
  Return (from_option PStr PUndefined part).

(** What a call leaves behind and gives back: the [RegExp] objects of the
    caller, the lines logged and callback invocations, and the result. *)
Record search := {
  final_regexps : regexps;
  events : list event;
  returned : res prim
}.

Section QuickFind.
(** The pattern compiler of the runtime: the matcher that
    [new RegExp(pattern, flags)] compiles, or the [SyntaxError] it throws
    for a pattern or flags it rejects. *)
Variable RegExp_matcher : string → string → completion matcher.

(** [new RegExp(pattern, flags)] *)
Definition RegExp_new (pattern flags : string) : completion RegExp :=
  m ← RegExp_matcher pattern flags;
  Return {| regexp_matcher := m;
            global := has_flag letter_g flags;
            sticky := has_flag letter_y flags;
            lastIndex := 0 |}.

(** [new RegExp(pattern, 'g')] for a [pattern] that is not a [RegExp]:
    [undefined] stands for the empty pattern, anything else is converted to
    a string. *)
Definition RegExp_of (pattern : prim) : completion RegExp :=
  source ← match pattern with
           | PUndefined => Return EmptyString
           | _ => prim_ToString pattern
           end;
  RegExp_new source "g".

(** The initialiser of [regex]. The first component is the cell of the
    object when it is the caller's. *)
Definition regex_of (ρ : regexps) (pattern : pattern_value)
  : res (option loc * RegExp) :=
  match pattern with
  | PatRegExp l =>
    match ρ !! l with
    | Some r => Ok (Some l, r)
    | None => Dangling
    end
  | PatPrim (PStr s) =>
    if String.prefix "/" s && literal_tail s
    then r ← lift (RegExp_new (slice s 1 (lastIndexOf slash s))
                              (slice_from s (lastIndexOf slash s + 1)));
         Ok (None, r)
    else r ← lift (RegExp_new s "g"); Ok (None, r)
  | PatPrim p => r ← lift (RegExp_of p); Ok (None, r)
  end.

(** [regex.global ? regex : new RegExp(regex.source, `${regex.flags}g`)]:
    the copy is a new object with the same pattern and the same other
    flags, so the same matcher, and it starts at index [0]. *)
Definition globalRegEx (origin : option loc) (regex : RegExp)
  : option loc * RegExp :=
  if global regex then (origin, regex)
  else (None, {| regexp_matcher := regexp_matcher regex; global := true;
                 sticky := sticky regex; lastIndex := 0 |}).

(** The [while] loop: [exec] is evaluated before the count is compared, so
    it runs once more than matches are kept. *)
Fixpoint collect (fuel : nat) (stringContent : prim) (patternName : string)
    (maxMatches : Z) (r : RegExp) (matches : list found) (count : Z)
  : RegExp * res (list found) :=
  match fuel with
  | 0 => (r, OutOfFuel)
  | S fuel =>
    match exec r stringContent with
    | Raise e => (r, Throw e)
    | Return (r, None) => (r, Ok matches)
    | Return (r, Some m) =>
      if (count <? maxMatches)%Z
      then collect fuel stringContent patternName maxMatches r
             (matches ++ [{| found_index := hit_index m;
                             found_value := hit_text m;
                             found_pattern := patternName |}])
             (count + 1)%Z
      else (r, Ok matches)
    end
  end.

(** The object searched goes back to its cell when it is the caller's. *)
Definition put_back (origin : option loc) (r : RegExp) (ρ : regexps)
  : regexps :=
  match origin with
  | Some l => <[l := r]> ρ
  | None => ρ
  end.

(** One turn of the [for ... of] loop. Its [while] ends within
    [maxMatches + 1] iterations ([collect_ends]). *)
Definition search_one (stringContent : prim) (maxMatches : Z)
    (patternName : string) (pattern : pattern_value)
    (ρ : regexps) (results : list (string * tree))
  : regexps * res (list (string * tree)) :=
  match regex_of ρ pattern with
  | Ok (origin, regex) =>
    let '(origin, r) := globalRegEx origin regex in
    let '(r, matches) :=
      collect (S (Z.to_nat maxMatches)) stringContent patternName
        maxMatches r [] 0 in
    (put_back origin r ρ,
     matches ← matches; Ok (assign patternName (matches_tree matches) results))
  | Throw e => (ρ, Throw e)
  | Dangling => (ρ, Dangling)
  | OutOfFuel => (ρ, OutOfFuel)
  end.

Fixpoint search_all (stringContent : prim) (maxMatches : Z)
    (patterns : list (string * pattern_value))
    (ρ : regexps) (results : list (string * tree))
  : regexps * res (list (string * tree)) :=
  match patterns with
  | [] => (ρ, Ok results)
  | (patternName, pattern) :: patterns =>
    match search_one stringContent maxMatches patternName pattern ρ results with
    | (ρ, Ok results) => search_all stringContent maxMatches patterns ρ results
    | failed => failed
    end
  end.

(** [typeof content === 'string' ? content : safeStringify(content)], with
    the lines that [safeStringify] logs. *)
Definition stringContent (h : heap) (content : value)
  : list string * res prim :=
  match content with
  | VPrim (PStr s) => ([], Ok (PStr s))
  | _ => safeStringify h content
  end.

(** [quickFind(content, patterns, options, callback)]. [patterns] is the
    list that [Object.entries] returns, [options] is the [maxMatches]
    property of the options, an integer, when they have one, and
    [startTime] and [endTime] are the two readings of the clock. *)
Definition quickFind (h : heap) (ρ : regexps) (startTime endTime : Z)
    (content : value) (patterns : list (string * pattern_value))
    (options : option Z) (callback : option callback_fn) : search :=
  if negb (value_truthy content)
  then {| final_regexps := ρ; events := [];
          returned := Throw (JsError "Error" "Content is required") |}
  else
    let maxMatches := default 1000%Z options in
    match stringContent h content with
    | (warnings, Ok text) =>
      match search_all text maxMatches patterns ρ [] with
      | (ρ, Ok results) =>
        let '(log, done) :=
          invoke callback [AValue (TPrim PNull); AValue (TObject results)] in
        {| final_regexps := ρ; events := (Warn <$> warnings) ++ log;
           returned :=
             lift (done ≫= λ _,
                   JSON_text
                     (report_tree results
                        (stats_tree (endTime - startTime) (length patterns)))) |}
      | (ρ, Throw e) =>
        {| final_regexps := ρ; events := Warn <$> warnings; returned := Throw e |}
      | (ρ, Dangling) =>
        {| final_regexps := ρ; events := Warn <$> warnings; returned := Dangling |}
      | (ρ, OutOfFuel) =>
        {| final_regexps := ρ; events := Warn <$> warnings; returned := OutOfFuel |}
      end
    | (warnings, Throw e) =>
      {| final_regexps := ρ; events := Warn <$> warnings; returned := Throw e |}
    | (warnings, Dangling) =>
      {| final_regexps := ρ; events := Warn <$> warnings; returned := Dangling |}
    | (warnings, OutOfFuel) =>
      {| final_regexps := ρ; events := Warn <$> warnings; returned := OutOfFuel |}
    end.
End QuickFind.

(** An engine for patterns without special characters: such a pattern
    matches its own text, whatever the flags. *)
Definition literal_matcher (pattern : string) : matcher := λ s i,
  if String.prefix pattern (String.substring i (String.length s - i) s)
  then Some (String.length pattern) else None.

Definition literal_engine : string → string → completion matcher :=
  λ pattern _, Return (literal_matcher pattern).

(** ** Vocabulary for the search *)

(** The matches of a search that stands at index [i] of [s]: each one
    begins at the first index, from the end of the one before it, at which
    the matcher succeeds, and carries the text found there. *)
Fixpoint leftmost_from (m : matcher) (s name : string) (i : nat)
    (matches : list found) : Prop :=
  match matches with
  | [] => True
  | f :: matches =>
    ∃ len,
      i ≤ found_index f ∧
      (∀ k, i ≤ k < found_index f → m s k = None) ∧
      m s (found_index f) = Some len ∧
      found_value f = String.substring (found_index f) len s ∧
      found_pattern f = name ∧
      leftmost_from m s name (found_index f + len) matches
  end.

(** The index at which the search stands after these matches. *)
Fixpoint end_of (m : matcher) (s : string) (i : nat) (matches : list found)
  : nat :=
  match matches with
  | [] => i
  | f :: matches =>
    end_of m s (found_index f + default 0 (m s (found_index f))) matches
  end.

(** Every [RegExp] object named in [patterns] is in the store. *)
Definition patterns_closed (ρ : regexps)
    (patterns : list (string * pattern_value)) : Prop :=
  Forall (λ '(_, pattern),
            match pattern with
            | PatRegExp l => l < length ρ
            | PatPrim _ => True
            end) patterns.

#[global] Instance patterns_closed_dec ρ patterns
  : Decision (patterns_closed ρ patterns).
Proof.
  unfold patterns_closed. apply Forall_dec. intros [? []]; apply _.
Defined.

(** The values that [!content] rejects. *)
Definition falsy_values : list value :=
  [ VPrim PUndefined; VPrim PNull; VPrim (PBool false); VPrim (PNum 0);
    VPrim (PBigInt 0); VPrim (PStr EmptyString) ].

(** The JSON text of an element of a [matches] array. *)
Definition found_text (m : found) : string :=
  object_text
    [ member_text "index" (Number_toString (Z.of_nat (found_index m)));
      member_text "value" (QuoteJSONString (found_value m));
      member_text "pattern" (QuoteJSONString (found_pattern m)) ].

(** What a member of [results] is: [null], or the array of the matches of
    its pattern, which are no more than the limit. *)
Definition entry_of (maxMatches : Z) (name : string) (t : tree) : Prop :=
  ∃ matches, t = matches_tree matches ∧
             length matches ≤ Z.to_nat maxMatches ∧
             Forall (λ f, found_pattern f = name) matches.

(** The JSON text of the report, from the texts of the members of
    [results]. *)
Definition report_text (members : list string) (executionTime : Z)
    (patternsProcessed : nat) : string :=
  object_text
    [ member_text "results" (object_text members);
      member_text "stats"
        (object_text
           [ member_text "executionTime" (Number_toString executionTime);
             member_text "patternsProcessed"
               (Number_toString (Z.of_nat patternsProcessed)) ]) ].

(** * Invariants and postconditions used in the proofs *)

(** What a traversal step may do: return with a larger visited set, or
    throw the serializer's error for a [BigInt]. *)
Definition ser_post {A} (seen : gset loc) (r : res (A * gset loc)) : Prop :=
  match r with
  | Ok (_, seen') => seen ⊆ seen'
  | Throw e => e = bigint_error
  | _ => False
  end.

(** [String(value)] ends; it can only throw on a symbol inside an array. *)
Definition str_post (r : res string) : Prop :=
  match r with
  | Ok _ => True
  | Throw e => e = symbol_error
  | _ => False
  end.

(** The result of the standard encoder, with the visited set the traversal
    leaves. *)
Definition with_seen {A} (fp seen : gset loc) (c : completion A)
  : res (A * gset loc) :=
  (λ a, (a, fp ∪ seen)) <$> lift c.

(** Own properties refer to distinct arrays, all created after the first
    [base] cells of the store. *)
Definition table_ok (base : nat) (merged : object) (σ : store) : Prop :=
  (∀ k r, assoc k merged = Some r → base ≤ r < length σ) ∧
  (∀ k k' r, assoc k merged = Some r → assoc k' merged = Some r → k = k').


(** ** Entries of the caller's table that contribute rules *)

(** The entries that are arrays or functions. *)
Definition effective (parsers : list (string * entry)) : list (string * entry) :=
  filter (λ p, is_Some (items p.2)) parsers.

(** * Example values *)

(** The heap of [[Symbol("s"), 1n]]. *)
Definition symbol_heap : heap := [OArray [VPrim (PSymbol "s"); VPrim (PBigInt 1)]].

(** The heap of [const v = {}; v.self = v]. *)
Definition self_heap : heap := [OObject [("self", VRef 0)]].

Definition self_text : string :=
  object_text [member_text "self" (QuoteJSONString circular_placeholder)].

(** The heap of [const s = {}; const v = {a: s}; v.self = v; v.b = s], with
    the properties of [v] in the order [self], [a], [b]. *)
Definition shared_heap : heap :=
  [ OObject [("self", VRef 0); ("a", VRef 1); ("b", VRef 1)];
    OObject [] ].

Definition shared_text : string :=
  object_text
    [ member_text "self" (QuoteJSONString circular_placeholder);
      member_text "a" (object_text []);
      member_text "b" (QuoteJSONString circular_placeholder) ].

(** The heap of [{a: undefined}] and the tree it unfolds to. *)
Definition absent_heap : heap := [OObject [("a", VPrim PUndefined)]].
Definition absent_tree : tree := TObject [("a", TPrim PUndefined)].

(** The heap of [{x: {k: 1}, y: {k: 1}, d: date, r: /a/g, f: () => 1,
    u: undefined}], with two distinct objects of equal content. *)
Definition twins_heap : heap :=
  [ OObject [("x", VRef 1); ("y", VRef 2); ("d", VRef 3); ("r", VRef 4);
             ("f", VRef 5); ("u", VPrim PUndefined)];
    OObject [("k", VPrim (PNum 1))];
    OObject [("k", VPrim (PNum 1))];
    ODate (ValidDate "2020-01-01T00:00:00.000Z" "Wed Jan 01 2020");
    ORegExp "/a/g";
    OFunction "() => 1" ].

Definition twins_tree : tree :=
  TObject [ ("x", TObject [("k", TPrim (PNum 1))]);
            ("y", TObject [("k", TPrim (PNum 1))]);
            ("d", TDate (ValidDate "2020-01-01T00:00:00.000Z" "Wed Jan 01 2020"));
            ("r", TRegExp "/a/g");
            ("f", TFunction "() => 1");
            ("u", TPrim PUndefined) ].

(** The objects the replacer records on [twins_heap]: the root, the twins
    and the compiled pattern. *)
Definition twins_footprint : gset loc :=
  {[0]} ∪ (({[1]} ∪ (∅ ∪ ∅)) ∪ (({[2]} ∪ (∅ ∪ ∅))
            ∪ (∅ ∪ ({[4]} ∪ (∅ ∪ (∅ ∪ ∅)))))).

Definition twins_text : string :=
  object_text
    [ member_text "x" (object_text [member_text "k" "1"]);
      member_text "y" (object_text [member_text "k" "1"]);
      member_text "d" (QuoteJSONString "2020-01-01T00:00:00.000Z");
      member_text "r" (QuoteJSONString "/a/g");
      member_text "f" (QuoteJSONString "() => 1") ].

Definition text_payload (s : string) : Response :=
  {| type := Some "text"; body := TPrim (PStr s) |}.

Definition json_payload (s : string) : Response :=
  {| type := Some "json"; body := TPrim (PStr s) |}.

(** The rule [{rule: () => true, parse: content => content.toUpperCase()}]. *)
Definition shout : ruleObj := {| rule := always; parse := Single uppercase |}.

(** The own properties of [mergedParsers] in a call on the empty store. *)
Definition first_table : object := [("json", 0); ("html", 1); ("text", 2)].

(** A rule whose transform throws [null]. *)
Definition rude : ruleObj :=
  {| rule := always; parse := Single (λ _, Raise ThrownNullish) |}.

(** A callback that throws. *)
Definition throwing : callback_fn := λ _, Raise (JsError "Error" "callback failed").

(** A callback that returns. *)
Definition quiet : callback_fn := λ _, Return (TPrim PUndefined).

(** A rule that throws an error object. *)
Definition failing_rule : ruleObj :=
  {| rule := always; parse := Single (λ _, Raise (JsError "Error" "boom")) |}.

(** The text [{"a":1}] and the value it denotes. *)
Definition a1_text : string := "{" +:+ dquote +:+ "a" +:+ dquote +:+ ":1}".
Definition a1_tree : tree := TObject [("a", TPrim (PNum 1))].


(** The object [/an/g], as new. *)
Definition an_regexp : RegExp :=
  {| regexp_matcher := literal_matcher "an"; global := true;
     sticky := false; lastIndex := 0 |}.

(** The object [new RegExp('', 'g')]. *)
Definition empty_regexp : RegExp :=
  {| regexp_matcher := literal_matcher EmptyString; global := true;
     sticky := false; lastIndex := 0 |}.

(** The two places of [an] in [banana], under the name [p]. *)
Definition banana_matches : list found :=
  [ {| found_index := 1; found_value := "an"; found_pattern := "p" |};
    {| found_index := 3; found_value := "an"; found_pattern := "p" |} ].

Definition banana_patterns : list (string * pattern_value) :=
  [("p", PatPrim (PStr "an")); ("q", PatPrim (PStr "x"))].

Definition banana_results : list (string * tree) :=
  [("p", matches_tree banana_matches); ("q", TPrim PNull)].

(** The heap of [{a: 1}], the same object after [a] has become [2], and the
    text of the first. *)
Definition before_heap : heap := [OObject [("a", VPrim (PNum 1))]].
Definition after_heap : heap := [OObject [("a", VPrim (PNum 2))]].
Definition before_text : string := object_text [member_text "a" "1"].
(** * Termination of the serializer *)

Lemma bounded_NoDup_length (n : nat) (ls : list loc) :
  NoDup ls → (∀ l, l ∈ ls → l < n) → length ls ≤ n.
Proof.
  intros Hnd Hlt.
  trans (length (seq 0 n)); [|by rewrite length_seq].
  apply submseteq_length, NoDup_submseteq; [done|].
  intros l Hl. apply elem_of_seq. specialize (Hlt l Hl). lia.
Qed.

Section SerializerTotal.
Variable h : heap.
Hypothesis Hclosed : heap_closed h.

Lemma lookup_closed l :
  l < length h →
  ∃ o, h !! l = Some o ∧ Forall (value_closed h) (children o).
Proof.
  intros Hl. destruct (lookup_lt_is_Some_2 h l Hl) as [o Ho].
  exists o. split; [done|].
  unfold heap_closed in Hclosed. rewrite Forall_forall in Hclosed.
  apply Hclosed. by eapply list_elem_of_lookup_2.
Qed.

(** After [toJSON] and the replacer, the only objects left are arrays and
    plain objects seen for the first time. *)
Lemma prepare_post seen v :
  value_closed h v →
  ∃ v' seen',
    mbind (replacer h seen) (toJSON h v) = Ok (v', seen') ∧ seen ⊆ seen' ∧
    match v' with
    | VPrim _ => True
    | VRef l =>
      (l ∉ seen) ∧ l ∈ seen' ∧
      ((∃ elems, h !! l = Some (OArray elems)) ∨
       (∃ props, h !! l = Some (OObject props)))
    end.
Proof.
  intros Hv. destruct v as [p|l].
  { exists (VPrim p), seen. done. }
  simpl in Hv. destruct (lookup_closed l Hv) as (o & Ho & _).
  unfold toJSON. rewrite Ho.
  destruct o as [d|text|src|elems|props];
    unfold mbind, res_bind, replacer; rewrite ?Ho; simpl.
  - exists (VPrim (Date_toJSON d)), seen. done.
  - case_bool_decide; eexists _, _; (split; [done|]); split; set_solver.
  - eexists _, _. done.
  - case_bool_decide; eexists _, _; (split; [done|]).
    + done.
    + split; [set_solver|]. split; [done|]. split; [set_solver|]. eauto.
  - case_bool_decide; eexists _, _; (split; [done|]).
    + done.
    + split; [set_solver|]. split; [done|]. split; [set_solver|]. eauto.
Qed.

Section MembersTotal.
Variable property : gset loc → value → res (option string * gset loc).
Variable P : gset loc → Prop.
Hypothesis P_mono : ∀ seen seen', P seen → seen ⊆ seen' → P seen'.

Lemma SerializeJSONArray_post elems :
  (∀ seen v, P seen → v ∈ elems → ser_post seen (property seen v)) →
  ∀ seen, P seen → ser_post seen (SerializeJSONArray property seen elems).
Proof.
  induction elems as [|e elems IH]; intros Hprop seen HP; simpl; [done|].
  pose proof (Hprop seen e HP ltac:(left)) as He.
  destruct (property seen e) as [[part seen1]| | |]; simpl in *; try done.
  assert (P seen1) as HP1 by eauto.
  specialize (IH (λ s v Hs Hin, Hprop s v Hs ltac:(by right)) seen1 HP1).
  destruct (SerializeJSONArray property seen1 elems) as [[parts seen2]| | |];
    simpl in *; try done.
  set_solver.
Qed.

Lemma SerializeJSONObject_post props :
  (∀ seen v, P seen → v ∈ props.*2 → ser_post seen (property seen v)) →
  ∀ seen, P seen → ser_post seen (SerializeJSONObject property seen props).
Proof.
  induction props as [|[key e] props IH]; intros Hprop seen HP; simpl; [done|].
  pose proof (Hprop seen e HP ltac:(left)) as He.
  destruct (property seen e) as [[part seen1]| | |]; simpl in *; try done.
  assert (P seen1) as HP1 by eauto.
  specialize (IH (λ s v Hs Hin, Hprop s v Hs ltac:(by right)) seen1 HP1).
  destruct (SerializeJSONObject property seen1 props) as [[parts seen2]| | |];
    simpl in *; try done.
  set_solver.
Qed.
End MembersTotal.

(** The traversal ends whenever the fuel covers the objects not yet on the
    stack; the serializer's own circular-structure error never fires,
    because the replacer has cut every edge to an object on the stack. *)
Lemma SerializeJSONProperty_post fuel : ∀ stack seen v,
  value_closed h v →
  NoDup stack →
  (∀ l, l ∈ stack → l < length h ∧ l ∈ seen) →
  length h < fuel + length stack →
  ser_post seen (SerializeJSONProperty h fuel stack seen v).
Proof.
  induction fuel as [|fuel IH]; intros stack seen v Hv Hnd Hstack Hfuel.
  { pose proof (bounded_NoDup_length (length h) stack Hnd
                  (λ l Hl, proj1 (Hstack l Hl))). simpl in Hfuel. lia. }
  cbn [SerializeJSONProperty].
  destruct (prepare_post seen v Hv) as (v' & seen' & Hprep & Hsub & Hv').
  destruct (toJSON h v) as [v1| | |]; simpl in Hprep; try done.
  simpl. rewrite Hprep. simpl.
  destruct v' as [p|l].
  { destruct p as [| |[]| | | |]; simpl; done. }
  destruct Hv' as (Hnew & Hin & Hobj).
  assert (l ∉ stack) as Hns by (intros Hl; apply Hnew, Hstack, Hl).
  assert (l < length h) as Hl.
  { destruct Hobj as [[? Ho]|[? Ho]]; by eapply lookup_lt_Some. }
  destruct (lookup_closed l Hl) as (o & Ho & Hkids).
  assert (∀ seen1 e, (∀ l', l' ∈ l :: stack → l' ∈ seen1) → e ∈ children o →
            ser_post seen1 (SerializeJSONProperty h fuel (l :: stack) seen1 e))
    as Hkid.
  { intros seen1 e Hs1 He. apply IH.
    - rewrite Forall_forall in Hkids. by apply Hkids.
    - by constructor.
    - intros l' Hl'. split; [|by apply Hs1].
      apply elem_of_cons in Hl' as [->|Hl']; [done|]. by apply Hstack.
    - simpl. lia. }
  assert (∀ l', l' ∈ l :: stack → l' ∈ seen') as Hs'.
  { intros l' Hl'. apply elem_of_cons in Hl' as [->|Hl']; [done|].
    apply Hsub, Hstack, Hl'. }
  rewrite Ho. rewrite bool_decide_eq_false_2 by done.
  destruct Hobj as [[elems Ho']|[props Ho']]; rewrite Ho' in Ho;
    injection Ho as <-; simpl in Hkid.
  - pose proof (SerializeJSONArray_post
      (SerializeJSONProperty h fuel (l :: stack))
      (λ s, ∀ l', l' ∈ l :: stack → l' ∈ s)
      (λ s s' Hs Hss l' Hl', Hss _ (Hs l' Hl')) elems Hkid seen' Hs') as Hpost.
    destruct (SerializeJSONArray _ seen' elems) as [[parts seen2]| | |];
      simpl in *; try done. by etrans.
  - pose proof (SerializeJSONObject_post
      (SerializeJSONProperty h fuel (l :: stack))
      (λ s, ∀ l', l' ∈ l :: stack → l' ∈ s)
      (λ s s' Hs Hss l' Hl', Hss _ (Hs l' Hl')) props Hkid seen' Hs') as Hpost.
    destruct (SerializeJSONObject _ seen' props) as [[parts seen2]| | |];
      simpl in *; try done. by etrans.
Qed.

(** Only [undefined] and symbols are left without a JSON text: the
    replacer has turned every callable into its source text. *)
Lemma SerializeJSONProperty_None fuel stack seen v seen' :
  SerializeJSONProperty h fuel stack seen v = Ok (None, seen') →
  v = VPrim PUndefined ∨ ∃ description, v = VPrim (PSymbol description).
Proof.
  destruct fuel as [|fuel]; [done|]. cbn [SerializeJSONProperty].
  destruct v as [p|l].
  { destruct p as [| |[]| | | |]; simpl; intros; simplify_eq; eauto. }
  unfold toJSON, replacer. destruct (h !! l) as [o|] eqn:Ho; [|done].
  destruct o as [[]|text|src|elems|props]; simpl; rewrite ?Ho; simpl;
    try done; case_bool_decide; simpl; rewrite ?Ho; try done;
    case_bool_decide; try done.
  - destruct (SerializeJSONArray _ _ _) as [[??]| | |]; done.
  - destruct (SerializeJSONObject _ _ _) as [[??]| | |]; done.
Qed.

Lemma join_parts_post (f : value → res string) elems :
  (∀ e, e ∈ elems → str_post (f e)) →
  match join_parts f elems with
  | Ok _ => True
  | Throw e => e = symbol_error
  | _ => False
  end.
Proof.
  induction elems as [|e elems IH]; intros Hf; simpl; [done|].
  specialize (IH (λ e' He', Hf e' ltac:(by right))).
  pose proof (Hf e ltac:(left)) as He.
  assert (str_post (match e with
                    | VPrim PUndefined | VPrim PNull => Ok EmptyString
                    | _ => f e
                    end)) as He'.
  { destruct e as [[]|]; done. }
  destruct (match e with VPrim PUndefined | VPrim PNull => _ | _ => _ end);
    simpl in *; try done.
  destruct (join_parts f elems); done.
Qed.

Lemma ToString_post fuel : ∀ joining v,
  value_closed h v →
  NoDup joining →
  (∀ l, l ∈ joining → l < length h) →
  length h < fuel + length joining →
  str_post (ToString h fuel joining v).
Proof.
  induction fuel as [|fuel IH]; intros joining v Hv Hnd Hjoin Hfuel.
  { pose proof (bounded_NoDup_length (length h) joining Hnd Hjoin).
    simpl in Hfuel. lia. }
  cbn [ToString]. destruct v as [p|l].
  { destruct p as [| |[]| | | |]; done. }
  simpl in Hv. destruct (lookup_closed l Hv) as (o & Ho & Hkids).
  rewrite Ho. destruct o as [d|text|src|elems|props]; try done.
  case_bool_decide as Hin; [done|].
  pose proof (join_parts_post (ToString h fuel (l :: joining)) elems) as Hj.
  destruct (join_parts _ elems); simpl in *; try done; apply Hj;
    intros e' He; (apply IH;
      [ rewrite Forall_forall in Hkids; by apply Hkids
      | by constructor
      | intros l' [->|Hl']%elem_of_cons; [done|by apply Hjoin]
      | simpl; lia ]).
Qed.

Lemma JsString_post v : value_closed h v → str_post (JsString h v).
Proof.
  intros Hv. destruct v as [p|l]; [destruct p|]; try done;
    apply ToString_post; try done; try apply NoDup_nil_2;
    try (intros ? []%elem_of_nil); simpl; lia.
Qed.

Lemma JSON_stringify_post v :
  value_closed h v →
  match JSON_stringify h v with
  | Ok (PStr _) => True
  | Ok PUndefined =>
    v = VPrim PUndefined ∨ ∃ description, v = VPrim (PSymbol description)
  | Throw e => e = bigint_error
  | _ => False
  end.
Proof.
  intros Hv. unfold JSON_stringify.
  pose proof (SerializeJSONProperty_post (S (length h)) [] ∅ v Hv
                NoDup_nil_2) as Hpost.
  pose proof (SerializeJSONProperty_None (S (length h)) [] ∅ v) as Hnone.
  destruct (SerializeJSONProperty h (S (length h)) [] ∅ v)
    as [[[s|] seen']| | |]; simpl in *; try done.
  - by eapply Hnone.
  - apply Hpost; [intros ? []%elem_of_nil | lia].
  - apply Hpost; [intros ? []%elem_of_nil | lia].
  - apply Hpost; [intros ? []%elem_of_nil | lia].
Qed.
End SerializerTotal.

(** [safeStringify] is total on every well-formed heap: it returns a string,
    except that it returns [undefined] for a symbol and lets the [TypeError]
    of its own fallback coercion escape when that meets a symbol. *)
Theorem safeStringify_total (h : heap) (v : value) :
  heap_closed h → value_closed h v →
  ∃ log r, safeStringify h v = (log, r) ∧
    match r with
    | Ok (PStr _) => True
    | Ok PUndefined => ∃ description, v = VPrim (PSymbol description)
    | Throw e => e = symbol_error
    | _ => False
    end.
Proof.
  intros Hh Hv. unfold safeStringify.
  assert (match safeStringify_try h v with
          | Ok (PStr _) => True
          | Ok PUndefined => ∃ description, v = VPrim (PSymbol description)
          | Throw e => e = bigint_error ∨ e = RangeError "Invalid time value"
          | _ => False
          end) as Htry.
  { pose proof (JSON_stringify_post h Hh v Hv) as Hj.
    unfold safeStringify_try. destruct v as [p|l].
    - destruct p; try done;
        destruct (JSON_stringify h _) as [[]| | |]; try done; eauto;
        destruct Hj as [|[]]; try done; eauto.
    - simpl in Hv. destruct (lookup_closed h Hh l Hv) as (o & Ho & _).
      rewrite Ho. destruct o as [[]|text|src|elems|props]; simpl; eauto;
        destruct (JSON_stringify h _) as [[]| | |]; try done; eauto;
        destruct Hj as [|[]]; done. }
  pose proof (JsString_post h Hh v Hv) as Hstr.
  destruct (safeStringify_try h v) as [[]|e| |]; try done; eauto.
  destruct Htry as [->| ->]; simpl;
    (eexists _, _; split; [done|]);
    destruct (JsString h v); done.
Qed.

(** * The serializer on values that are trees *)

Lemma size_bounded (n : nat) (fp : gset loc) :
  (∀ l, l ∈ fp → l < n) → size fp ≤ n.
Proof.
  intros Hlt.
  trans (size (list_to_set (C := gset loc) (seq 0 n))).
  - apply subseteq_size. intros l Hl. apply elem_of_list_to_set, elem_of_seq.
    specialize (Hlt l Hl). lia.
  - rewrite size_list_to_set by apply NoDup_seq. by rewrite length_seq.
Qed.

Section SerializerTree.
Variable h : heap.

Lemma tree_at_footprint :
  (∀ v t fp, tree_at h v t fp → ∀ l, l ∈ fp → l < length h) ∧
  (∀ vs ts fp, elements_at h vs ts fp → ∀ l, l ∈ fp → l < length h) ∧
  (∀ ps ts fp, members_at h ps ts fp → ∀ l, l ∈ fp → l < length h).
Proof.
  apply tree_at_mutind.
  - intros p l []%elem_of_empty.
  - intros l d _ l' []%elem_of_empty.
  - intros l text Hl l' ->%elem_of_singleton. by eapply lookup_lt_Some.
  - intros l src _ l' []%elem_of_empty.
  - intros l elems ts fp Hl _ IH _ l' [->%elem_of_singleton|?]%elem_of_union;
      [by eapply lookup_lt_Some|eauto].
  - intros l props ts fp Hl _ IH _ l' [->%elem_of_singleton|?]%elem_of_union;
      [by eapply lookup_lt_Some|eauto].
  - intros l []%elem_of_empty.
  - intros v t fp vs ts fps _ IHv _ IHvs _ l [?|?]%elem_of_union; eauto.
  - intros l []%elem_of_empty.
  - intros key v t fp ps ts fps _ IHv _ IHps _ l [?|?]%elem_of_union; eauto.
Qed.

(** On a tree the visited set never matches: the traversal equals the
    standard encoder applied after the substitutions, and records exactly
    the footprint. *)
Lemma SerializeJSONProperty_tree :
  (∀ v t fp, tree_at h v t fp →
     ∀ fuel stack seen,
       size fp < fuel → fp ## seen → (∀ l, l ∈ stack → l ∈ seen) →
       SerializeJSONProperty h fuel stack seen v
       = with_seen fp seen (json_property (substitute t))) ∧
  (∀ vs ts fp, elements_at h vs ts fp →
     ∀ fuel stack seen,
       size fp < fuel → fp ## seen → (∀ l, l ∈ stack → l ∈ seen) →
       SerializeJSONArray (SerializeJSONProperty h fuel stack) seen vs
       = with_seen fp seen (tree_elements json_property (map substitute ts))) ∧
  (∀ ps ts fp, members_at h ps ts fp →
     ∀ fuel stack seen,
       size fp < fuel → fp ## seen → (∀ l, l ∈ stack → l ∈ seen) →
       SerializeJSONObject (SerializeJSONProperty h fuel stack) seen ps
       = with_seen fp seen
           (tree_members json_property (map (prod_map id substitute) ts))).
Proof.
  apply tree_at_mutind.
  - (* primitive *)
    intros p [|fuel] stack seen Hfuel Hdisj Hstack; [lia|].
    cbn [SerializeJSONProperty]. unfold with_seen. simpl.
    rewrite (left_id_L ∅ (∪)). by destruct (prim_json p).
  - (* date *)
    intros l d Hl [|fuel] stack seen Hfuel Hdisj Hstack; [lia|].
    cbn [SerializeJSONProperty]. unfold toJSON, with_seen. rewrite Hl. simpl.
    rewrite (left_id_L ∅ (∪)). by destruct (prim_json (Date_toJSON d)).
  - (* compiled pattern *)
    intros l text Hl [|fuel] stack seen Hfuel Hdisj Hstack; [lia|].
    cbn [SerializeJSONProperty]. unfold toJSON, replacer, with_seen.
    rewrite Hl. simpl. rewrite Hl. simpl.
    rewrite bool_decide_eq_false_2 by set_solver. done.
  - (* callable *)
    intros l src Hl [|fuel] stack seen Hfuel Hdisj Hstack; [lia|].
    cbn [SerializeJSONProperty]. unfold toJSON, replacer, with_seen.
    rewrite Hl. simpl. rewrite Hl. simpl.
    by rewrite (left_id_L ∅ (∪)).
  - (* array *)
    intros l elems ts fp Hl _ IH Hfresh [|fuel] stack seen Hfuel Hdisj Hstack;
      [lia|].
    cbn [SerializeJSONProperty]. unfold toJSON, replacer.
    rewrite Hl. simpl. rewrite Hl. simpl.
    rewrite bool_decide_eq_false_2 by set_solver. simpl. rewrite Hl.
    rewrite bool_decide_eq_false_2 by (intros ?%Hstack; set_solver).
    rewrite size_union, size_singleton in Hfuel by set_solver.
    rewrite (IH fuel (l :: stack) ({[l]} ∪ seen)); [|lia|set_solver|].
    + unfold with_seen.
      destruct (tree_elements json_property (map substitute ts)); simpl; try done.
      do 2 f_equal. set_solver.
    + intros l' [->|?]%elem_of_cons; set_solver.
  - (* plain object *)
    intros l props ts fp Hl _ IH Hfresh [|fuel] stack seen Hfuel Hdisj Hstack;
      [lia|].
    cbn [SerializeJSONProperty]. unfold toJSON, replacer.
    rewrite Hl. simpl. rewrite Hl. simpl.
    rewrite bool_decide_eq_false_2 by set_solver. simpl. rewrite Hl.
    rewrite bool_decide_eq_false_2 by (intros ?%Hstack; set_solver).
    rewrite size_union, size_singleton in Hfuel by set_solver.
    rewrite (IH fuel (l :: stack) ({[l]} ∪ seen)); [|lia|set_solver|].
    + unfold with_seen.
      destruct (tree_members json_property _); simpl; try done.
      do 2 f_equal. set_solver.
    + intros l' [->|?]%elem_of_cons; set_solver.
  - (* no element *)
    intros fuel stack seen _ _ _. unfold with_seen. simpl.
    by rewrite (left_id_L ∅ (∪)).
  - (* one more element *)
    intros v t fp vs ts fps _ IHv _ IHvs Hsep fuel stack seen Hfuel Hdisj Hstack.
    assert (size fp ≤ size (fp ∪ fps)) by (apply subseteq_size; set_solver).
    assert (size fps ≤ size (fp ∪ fps)) by (apply subseteq_size; set_solver).
    cbn [SerializeJSONArray map tree_elements].
    rewrite IHv; [|lia|set_solver|done]. unfold with_seen at 1.
    destruct (json_property (substitute t)) as [part|]; simpl; try done.
    rewrite IHvs; [|lia|set_solver|set_solver]. unfold with_seen.
    destruct (tree_elements json_property (map substitute ts)); simpl; try done.
    do 2 f_equal. set_solver.
  - (* no member *)
    intros fuel stack seen _ _ _. unfold with_seen. simpl.
    by rewrite (left_id_L ∅ (∪)).
  - (* one more member *)
    intros key v t fp ps ts fps _ IHv _ IHps Hsep fuel stack seen Hfuel Hdisj Hstack.
    assert (size fp ≤ size (fp ∪ fps)) by (apply subseteq_size; set_solver).
    assert (size fps ≤ size (fp ∪ fps)) by (apply subseteq_size; set_solver).
    cbn [SerializeJSONObject map tree_members prod_map fst snd id].
    rewrite IHv; [|lia|set_solver|done]. unfold with_seen at 1.
    destruct (json_property (substitute t)) as [part|]; simpl; try done.
    rewrite IHps; [|lia|set_solver|set_solver]. unfold with_seen.
    destruct (tree_members json_property _); simpl; try done.
    do 2 f_equal. set_solver.
Qed.

Lemma JSON_stringify_tree v t fp :
  tree_at h v t fp →
  JSON_stringify h v
  = lift (part ← json_property (substitute t);
          Return (from_option PStr PUndefined part)).
Proof.
  intros Hv. unfold JSON_stringify.
  destruct SerializeJSONProperty_tree as (Hser & _ & _).
  rewrite (Hser v t fp Hv).
  - unfold with_seen. by destruct (json_property (substitute t)).
  - apply Nat.lt_succ_r, size_bounded.
    destruct tree_at_footprint as (Hfp & _ & _). by apply (Hfp v t fp).
  - set_solver.
  - intros l []%elem_of_nil.
Qed.

(** The fallback coercion reads a tree the same way from the heap. *)
Lemma ToString_tree :
  (∀ v t fp, tree_at h v t fp →
     ∀ fuel joining,
       size fp < fuel → (∀ l, l ∈ joining → l ∉ fp) →
       ToString h fuel joining v = lift (tree_ToString t)) ∧
  (∀ vs ts fp, elements_at h vs ts fp →
     ∀ fuel joining,
       size fp < fuel → (∀ l, l ∈ joining → l ∉ fp) →
       join_parts (ToString h fuel joining) vs
       = lift (tree_join_parts tree_ToString ts)) ∧
  (∀ ps ts fp, members_at h ps ts fp → True).
Proof.
  apply tree_at_mutind; try done.
  - intros p [|fuel] joining Hfuel Hj; [lia|done].
  - intros l d Hl [|fuel] joining Hfuel Hj; [lia|]. simpl. by rewrite Hl.
  - intros l text Hl [|fuel] joining Hfuel Hj; [lia|]. simpl. by rewrite Hl.
  - intros l src Hl [|fuel] joining Hfuel Hj; [lia|]. simpl. by rewrite Hl.
  - intros l elems ts fp Hl _ IH Hfresh [|fuel] joining Hfuel Hj; [lia|].
    cbn [ToString tree_ToString]. rewrite Hl.
    rewrite bool_decide_eq_false_2 by (intros ?%Hj; set_solver).
    rewrite size_union, size_singleton in Hfuel by set_solver.
    rewrite IH; [by destruct (tree_join_parts tree_ToString ts)|lia|].
    intros l' [->|?%Hj]%elem_of_cons; set_solver.
  - intros l props ts fp Hl _ _ Hfresh [|fuel] joining Hfuel Hj; [lia|].
    simpl. by rewrite Hl.
  - intros v t fp vs ts fps Hv IHv _ IHvs Hsep fuel joining Hfuel Hj.
    assert (size fp ≤ size (fp ∪ fps)) by (apply subseteq_size; set_solver).
    assert (size fps ≤ size (fp ∪ fps)) by (apply subseteq_size; set_solver).
    cbn [join_parts tree_join_parts].
    rewrite IHvs; [|lia|intros l ?%Hj; set_solver].
    specialize (IHv fuel joining ltac:(lia) ltac:(intros l ?%Hj; set_solver)).
    assert (match v with
            | VPrim PUndefined | VPrim PNull => Ok EmptyString
            | _ => ToString h fuel joining v
            end
            = lift match t with
                   | TPrim PUndefined | TPrim PNull => Return EmptyString
                   | _ => tree_ToString t
                   end) as ->.
    { revert IHv. by destruct Hv as [[]| | | | |]. }
    destruct (match t with TPrim PUndefined | TPrim PNull => _ | _ => _ end);
      simpl; [|done].
    by destruct (tree_join_parts tree_ToString ts).
Qed.

Lemma JsString_tree v t fp :
  tree_at h v t fp → JsString h v = lift (tree_String t).
Proof.
  intros Hv. destruct ToString_tree as (Hstr & _ & _).
  assert (ToString h (S (length h)) [] v = lift (tree_ToString t)) as Heq.
  { eapply Hstr; [done| |intros l []%elem_of_nil].
    apply Nat.lt_succ_r, size_bounded.
    destruct tree_at_footprint as (Hfp & _ & _). by apply (Hfp v t fp). }
  unfold JsString, tree_String. rewrite Heq. by destruct Hv as [[]| | | | |].
Qed.

End SerializerTree.

(** * The rule table of [parseContent] *)

Section Merge.
Variable JSON_parse_text : string → parse_result.

Lemma assoc_app_None {V} (key : string) (props : list (string * V)) (v : V) :
  assoc key props = None → assoc key (props ++ [(key, v)]) = Some v.
Proof.
  induction props as [|[k w] props IH]; simpl.
  - by rewrite decide_True.
  - case_decide; [done|]. apply IH.
Qed.

Lemma assoc_app_ne {V} (key key' : string) (props : list (string * V)) (v : V) :
  key ≠ key' → assoc key' (props ++ [(key, v)]) = assoc key' props.
Proof.
  intros Hne. induction props as [|[k w] props IH]; simpl.
  - by rewrite decide_False.
  - by case_decide.
Qed.

Lemma Get_own merged key r :
  assoc key merged = Some r → Get merged key = SArray r.
Proof. unfold Get. by intros ->. Qed.

Lemma Get_SArray merged key r :
  Get merged key = SArray r → assoc key merged = Some r.
Proof.
  unfold Get. destruct (assoc key merged); [congruence|].
  by destruct (assoc key Object_prototype).
Qed.

Lemma Get_SUndefined merged key :
  Get merged key = SUndefined →
  assoc key merged = None ∧ ¬ inherited_name key.
Proof.
  unfold Get, inherited_name. destruct (assoc key merged); [done|].
  destruct (assoc key Object_prototype); [done|].
  intros _. split; [done|]. by intros [? ?].
Qed.

Lemma Get_SInherited merged key i :
  Get merged key = SInherited i → inherited_name key.
Proof.
  unfold Get, inherited_name. destruct (assoc key merged); [done|].
  destruct (assoc key Object_prototype); [eauto|done].
Qed.

Lemma table_ok_alloc base merged σ key :
  table_ok base merged σ → base ≤ length σ →
  assoc key merged = None →
  table_ok base (merged ++ [(key, length σ)]) (σ ++ [[]]).
Proof.
  intros [Hrange Hinj] Hbase Hnone.
  assert (∀ k r, assoc k (merged ++ [(key, length σ)]) = Some r →
            (k = key ∧ r = length σ) ∨ (k ≠ key ∧ assoc k merged = Some r))
    as Hcases.
  { intros k r Hk. destruct (decide (k = key)) as [->|Hne].
    - rewrite assoc_app_None in Hk by done. left. by simplify_eq.
    - rewrite assoc_app_ne in Hk by done. by right. }
  split.
  - intros k r [[-> ->]|[_ Hk]]%Hcases; rewrite length_app; simpl; [lia|].
    apply Hrange in Hk. lia.
  - intros k k' r [[-> ->]|[? Hk]]%Hcases [[-> Hr]|[? Hk']]%Hcases; try done.
    + apply Hrange in Hk'. lia.
    + apply Hrange in Hk. lia.
    + eauto.
Qed.

Lemma typeRules_alloc base merged σ key :
  table_ok base merged σ → Get merged key = SUndefined →
  ∀ k, typeRules (merged ++ [(key, length σ)]) (σ ++ [[]]) k
       = typeRules merged σ k.
Proof.
  intros [Hrange _] [Hnone Hni]%Get_SUndefined k. unfold typeRules, Get.
  destruct (decide (key = k)) as [<-|Hne].
  - rewrite assoc_app_None, Hnone by done.
    rewrite lookup_app_r, Nat.sub_diag by done.
    destruct (assoc key Object_prototype) eqn:Hp; [|done].
    destruct Hni. by eexists.
  - rewrite assoc_app_ne by done.
    destruct (assoc k merged) as [r|] eqn:Hr;
      [|by destruct (assoc k Object_prototype)].
    rewrite lookup_app_l; [done|]. apply Hrange in Hr. lia.
Qed.

Lemma typeRules_unshift base merged σ key r rules :
  table_ok base merged σ → assoc key merged = Some r →
  ∀ k, typeRules merged (unshift r rules σ) k
       = if decide (k = key) then RArray (rules ++ default [] (σ !! r))
         else typeRules merged σ k.
Proof.
  intros [Hrange Hinj] Hr k. unfold typeRules, Get, unshift.
  case_decide as Hk.
  - subst k. rewrite Hr, list_lookup_alter_eq.
    destruct (lookup_lt_is_Some_2 σ r) as [old ->]; [|done].
    apply Hrange in Hr. lia.
  - destruct (assoc k merged) as [r'|] eqn:Hr';
      [|by destruct (assoc k Object_prototype)].
    rewrite list_lookup_alter_ne; [done|]. intros ->. apply Hk. eauto.
Qed.

Lemma table_ok_unshift base merged σ r rules :
  table_ok base merged σ → table_ok base merged (unshift r rules σ).
Proof.
  intros [Hrange Hinj]. split; [|done].
  intros k r' Hk. unfold unshift. rewrite length_alter. eauto.
Qed.

Lemma take_unshift base σ r rules :
  base ≤ r → take base (unshift r rules σ) = take base σ.
Proof.
  intros Hr. apply list_eq. intros i. rewrite !lookup_take. unfold unshift.
  case_decide; [|done]. rewrite list_lookup_alter_ne; [done|lia].
Qed.

(** One entry of the caller's table, on the store and on the map: both
    throw the same error, or both go on with tables that agree; the cells
    below [base] are left alone. *)
Lemma merge_entry_view base key e merged σ (v : view) :
  table_ok base merged σ → base ≤ length σ →
  (∀ k, typeRules merged σ k = v k) →
  ∃ σ',
    take base σ' = take base σ ∧ base ≤ length σ' ∧
    ((∃ merged' v',
        merge_entry key e merged σ = (σ', Return merged') ∧
        entry_step key e v = Return v' ∧
        table_ok base merged' σ' ∧
        ∀ k, typeRules merged' σ' k = v' k) ∨
     (∃ err,
        merge_entry key e merged σ = (σ', Raise err) ∧
        entry_step key e v = Raise err)).
Proof.
  intros Hok Hbase Hv. unfold merge_entry, entry_step.
  pose proof (Hv key) as Hkey. unfold typeRules in Hkey.
  destruct (Get merged key) as [r|i|] eqn:Hget.
  - (* the key is an own property *)
    apply Get_SArray in Hget as Hr.
    assert (base ≤ r) by (destruct Hok as [Hrange _]; apply Hrange in Hr; lia).
    destruct (items e) as [rules|]; rewrite ?Hget, <- ?Hkey.
    + exists (unshift r rules σ).
      split; [by apply take_unshift|].
      split; [unfold unshift; by rewrite length_alter|].
      left. eexists _, _. split; [done|]. split; [done|].
      split; [by apply table_ok_unshift|].
      intros k. rewrite (typeRules_unshift base merged σ key r rules) by done.
      case_decide; [done|apply Hv].
    + exists σ. split; [done|]. split; [done|]. left. eauto 10.
  - (* the key names a member of [Object.prototype] *)
    exists σ. split; [done|]. split; [done|].
    destruct (items e) as [rules|]; rewrite ?Hget, <- ?Hkey; [right|left];
      eauto 10.
  - (* a new key: an empty array is created for it *)
    apply Get_SUndefined in Hget as Hnew. destruct Hnew as [Hnone Hni].
    pose proof (table_ok_alloc base merged σ key Hok Hbase Hnone) as Hok'.
    pose proof (typeRules_alloc base merged σ key Hok Hget) as Hsame.
    assert (assoc key (merged ++ [(key, length σ)]) = Some (length σ)) as Hr
      by by apply assoc_app_None.
    assert (take base (σ ++ [[]]) = take base σ) as Htake
      by by rewrite take_app_le.
    destruct (items e) as [rules|]; rewrite <- ?Hkey.
    + rewrite (Get_own _ _ _ Hr). exists (unshift (length σ) rules (σ ++ [[]])).
      split; [by rewrite take_unshift|].
      split; [unfold unshift; rewrite length_alter, length_app; lia|].
      left. eexists _, _. split; [done|]. split; [done|].
      split; [by apply table_ok_unshift|].
      intros k.
      rewrite (typeRules_unshift base _ _ key (length σ) rules) by done.
      rewrite lookup_app_r, Nat.sub_diag by done. simpl.
      case_decide; [done|]. rewrite Hsame. apply Hv.
    + exists (σ ++ [[]]). split; [done|].
      split; [rewrite length_app; lia|].
      left. eexists _, _. split; [done|]. split; [done|]. split; [done|].
      intros k. rewrite Hsame. apply Hv.
Qed.

(** The whole [forEach]. *)
Lemma merge_view base parsers : ∀ merged σ (v : view),
  table_ok base merged σ → base ≤ length σ →
  (∀ k, typeRules merged σ k = v k) →
  ∃ σ',
    take base σ' = take base σ ∧
    ((∃ merged' v',
        merge parsers merged σ = (σ', Return merged') ∧
        steps parsers v = Return v' ∧
        ∀ k, typeRules merged' σ' k = v' k) ∨
     (∃ err,
        merge parsers merged σ = (σ', Raise err) ∧
        steps parsers v = Raise err)).
Proof.
  induction parsers as [|[key e] parsers IH]; intros merged σ v Hok Hbase Hv.
  { exists σ. split; [done|]. left. exists merged, v. done. }
  simpl.
  destruct (merge_entry_view base key e merged σ v Hok Hbase Hv)
    as (σ1 & Htake1 & Hbase1
        & [(merged1 & v1 & -> & -> & Hok1 & Hv1)|(err & -> & ->)]).
  - destruct (IH merged1 σ1 v1 Hok1 Hbase1 Hv1) as (σ2 & Htake2 & Hcases).
    exists σ2. split; [congruence|]. exact Hcases.
  - exists σ1. split; [done|]. right. eauto.
Qed.

Lemma defaultParsers_view σ :
  table_ok (length σ) (defaultParsers JSON_parse_text σ).1
           (defaultParsers JSON_parse_text σ).2 ∧
  take (length σ) (defaultParsers JSON_parse_text σ).2 = σ ∧
  ∀ k, typeRules (defaultParsers JSON_parse_text σ).1
                 (defaultParsers JSON_parse_text σ).2 k
       = default_view JSON_parse_text k.
Proof.
  unfold defaultParsers. simpl. split; [|split].
  - split.
    + intros k r Hk. rewrite length_app. simpl in *.
      repeat case_decide; simplify_eq; lia.
    + intros k k' r Hk Hk'. simpl in *.
      repeat case_decide; simplify_eq; try done; lia.
  - by rewrite take_app_length.
  - intros k. unfold typeRules, Get, default_view, default_rules. simpl.
    repeat case_decide; simplify_eq; simpl; try done.
    + by rewrite lookup_app_r, Nat.sub_diag.
    + rewrite lookup_app_r by lia. by replace (S _ - _) with 1 by lia.
    + rewrite lookup_app_r by lia. by replace (S _ - _) with 2 by lia.
Qed.

(** [mergedParsers] on any store agrees with the map built from the
    built-in table, and leaves the cells of the store as they were. *)
Lemma mergedParsers_view parsers σ :
  ∃ σ',
    take (length σ) σ' = σ ∧
    ((∃ merged v,
        mergedParsers JSON_parse_text parsers σ = (σ', Return merged) ∧
        steps parsers (default_view JSON_parse_text) = Return v ∧
        ∀ k, typeRules merged σ' k = v k) ∨
     (∃ err,
        mergedParsers JSON_parse_text parsers σ = (σ', Raise err) ∧
        steps parsers (default_view JSON_parse_text) = Raise err)).
Proof.
  unfold mergedParsers.
  destruct (defaultParsers_view σ) as (Hok & Htake & Hv).
  destruct (defaultParsers JSON_parse_text σ) as [defaults σ1]. simpl in *.
  assert (length σ ≤ length σ1) as Hlen.
  { rewrite <- Htake at 1. rewrite length_take. lia. }
  destruct (merge_view (length σ) parsers defaults σ1
              (default_view JSON_parse_text) Hok Hlen Hv)
    as (σ' & Htake' & Hcases).
  exists σ'. split; [congruence|]. exact Hcases.
Qed.

(** The store plays no part in what a call logs and returns. *)
Lemma parseContent_view_eq σ response parsers callback :
  let run := parseContent JSON_parse_text σ response parsers callback in
  (log run, outcome run)
  = parseContent_view JSON_parse_text response parsers callback ∧
  take (length σ) (final run) = σ.
Proof.
  intros run. subst run. unfold parseContent, parseContent_view.
  destruct response as [r|]; [|by rewrite take_ge].
  destruct (extract JSON_parse_text (type_of r) (body r)) as [content|err].
  - destruct (mergedParsers_view parsers σ)
      as (σ' & Htake & [(merged & v & -> & -> & Hv)|(err & -> & ->)]);
      [|done].
    rewrite Hv. by destruct (resolve_rules (v (type_of r)) content callback).
  - destruct (message err); [|by rewrite take_ge].
    destruct (invoke callback _). by rewrite take_ge.
Qed.

Lemma custom_rules_cons key e parsers kind :
  custom_rules ((key, e) :: parsers) kind
  = custom_rules parsers kind
    ++ (if decide (key = kind) then default [] (items e) else []).
Proof.
  assert (∀ acc extra : list ruleObj,
            foldl (λ acc '(key, e),
                     if decide (key = kind)
                     then default [] (items e) ++ acc else acc)
                  (acc ++ extra) parsers
            = foldl (λ acc '(key, e),
                       if decide (key = kind)
                       then default [] (items e) ++ acc else acc)
                    acc parsers ++ extra) as Hfold.
  { induction parsers as [|[k e'] parsers IH]; intros acc extra; simpl; [done|].
    case_decide; [|apply IH]. rewrite (assoc_L (++)). apply IH. }
  unfold custom_rules. simpl. rewrite <- Hfold. simpl.
  case_decide; [|done]. by rewrite (right_id_L [] (++)).
Qed.

(** On the map: the caller's rules for a kind go in front of the rules the
    kind has. *)
Lemma steps_custom parsers : ∀ v : view,
  mergeable parsers →
  (∀ k, ¬ inherited_name k → ∃ rules, v k = RArray rules) →
  ∃ v',
    steps parsers v = Return v' ∧
    ∀ k old, ¬ inherited_name k → v k = RArray old →
             v' k = RArray (custom_rules parsers k ++ old).
Proof.
  induction parsers as [|[key e] parsers IH]; intros v Hm Hv.
  { exists v. split; [done|]. intros k old _ ->. done. }
  apply Forall_cons in Hm as [He Hm]. simpl. unfold entry_step.
  destruct (items e) as [rules|] eqn:Hitems.
  - destruct He as [|Hni]; [done|].
    destruct (Hv key Hni) as [old Hold]. rewrite Hold. simpl.
    destruct (IH (λ k, if decide (k = key) then RArray (rules ++ old) else v k)
                Hm) as (v' & -> & Hv').
    { intros k Hk. case_decide; eauto. }
    exists v'. split; [done|]. intros k old' Hk Hk'.
    rewrite custom_rules_cons, Hitems. simpl.
    destruct (decide (k = key)) as [->|Hne].
    + rewrite (Hv' key (rules ++ old)), decide_True by (done || by rewrite decide_True).
      rewrite Hold in Hk'. simplify_eq. by rewrite (assoc_L (++)).
    + rewrite (Hv' k old'), decide_False by (done || by rewrite decide_False).
      by rewrite (right_id_L [] (++)).
  - simpl. destruct (IH v Hm Hv) as (v' & -> & Hv').
    exists v'. split; [done|]. intros k old Hk Hk'.
    rewrite custom_rules_cons, Hitems. simpl.
    rewrite (Hv' k old) by done. case_decide; by rewrite (right_id_L [] (++)).
Qed.

(** On the map, without any assumption on the table: when the merge goes
    through, an inherited name is still inherited, and every other key has
    the caller's rules in front of the rules it had. *)
Lemma steps_returns parsers : ∀ v v' : view,
  steps parsers v = Return v' →
  ∀ k, match v k with
       | RArray old => v' k = RArray (custom_rules parsers k ++ old)
       | RInherited i => v' k = RInherited i
       end.
Proof.
  induction parsers as [|[key e] parsers IH]; intros v v' Hsteps k.
  { simpl in Hsteps. simplify_eq. by destruct (v' k). }
  simpl in Hsteps. unfold entry_step in Hsteps. rewrite custom_rules_cons.
  destruct (items e) as [rules|] eqn:Hitems; simpl in *.
  - destruct (v key) as [old0|i] eqn:Hkey; [|done]. simpl in Hsteps.
    specialize (IH _ _ Hsteps k). simpl in IH.
    destruct (decide (k = key)) as [->|Hne].
    + rewrite Hkey. rewrite decide_True by done. by rewrite <- (assoc_L (++)).
    + rewrite decide_False by done.
      destruct (v k); [|done]. by rewrite (right_id_L [] (++)).
  - specialize (IH _ _ Hsteps k). destruct (v k); [|done].
    case_decide; by rewrite (right_id_L [] (++)).
Qed.

Lemma default_view_own kind :
  ¬ inherited_name kind →
  default_view JSON_parse_text kind
  = RArray (default_rules JSON_parse_text kind).
Proof.
  intros Hk. unfold default_view.
  destruct (default_rules JSON_parse_text kind); [|done].
  destruct (assoc kind Object_prototype) eqn:Hp; [|done].
  destruct Hk. by eexists.
Qed.

(** The effective rule list of a call: whatever the store holds, the
    caller's rules for the kind, then the built-in rules of the kind. *)
Lemma mergedParsers_spec parsers σ :
  mergeable parsers →
  ∃ merged σ',
    mergedParsers JSON_parse_text parsers σ = (σ', Return merged) ∧
    take (length σ) σ' = σ ∧
    ∀ kind, ¬ inherited_name kind →
      typeRules merged σ' kind
      = RArray (custom_rules parsers kind ++ default_rules JSON_parse_text kind).
Proof.
  intros Hm.
  destruct (steps_custom parsers (default_view JSON_parse_text) Hm)
    as (v & Hsteps & Hv).
  { intros k Hk. rewrite default_view_own by done. eauto. }
  destruct (mergedParsers_view parsers σ)
    as (σ' & Htake & [(merged & v' & Hmerge & Hsteps' & Hv')|(err & _ & Herr)]);
    [|congruence].
  exists merged, σ'. split; [done|]. split; [done|].
  intros kind Hk. rewrite Hv'. rewrite Hsteps in Hsteps'. simplify_eq.
  apply Hv; [done|]. by apply default_view_own.
Qed.

(** Whenever the table is built and the kind has a rule list in it, that
    list is the caller's rules for the kind, then the built-in rules of the
    kind. *)
Lemma mergedParsers_rules parsers σ σ' merged kind rules :
  mergedParsers JSON_parse_text parsers σ = (σ', Return merged) →
  typeRules merged σ' kind = RArray rules →
  rules = custom_rules parsers kind ++ default_rules JSON_parse_text kind.
Proof.
  intros Hmerge Hrules.
  destruct (mergedParsers_view parsers σ)
    as (σ1 & _ & [(merged1 & v & Hmerge1 & Hsteps & Hv)|(err & Herr & _)]);
    [|congruence].
  rewrite Hmerge in Hmerge1. simplify_eq.
  pose proof (steps_returns parsers _ _ Hsteps kind) as Hkind.
  rewrite <- Hv, Hrules in Hkind. unfold default_view in Hkind.
  destruct (default_rules JSON_parse_text kind) as [|q rest] eqn:Hd.
  - destruct (assoc kind Object_prototype); by simplify_eq.
  - by simplify_eq.
Qed.
End Merge.

(** * Rule evaluation *)

Section Rules.
Variable JSON_parse_text : string → parse_result.

(** Closes a goal [Raise e ≠ Raise ThrownNullish] from the same fact about
    [e] at another result type. *)
Ltac same_error :=
  intros [= ->];
  match goal with
  | H : Raise ThrownNullish ≠ Raise ThrownNullish |- _ => by destruct H
  end.

Lemma tree_join_parts_readable (f : tree → completion string) elems :
  Forall (λ e, readable (f e)) elems → readable (tree_join_parts f elems).
Proof.
  unfold readable. induction 1 as [|e elems He _ IH]; simpl; [done|].
  assert (readable (match e with
                    | TPrim PUndefined | TPrim PNull => Return EmptyString
                    | _ => f e
                    end)) as He'.
  { unfold readable. destruct e as [[]| | | | |]; done. }
  unfold readable in He'.
  destruct (match e with TPrim PUndefined | TPrim PNull => _ | _ => _ end);
    simpl; [|same_error].
  destruct (tree_join_parts f elems); simpl; [done|same_error].
Qed.

(** [ToString] throws nothing but its [TypeError] for a symbol. *)
Lemma tree_ToString_readable : ∀ t, readable (tree_ToString t).
Proof.
  fix IH 1. intros [p|d|text|src|elems|props]; unfold readable; simpl;
    try done.
  - by destruct p as [| |[]| | | |].
  - assert (Forall (λ e, readable (tree_ToString e)) elems) as Helems.
    { induction elems as [|e elems IHelems]; constructor; [apply IH|done]. }
    apply tree_join_parts_readable in Helems. unfold readable in Helems.
    destruct (tree_join_parts tree_ToString elems); simpl; [done|same_error].
Qed.

Lemma JSON_parse_readable content : readable (JSON_parse JSON_parse_text content).
Proof.
  unfold JSON_parse. pose proof (tree_ToString_readable content) as Hs.
  unfold readable in *.
  destruct (tree_ToString content) as [text|e]; simpl; [|same_error].
  by destruct (JSON_parse_text text).
Qed.

Lemma default_rules_readable kind content :
  Forall (λ q, readable (attempt q content)) (default_rules JSON_parse_text kind).
Proof.
  unfold default_rules. repeat case_decide; repeat constructor; try done.
  unfold attempt. simpl. pose proof (JSON_parse_readable content) as Hp.
  unfold readable in *.
  destruct (JSON_parse JSON_parse_text content); simpl; [done|same_error].
Qed.

Lemma custom_rules_polite parsers kind content :
  polite parsers →
  Forall (λ q, readable (attempt q content)) (custom_rules parsers kind).
Proof.
  induction 1 as [|[key e] parsers He _ IH]; [constructor|].
  rewrite custom_rules_cons. apply Forall_app. split; [done|].
  case_decide; [|constructor].
  eapply Forall_impl; [exact He|]. intros q Hq. apply Hq.
Qed.

(** The loop logs warnings only. *)
Lemma run_rules_callbacks rules content :
  callbacks (run_rules rules content).1 = [].
Proof.
  induction rules as [|q rules IH]; simpl; [done|].
  destruct (attempt q content) as [[result|]|err]; simpl; try done.
  destruct (message err); simpl; [|done].
  by destruct (run_rules rules content).
Qed.

(** With readable errors the loop never throws. *)
Lemma run_rules_returns rules content :
  Forall (λ q, readable (attempt q content)) rules →
  ∃ processed, (run_rules rules content).2 = Return processed.
Proof.
  induction 1 as [|q rules Hq _ IH]; simpl; [eauto|]. unfold readable in Hq.
  destruct (attempt q content) as [[result|]|[name m|]]; simpl; eauto.
  - destruct IH as [processed IH].
    destruct (run_rules rules content); simpl in *. eauto.
  - done.
Qed.

(** Rules that do not process the content are passed over. *)
Lemma run_rules_skip pre rest content :
  Forall (λ q, skipped q content) pre →
  (run_rules (pre ++ rest) content).2 = (run_rules rest content).2.
Proof.
  induction 1 as [|q pre [Hq|(name & m & Hq)] _ IH]; simpl; [done| |];
    rewrite Hq; simpl; [done|].
  by destruct (run_rules (pre ++ rest) content).
Qed.

Lemma run_rules_none rules content :
  Forall (λ q, skipped q content) rules →
  (run_rules rules content).2 = Return None.
Proof.
  intros Hs. rewrite <- (right_id_L [] (++) rules).
  by rewrite run_rules_skip.
Qed.

(** The first rule that processes the content supplies the result. *)
Lemma run_rules_first pre q post content result :
  Forall (λ q, skipped q content) pre →
  attempt q content = Return (Some result) →
  (run_rules (pre ++ q :: post) content).2 = Return (Some result).
Proof.
  intros Hpre Hq. rewrite run_rules_skip by done. simpl. by rewrite Hq.
Qed.

(** What [parseContent] does once the content is extracted and the kind
    names no member of [Object.prototype]. *)
Lemma parseContent_rules σ r parsers callback content :
  mergeable parsers →
  ¬ inherited_name (type_of r) →
  extract JSON_parse_text (type_of r) (body r) = Return content →
  let run := parseContent JSON_parse_text σ (Some r) parsers callback in
  (log run, outcome run)
  = resolve_rules
      (RArray (custom_rules parsers (type_of r)
               ++ default_rules JSON_parse_text (type_of r)))
      content callback
  ∧ take (length σ) (final run) = σ.
Proof.
  intros Hm Hk Hcontent run. subst run. unfold parseContent.
  rewrite Hcontent.
  destruct (mergedParsers_spec JSON_parse_text parsers σ Hm)
    as (merged & σ' & -> & Htake & Hrules).
  rewrite Hrules by done.
  by destruct (resolve_rules _ content callback).
Qed.
End Rules.

(** * The outcome of [parseContent] *)

Section Outcome.
Variable JSON_parse_text : string → parse_result.

Lemma callbacks_app log log' :
  callbacks (log ++ log') = callbacks log ++ callbacks log'.
Proof. apply omap_app. Qed.

(** [deliver] invokes the callback once, with the result alone, and
    returns the result unless the callback throws. *)
Lemma deliver_Some cb result :
  deliver (Some cb) result
  = ([Callback [AValue result]], (λ _, result) <$> cb [AValue result]).
Proof.
  unfold deliver, invoke. by destruct (cb [AValue result]).
Qed.

Lemma deliver_None result : deliver None result = ([], Return result).
Proof. done. Qed.

Lemma deliver_raises callback result e :
  (deliver callback result).2 = Raise e →
  ∃ cb args, callback = Some cb ∧ cb args = Raise e.
Proof.
  destruct callback as [cb|]; [|done]. rewrite deliver_Some. simpl.
  destruct (cb [AValue result]) eqn:Hcb; simpl; [done|].
  intros [= ->]. eauto.
Qed.

(** After the rules: the log of the loop holds no callback, and the call
    ends by delivering a value, or by what the loop or the iteration
    threw. *)
Lemma resolve_rules_cases rules content callback :
  (∃ warnings result,
     callbacks warnings = [] ∧
     resolve_rules rules content callback
     = (warnings ++ (deliver callback result).1, (deliver callback result).2)) ∨
  (∃ warnings e,
     callbacks warnings = [] ∧
     resolve_rules rules content callback = (warnings, Raise e)).
Proof.
  assert (∀ result,
            deliver callback result
            = ([] ++ (deliver callback result).1, (deliver callback result).2))
    as Hdeliver.
  { intros result. by destruct (deliver callback result). }
  destruct rules as [[|q rules]|[[|n]|]]; unfold resolve_rules; cbv beta iota.
  - left. exists [], content. split; [done|]. apply Hdeliver.
  - pose proof (run_rules_callbacks (q :: rules) content) as Hcb.
    destruct (run_rules (q :: rules) content) as [warnings [processed|e]].
    + left. exists warnings, (default content processed). split; [done|].
      by destruct (deliver callback (default content processed)).
    + right. eauto.
  - left. exists [], content. split; [done|]. apply Hdeliver.
  - right. by exists [], (TypeError "typeRules is not iterable").
  - right. by exists [], (TypeError "typeRules is not iterable").
Qed.

(** With readable errors the loop itself never throws. *)
Lemma resolve_rules_readable rules content callback :
  Forall (λ q, readable (attempt q content)) rules →
  ∃ result,
    (resolve_rules (RArray rules) content callback).2
    = (deliver callback result).2.
Proof.
  intros Hr. destruct rules as [|q rules]; [simpl; eauto|].
  unfold resolve_rules; cbv beta iota.
  destruct (run_rules_returns (q :: rules) content Hr) as [processed Hp].
  destruct (run_rules (q :: rules) content) as [warnings c].
  simpl in Hp. subst c. exists (default content processed).
  by destruct (deliver callback (default content processed)).
Qed.

(** Once the content is extracted and the table is built, the call is the
    evaluation of the rule list of the kind. *)
Lemma parseContent_evaluates σ r parsers callback content σ' merged :
  extract JSON_parse_text (type_of r) (body r) = Return content →
  mergedParsers JSON_parse_text parsers σ = (σ', Return merged) →
  let run := parseContent JSON_parse_text σ (Some r) parsers callback in
  (log run, outcome run)
  = resolve_rules (typeRules merged σ' (type_of r)) content callback.
Proof.
  intros Hx Hmerge run. subst run. unfold parseContent.
  rewrite Hx, Hmerge. by destruct (resolve_rules _ content callback).
Qed.

(** When the extraction fails, the callback receives [null] and the error,
    and the error is thrown unless the callback throws first. *)
Lemma parseContent_malformed σ r parsers callback s m :
  type_of r = "json" → body r = TPrim (PStr s) →
  JSON_parse_text s = Malformed m →
  let error := ContentDecodeError m in
  let run := parseContent JSON_parse_text σ (Some r) parsers callback in
  log run = (invoke callback [AValue (TPrim PNull); AError error]).1 ∧
  outcome run
  = ((invoke callback [AValue (TPrim PNull); AError error]).2
     ≫= λ _, Raise error).
Proof.
  intros Htype Hbody Hs error run. subst run error. unfold parseContent.
  rewrite Htype, Hbody. unfold extract, JSON_parse. simpl. rewrite Hs. simpl.
  by destruct (invoke callback _).
Qed.

(** The extraction can only fail on a textual body of kind [json] that
    [JSON.parse] rejects. *)
Lemma extract_raises kind b err :
  extract JSON_parse_text kind b = Raise err →
  ∃ s m, kind = "json" ∧ b = TPrim (PStr s) ∧
         JSON_parse_text s = Malformed m ∧ err = SyntaxError m.
Proof.
  unfold extract. case_decide as Hk; [|done].
  destruct b as [[| | | | |s|]| | | | |]; try done.
  unfold JSON_parse. simpl. destruct (JSON_parse_text s) as [t|m] eqn:Hs; [done|].
  intros [= <-]. eauto 10.
Qed.
End Outcome.

(** * [safeStringify] against its specification *)

(** C1. [safeStringify] does not return a string for every value, and it
    can throw. For a symbol, whatever the heap, [JSON.stringify] yields
    [undefined], nothing is thrown, and [undefined] is what the caller
    receives. For the array [[Symbol("s"), 1n]] the encoder rejects the
    [BigInt], the failure is logged, and the fallback [String(value)] then
    throws on the symbol, from inside the [catch] block. *)
Theorem C1_not_always_a_string :
  (∀ h description,
     safeStringify h (VPrim (PSymbol description)) = ([], Ok PUndefined)) ∧
  safeStringify symbol_heap (VRef 0)
  = (["Error in safeStringify: Do not know how to serialize a BigInt"],
     Throw symbol_error).
Proof.
  split.
  - intros h description. unfold safeStringify, safeStringify_try.
    unfold JSON_stringify. cbn [SerializeJSONProperty]. reflexivity.
  - unfold safeStringify, safeStringify_try. simpl.
    unfold JSON_stringify. vm_compute. reflexivity.
Qed.

(** An edge to a tracked object that is already in the visited set, as
    every edge to an object on the serializer's stack is, is written as the
    placeholder and nothing is visited. *)
Lemma revisit_placeholder (h : heap) (fuel : nat) (stack : list loc)
    (seen : gset loc) (l : loc) (o : obj) :
  h !! l = Some o →
  match o with
  | OArray _ | OObject _ | ORegExp _ => True
  | _ => False
  end →
  l ∈ seen →
  SerializeJSONProperty h (S fuel) stack seen (VRef l)
  = Ok (Some (QuoteJSONString circular_placeholder), seen).
Proof.
  intros Hl Ho Hseen. cbn [SerializeJSONProperty]. unfold toJSON, replacer.
  rewrite Hl. destruct o; try done; simpl; rewrite Hl; simpl;
    by rewrite bool_decide_eq_true_2.
Qed.

(** The plain self-reference is reported once. *)
Example self_reference_once :
  safeStringify self_heap (VRef 0) = ([], Ok (PStr self_text)) ∧
  occurrences circular_placeholder self_text = 1.
Proof. split; reflexivity. Qed.

(** C9. On a value with one self-reference and one object referenced twice
    without a cycle, the output holds the placeholder twice although the
    graph has a single cyclic edge, the one from [v] to itself: the second
    reference to the shared object is reported as circular too. *)
Theorem C9_shared_reference_reported_circular :
  safeStringify shared_heap (VRef 0) = ([], Ok (PStr shared_text)) ∧
  occurrences circular_placeholder shared_text = 2 ∧
  ∀ l l', cyclic_edge shared_heap l l' ↔ l = 0 ∧ l' = 0.
Proof.
  split; [reflexivity|]. split; [reflexivity|].
  assert (∀ l l', edge shared_heap l l' → l = 0 ∧ (l' = 0 ∨ l' = 1)) as Hedge.
  { intros l l' (o & Ho & Hin).
    destruct l as [|[|l]]; simpl in Ho; simplify_eq; simpl in Hin.
    - split; [done|].
      repeat (apply elem_of_cons in Hin as [Hin|Hin]; [simplify_eq; eauto|]).
      by apply elem_of_nil in Hin.
    - by apply elem_of_nil in Hin. }
  intros l l'. split.
  - intros [He Hback]. apply Hedge in He as [-> [->| ->]]; [done|].
    apply rtc_inv in Hback as [?|(l & [? _]%Hedge & _)]; done.
  - intros [-> ->]. split; [|done].
    exists (OObject [("self", VRef 0); ("a", VRef 1); ("b", VRef 1)]).
    split; [done|]. simpl. left.
Qed.

(** C2, as stated, fails on [{a: undefined}]: the specification's encoding
    replaces the nested absent marker by the text [undefined], the code
    leaves the member out. *)
Lemma C2_nested_absent_marker_omitted :
  tree_at absent_heap (VRef 0) absent_tree ({[0]} ∪ (∅ ∪ ∅)) ∧
  safeStringify absent_heap (VRef 0) = ([], Ok (PStr (object_text []))) ∧
  spec_serialize absent_tree
  = ([], Return (PStr (object_text
                         [member_text "a" (QuoteJSONString "undefined")]))) ∧
  safeStringify absent_heap (VRef 0)
  ≠ ((spec_serialize absent_tree).1, lift (spec_serialize absent_tree).2).
Proof.
  split; [|split; [reflexivity|split; [reflexivity|by vm_compute]]].
  eapply at_object; [done| |set_solver].
  apply at_member; [apply at_prim|apply at_no_member|set_solver].
Qed.

(** C2, amended. On every value in which no tracked object is reached
    twice, structurally equal but distinct composites included, and whose
    objects define no conversion method of their own, [safeStringify]
    returns the standard encoding of the value in which compiled patterns
    and callables are replaced by their text at every depth; the absent
    marker is replaced at the top only, and below it is encoded the
    standard way. No placeholder is emitted. *)
Theorem C2_tree_encoding (h : heap) (v : value) (t : tree) (fp : gset loc) :
  plain_heap h →
  tree_at h v t fp →
  safeStringify h v = ((tree_serialize t).1, lift (tree_serialize t).2).
Proof.
  intros _ Hv.
  assert (safeStringify_try h v
          = lift (serialize_attempt (λ t, Return (substitute t)) t)) as Htry.
  { pose proof (JSON_stringify_tree h v t fp Hv) as Hjson.
    unfold safeStringify_try, serialize_attempt.
    destruct Hv as [p|l d Hl|l text Hl|l src Hl|l elems ts fp Hl _ _
                   |l props ts fp Hl _ _]; rewrite ?Hl; try done.
    - by destruct p.
    - by destruct d. }
  unfold safeStringify, tree_serialize, serialize_with.
  rewrite Htry, (JsString_tree h v t fp Hv).
  destruct (serialize_attempt _ t) as [r|err]; simpl; [done|].
  destruct (message err); simpl; [|done]. by destruct (tree_String t).
Qed.

Lemma C2_tree_encoding_witness :
  plain_heap twins_heap ∧
  tree_at twins_heap (VRef 0) twins_tree twins_footprint ∧
  safeStringify twins_heap (VRef 0) = ([], Ok (PStr twins_text)).
Proof.
  assert (plain_heap twins_heap) as Hplain
    by exact (bool_decide_unpack (plain_heap twins_heap) I).
  assert (tree_at twins_heap (VRef 0) twins_tree twins_footprint) as Htree.
  { eapply at_object; [reflexivity| |set_solver].
    apply at_member; [|apply at_member; [|apply at_member;
      [|apply at_member; [|apply at_member; [|apply at_member;
        [|apply at_no_member|]|]|]|]|]|].
    - eapply at_object; [reflexivity| |set_solver].
      apply at_member; [apply at_prim|apply at_no_member|set_solver].
    - eapply at_object; [reflexivity| |set_solver].
      apply at_member; [apply at_prim|apply at_no_member|set_solver].
    - by apply at_date.
    - by apply at_regexp.
    - by apply at_function.
    - apply at_prim.
    - set_solver.
    - set_solver.
    - set_solver.
    - set_solver.
    - set_solver.
    - set_solver. }
  split; [exact Hplain|]. split; [exact Htree|].
  exact (C2_tree_encoding twins_heap (VRef 0) twins_tree _ Hplain Htree).
Defined.

(** * [parseContent] against its specification *)

(** Settles a decidable goal by running its decision procedure. *)
Ltac by_decide :=
  match goal with
  | |- ?G => exact (bool_decide_unpack G I)
  end.

(** C3. The handler of the rule loop reads [err.message]. When a predicate
    throws [null] the handler itself throws, outside any [try]: the call
    fails after the extraction, with a [TypeError] that is not the decode
    error, whatever the body, the transform, the rules that follow and the
    callback are; and the callback is not called. What a rule throws is
    then not absorbed. *)
Theorem C3_rule_exception_escapes (P : string → parse_result) (σ : store)
    (b : tree) (p : transform) (rest : list ruleObj)
    (callback : option callback_fn) :
  let thrower := {| rule := λ _, Raise ThrownNullish; parse := p |} in
  let run := parseContent P σ (Some {| type := Some "text"; body := b |})
               [("text", EArray (thrower :: rest))] callback in
  log run = [] ∧
  outcome run
  = Raise (TypeError "Cannot read properties of null (reading 'message')") ∧
  ∀ m, TypeError "Cannot read properties of null (reading 'message')"
       ≠ ContentDecodeError m.
Proof.
  intros thrower run.
  assert (mergeable [("text", EArray (thrower :: rest))]) as Hm.
  { constructor; [|constructor]. right. intros [? [=]]. }
  destruct (mergedParsers_spec P [("text", EArray (thrower :: rest))] σ Hm)
    as (merged & σ' & Hmerge & _ & Hrules).
  pose proof (parseContent_evaluates P σ {| type := Some "text"; body := b |}
                [("text", EArray (thrower :: rest))] callback b
                σ' merged eq_refl Hmerge) as Hrun.
  fold run in Hrun.
  change (type_of {| type := Some "text"; body := b |}) with "text" in Hrun.
  rewrite (Hrules "text") in Hrun by (intros [? [=]]).
  assert (custom_rules [("text", EArray (thrower :: rest))] "text"
          = thrower :: rest) as Hcustom.
  { unfold custom_rules. simpl. by rewrite app_nil_r. }
  rewrite Hcustom in Hrun. simpl in Hrun.
  injection Hrun as Hlog Hout. done.
Qed.

(** C4. Whatever calls came before and whatever rules they were given, a
    call logs and returns what it would as the first call, and it does not
    modify the cells of the store that the earlier calls left: its rule
    table is built from new copies of the built-in rules. In that table the
    rule list of a kind is the caller's rules for the kind followed by the
    built-in rules of the kind. Each known kind has one built-in rule, and
    its predicate is always true. *)
Theorem C4_defaults_fresh (P : string → parse_result) (calls : list call)
    (σ0 : store) (response : option Response)
    (parsers : list (string * entry)) (callback : option callback_fn) :
  let σ := store_after P calls σ0 in
  let later := parseContent P σ response parsers callback in
  let first := parseContent P [] response parsers callback in
  (log later, outcome later) = (log first, outcome first) ∧
  take (length σ) (final later) = σ ∧
  (∀ kind σ' merged rules,
     mergedParsers P parsers σ = (σ', Return merged) →
     typeRules merged σ' kind = RArray rules →
     rules = custom_rules parsers kind ++ default_rules P kind) ∧
  Forall (λ known, ∃ p, default_rules P known = [{| rule := always; parse := p |}])
         ["json"; "html"; "text"].
Proof.
  intros σ later first.
  destruct (parseContent_view_eq P σ response parsers callback)
    as [Hlater Hframe].
  destruct (parseContent_view_eq P [] response parsers callback)
    as [Hfirst _].
  split; [subst later first; congruence|]. split; [exact Hframe|]. split.
  - intros kind σ' merged rules Hmerge Hrules.
    by eapply mergedParsers_rules.
  - repeat constructor; eexists; reflexivity.
Qed.

Lemma C4_defaults_fresh_witness :
  let earlier :=
    [ {| call_response := Some (text_payload "abc");
         call_parsers := [("text", EArray [failing_rule])];
         call_callback := None |} ] in
  let σ := store_after JsonText.parse earlier [] in
  let table := mergedParsers JsonText.parse [("text", EArray [shout])] σ in
  table.2 = Return [("json", 3); ("html", 4); ("text", 5)] ∧
  typeRules [("json", 3); ("html", 4); ("text", 5)] table.1 "text"
  = RArray [shout; default_text] ∧
  [shout; default_text]
  = custom_rules [("text", EArray [shout])] "text"
    ++ default_rules JsonText.parse "text".
Proof.
  intros earlier σ table.
  assert (table = (table.1, Return [("json", 3); ("html", 4); ("text", 5)]))
    as Htable by reflexivity.
  assert (typeRules [("json", 3); ("html", 4); ("text", 5)] table.1 "text"
          = RArray [shout; default_text]) as Hrules by reflexivity.
  split; [by rewrite Htable|]. split; [exact Hrules|].
  exact (proj1 (proj2 (proj2
           (C4_defaults_fresh JsonText.parse earlier [] None
              [("text", EArray [shout])] None)))
           "text" table.1 _ _ Htable Hrules).
Defined.

(** C5. The rules of a kind are not evaluated at all when the kind is
    named like a member of [Object.prototype]: [mergedParsers[type]] is
    then the inherited member, no array is created for the kind, and
    [unshift] is called on that member. Whatever the rules are, an
    always-matching one included, and whatever the body and the callback,
    the call throws a [TypeError] and the callback is not called. For the
    kind [text] the always-matching uppercasing rule turns [abc] into
    [ABC]. *)
Theorem C5_inherited_kind_rejects_rules (P : string → parse_result)
    (σ : store) :
  Forall (λ kind, ∀ b rules callback,
            let run := parseContent P σ
                         (Some {| type := Some kind; body := b |})
                         [(kind, EArray rules)] callback in
            log run = [] ∧
            outcome run
            = Raise (TypeError "mergedParsers[type].unshift is not a function"))
         Object_prototype.*1 ∧
  outcome (parseContent P σ (Some (text_payload "abc"))
             [("text", EArray [shout])] None)
  = Return (TPrim (PStr "ABC")).
Proof.
  split.
  - unfold Object_prototype. simpl.
    repeat (constructor; [intros b rules callback; split; reflexivity|]).
    constructor.
  - destruct (mergedParsers_spec P [("text", EArray [shout])] σ)
      as (merged & σ' & Hmerge & _ & Hrules); [by_decide|].
    pose proof (parseContent_evaluates P σ (text_payload "abc")
                  [("text", EArray [shout])] None (TPrim (PStr "abc"))
                  σ' merged eq_refl Hmerge) as Hrun.
    change (type_of (text_payload "abc")) with "text" in Hrun.
    rewrite (Hrules "text") in Hrun by (intros [? [=]]).
    apply (f_equal snd) in Hrun. exact Hrun.
Qed.

(** C6, as stated, fails when the extraction fails: the callback receives
    [null] in its first slot and the error object in the second one. *)
Lemma C6_error_in_second_slot :
  let error := ContentDecodeError "Unexpected token in JSON" in
  callbacks (log (parseContent JsonText.parse [] (Some (json_payload "not json"))
                    [] (Some quiet)))
  = [[AValue (TPrim PNull); AError error]] ∧
  AValue (TPrim PNull) ≠ AError error.
Proof. split; [reflexivity|done]. Qed.

(** C6, amended. A callback is invoked at most once, within the call. When
    the call returns, it was invoked once with the returned result as its
    only argument. When the extraction fails, it is invoked once with
    [null] in its first slot and the error object in its second slot, and
    the error is thrown afterwards unless the callback throws first. *)
Theorem C6_callback_protocol (P : string → parse_result) (σ : store)
    (response : option Response) (parsers : list (string * entry))
    (cb : callback_fn) :
  let run := parseContent P σ response parsers (Some cb) in
  length (callbacks (log run)) ≤ 1 ∧
  (∀ result, outcome run = Return result →
             callbacks (log run) = [[AValue result]]) ∧
  (∀ r s m,
     response = Some r → type_of r = "json" → body r = TPrim (PStr s) →
     P s = Malformed m →
     callbacks (log run)
     = [[AValue (TPrim PNull); AError (ContentDecodeError m)]] ∧
     outcome run
     = (cb [AValue (TPrim PNull); AError (ContentDecodeError m)]
        ≫= λ _, Raise (ContentDecodeError m))).
Proof.
  intros run.
  assert (∀ r s m,
            response = Some r → type_of r = "json" → body r = TPrim (PStr s) →
            P s = Malformed m →
            callbacks (log run)
            = [[AValue (TPrim PNull); AError (ContentDecodeError m)]] ∧
            outcome run
            = (cb [AValue (TPrim PNull); AError (ContentDecodeError m)]
               ≫= λ _, Raise (ContentDecodeError m))) as Hfail.
  { intros r s m -> Htype Hbody Hs.
    destruct (parseContent_malformed P σ r parsers (Some cb) s m Htype Hbody Hs)
      as [Hlog Hout].
    subst run. rewrite Hlog, Hout. split; [done|]. simpl.
    by destruct (cb _). }
  split; [|split; [|exact Hfail]].
  - (* at most once *)
    subst run. destruct response as [r|]; [|simpl; lia].
    destruct (extract P (type_of r) (body r)) as [content|err] eqn:Hx.
    + unfold parseContent. rewrite Hx.
      destruct (mergedParsers P parsers σ) as [σ' [merged|e]]; [|simpl; lia].
      destruct (resolve_rules_cases (typeRules merged σ' (type_of r))
                  content (Some cb))
        as [(warnings & result & Hw & ->)|(warnings & e & Hw & ->)];
        simpl; rewrite ?callbacks_app, ?Hw, ?deliver_Some; simpl; lia.
    + apply extract_raises in Hx as (s & m & Htype & Hbody & Hs & _).
      destruct (Hfail r s m eq_refl Htype Hbody Hs) as [-> _]. simpl. lia.
  - (* on return *)
    subst run. intros result Hout. destruct response as [r|]; [|done].
    destruct (extract P (type_of r) (body r)) as [content|err] eqn:Hx.
    + unfold parseContent in *. rewrite Hx in *.
      destruct (mergedParsers P parsers σ) as [σ' [merged|e]]; [|done].
      destruct (resolve_rules_cases (typeRules merged σ' (type_of r))
                  content (Some cb))
        as [(warnings & v & Hw & Hrun)|(warnings & e & Hw & Hrun)];
        rewrite Hrun in *; simpl in *; [|done].
      rewrite callbacks_app, Hw. simpl.
      destruct (cb [AValue v]); simpl in *; by simplify_eq.
    + apply extract_raises in Hx as (s & m & Htype & Hbody & Hs & _).
      destruct (Hfail r s m eq_refl Htype Hbody Hs) as [_ Hfailed].
      rewrite Hfailed in Hout. by destruct (cb _).
Qed.

Lemma C6_callback_protocol_witness :
  let run := parseContent JsonText.parse [] (Some (json_payload "not json"))
               [] (Some quiet) in
  JsonText.parse "not json" = Malformed "Unexpected token in JSON" ∧
  callbacks (log run)
  = [[AValue (TPrim PNull);
      AError (ContentDecodeError "Unexpected token in JSON")]] ∧
  outcome run = Raise (ContentDecodeError "Unexpected token in JSON").
Proof.
  intros run. split; [reflexivity|].
  exact (proj2 (proj2 (C6_callback_protocol JsonText.parse []
                         (Some (json_payload "not json")) [] quiet))
           (json_payload "not json") "not json" "Unexpected token in JSON"
           eq_refl eq_refl eq_refl eq_refl).
Defined.

(** C7. With no custom rules, the payload of kind [json] and body
    [{"a":1}] resolves to the parsed object: the built-in rule parses the
    already parsed content again, that is the text [[object Object]], fails,
    is logged, and the base content is returned. *)
Theorem C7_json_example (P : string → parse_result) (σ : store) (m : string) :
  P a1_text = Parsed a1_tree →
  P "[object Object]" = Malformed m →
  let run := parseContent P σ (Some (json_payload a1_text)) [] None in
  log run = [Warn ("Failed to parse content: " +:+ m)] ∧
  outcome run = Return a1_tree.
Proof.
  intros Hparse Hagain run.
  assert (extract P (type_of (json_payload a1_text)) (body (json_payload a1_text))
          = Return a1_tree) as Hx.
  { unfold extract, JSON_parse. simpl. by rewrite Hparse. }
  destruct (parseContent_rules P σ (json_payload a1_text) [] None a1_tree)
    as [Hrun _]; [constructor|intros [? [=]]|exact Hx|].
  fold run in Hrun.
  assert (resolve_rules
            (RArray (custom_rules [] (type_of (json_payload a1_text))
                     ++ default_rules P (type_of (json_payload a1_text))))
            a1_tree None
          = ([Warn ("Failed to parse content: " +:+ m)], Return a1_tree))
    as Hres.
  { unfold resolve_rules, run_rules, attempt. simpl.
    unfold JSON_parse. simpl. by rewrite Hagain. }
  rewrite Hres in Hrun. by simplify_eq.
Qed.

Lemma C7_json_example_witness :
  let run := parseContent JsonText.parse [] (Some (json_payload a1_text)) [] None in
  JsonText.parse a1_text = Parsed a1_tree ∧
  JsonText.parse "[object Object]" = Malformed "Unexpected token in JSON" ∧
  log run = [Warn "Failed to parse content: Unexpected token in JSON"] ∧
  outcome run = Return a1_tree.
Proof.
  intros run. split; [reflexivity|]. split; [reflexivity|].
  exact (C7_json_example JsonText.parse [] "Unexpected token in JSON"
           eq_refl eq_refl).
Defined.

(** C8. Two calls in which no rule processes the content and which do not
    return the base content. For a payload of kind [constructor] and no
    custom rule, [mergedParsers.constructor] is the inherited [Object]
    function, whose [length] is 1 and which is not iterable, so the loop
    header throws a [TypeError]. For a payload of kind [text] and a rule
    whose transform throws [null], the handler of the loop reads
    [err.message] and throws a [TypeError] in its turn. *)
Theorem C8_fallback_missed (P : string → parse_result) (σ : store) :
  (∀ b callback,
     let run := parseContent P σ
                  (Some {| type := Some "constructor"; body := b |})
                  [] callback in
     log run = [] ∧
     outcome run = Raise (TypeError "typeRules is not iterable")) ∧
  outcome (parseContent P σ (Some (text_payload "abc"))
             [("text", EArray [rude])] None)
  = Raise (TypeError "Cannot read properties of null (reading 'message')").
Proof.
  split.
  - intros b callback. split; reflexivity.
  - destruct (mergedParsers_spec P [("text", EArray [rude])] σ)
      as (merged & σ' & Hmerge & _ & Hrules); [by_decide|].
    pose proof (parseContent_evaluates P σ (text_payload "abc")
                  [("text", EArray [rude])] None (TPrim (PStr "abc"))
                  σ' merged eq_refl Hmerge) as Hrun.
    change (type_of (text_payload "abc")) with "text" in Hrun.
    rewrite (Hrules "text") in Hrun by (intros [? [=]]).
    apply (f_equal snd) in Hrun. exact Hrun.
Qed.

(** Apart from these two cases the fallback is the identity: when the
    rules of the kind are evaluated and none processes the content, the
    base content is delivered. *)
Lemma identity_fallback (P : string → parse_result) (σ : store) (r : Response)
    (parsers : list (string * entry)) (callback : option callback_fn)
    (content : tree) (σ' : store) (merged : object) (rules : list ruleObj) :
  extract P (type_of r) (body r) = Return content →
  mergedParsers P parsers σ = (σ', Return merged) →
  typeRules merged σ' (type_of r) = RArray rules →
  Forall (λ q, skipped q content) rules →
  outcome (parseContent P σ (Some r) parsers callback)
  = (deliver callback content).2.
Proof.
  intros Hx Hmerge Hrules Hskip.
  pose proof (parseContent_evaluates P σ r parsers callback content σ' merged
                Hx Hmerge) as Hrun.
  apply (f_equal snd) in Hrun. cbn [snd] in Hrun. rewrite Hrun, Hrules.
  pose proof (run_rules_none rules content Hskip) as Hnone.
  unfold resolve_rules. destruct rules as [|q rest]; [done|].
  destruct (run_rules (q :: rest) content) as [warnings c].
  simpl in Hnone. subst c. simpl.
  by destruct (deliver callback content).
Qed.

(** The loop throws nothing but the error of its own handler, and the
    merge nothing but the error of [unshift]. *)
Lemma run_rules_raises (rules : list ruleObj) (content : tree)
    (warnings : list event) (e : thrown) :
  run_rules rules content = (warnings, Raise e) →
  e = TypeError "Cannot read properties of null (reading 'message')".
Proof.
  revert warnings. induction rules as [|q rules IH]; intros warnings; simpl;
    [done|].
  destruct (attempt q content) as [[result|]|err]; [done|apply IH|].
  destruct err as [name m|]; simpl.
  - destruct (run_rules rules content) as [warnings' c] eqn:Hrest.
    intros [= <- ->]. by eapply IH.
  - by intros [= <- <-].
Qed.

Lemma steps_raises (parsers : list (string * entry)) (v : view) (e : thrown) :
  steps parsers v = Raise e →
  e = TypeError "mergedParsers[type].unshift is not a function".
Proof.
  revert v. induction parsers as [|[key entry] parsers IH]; intros v; simpl;
    [done|].
  unfold entry_step. destruct (items entry) as [rules|]; simpl; [|apply IH].
  destruct (v key); simpl; [apply IH|]. by intros [= <-].
Qed.

(** C10. A payload without a kind, or with an empty one, is resolved as a
    payload of kind [text]. Its base content is the body as it is, so the
    decode error is never raised by the call (a callback can throw what it
    likes), even when the body is a text that is not JSON. The call is the
    call on the same body with the kind [text]. The rules it consults are
    the caller's rules for [text] followed by the built-in rule of [text],
    and when the caller has none for [text] it hands the body to the
    callback and returns it. *)
Theorem C10_absent_type_is_text (P : string → parse_result) (σ : store)
    (r : Response) (parsers : list (string * entry))
    (callback : option callback_fn) :
  type r = None ∨ type r = Some EmptyString →
  let run := parseContent P σ (Some r) parsers callback in
  extract P (type_of r) (body r) = Return (body r) ∧
  run = parseContent P σ (Some {| type := Some "text"; body := body r |})
          parsers callback ∧
  (∀ m, outcome run = Raise (ContentDecodeError m) →
        ∃ cb args, callback = Some cb ∧ cb args = Raise (ContentDecodeError m)) ∧
  (mergeable parsers →
   (log run, outcome run)
   = resolve_rules (RArray (custom_rules parsers "text" ++ [default_text]))
       (body r) callback ∧
   (custom_rules parsers "text" = [] →
    (log run, outcome run)
    = match callback with
      | Some cb =>
        ([Callback [AValue (body r)]], (λ _, body r) <$> cb [AValue (body r)])
      | None => ([], Return (body r))
      end)).
Proof.
  intros Hkind run.
  assert (type_of r = "text") as Htype.
  { unfold type_of. by destruct Hkind as [-> | ->]. }
  assert (extract P (type_of r) (body r) = Return (body r)) as Hx.
  { by rewrite Htype. }
  assert (run = parseContent P σ (Some {| type := Some "text"; body := body r |})
                  parsers callback) as Hsame.
  { unfold run, parseContent. by rewrite Htype. }
  assert (mergeable parsers →
          (log run, outcome run)
          = resolve_rules (RArray (custom_rules parsers "text" ++ [default_text]))
              (body r) callback) as Hrules.
  { intros Hm.
    destruct (parseContent_rules P σ r parsers callback (body r) Hm)
      as [Hrun _]; [rewrite Htype; intros [? [=]]|exact Hx|].
    fold run in Hrun. by rewrite Htype in Hrun. }
  split; [exact Hx|]. split; [exact Hsame|]. split; [|split].
  - intros m Hout.
    destruct (parseContent_view_eq P σ (Some r) parsers callback) as [Hrun _].
    fold run in Hrun. unfold parseContent_view in Hrun. rewrite Hx in Hrun.
    destruct (steps parsers (default_view P)) as [v|e] eqn:Hsteps.
    + assert (∀ result,
                (log run, outcome run) = deliver callback result →
                ∃ cb args, callback = Some cb ∧
                           cb args = Raise (ContentDecodeError m)) as Hdeliver.
      { intros result Hres. apply (f_equal snd) in Hres. cbn [snd] in Hres.
        rewrite Hout in Hres. symmetry in Hres. by eapply deliver_raises. }
      destruct (v (type_of r)) as [[|q rules]|[[|n]|]];
        unfold resolve_rules in Hrun; cbv beta iota in Hrun.
      * by eapply Hdeliver.
      * destruct (run_rules (q :: rules) (body r)) as [ws [processed|e]]
          eqn:Hloop.
        -- destruct (deliver callback (default (body r) processed))
             as [ws' c] eqn:Hd.
           injection Hrun as _ Hrun. rewrite Hout in Hrun. subst c.
           apply (deliver_raises callback (default (body r) processed)).
           by rewrite Hd.
        -- apply run_rules_raises in Hloop as ->.
           injection Hrun as _ Hrun. by rewrite Hout in Hrun.
      * by eapply Hdeliver.
      * injection Hrun as _ Hrun. by rewrite Hout in Hrun.
      * injection Hrun as _ Hrun. by rewrite Hout in Hrun.
    + apply steps_raises in Hsteps as ->. injection Hrun as _ Hrun.
      by rewrite Hout in Hrun.
  - exact (Hrules ltac:(assumption)).
  - intros Hnone. rewrite (Hrules ltac:(assumption)), Hnone. simpl.
    destruct callback as [cb|]; [|done].
    unfold deliver, invoke. by destruct (cb _).
Qed.

Lemma C10_absent_type_is_text_witness :
  let r := {| type := None; body := TPrim (PStr "not json") |} in
  let parsers := [("json", EArray [failing_rule]); ("text", EArray [shout])] in
  let run := parseContent JsonText.parse [] (Some r) parsers None in
  (type r = None ∨ type r = Some EmptyString) ∧
  outcome run = Return (TPrim (PStr "NOT JSON")) ∧
  extract JsonText.parse (type_of r) (body r) = Return (body r) ∧
  run = parseContent JsonText.parse []
          (Some {| type := Some "text"; body := body r |}) parsers None ∧
  (∀ m, outcome run = Raise (ContentDecodeError m) →
        ∃ cb args, @None callback_fn = Some cb ∧
                   cb args = Raise (ContentDecodeError m)) ∧
  (mergeable parsers →
   (log run, outcome run)
   = resolve_rules (RArray (custom_rules parsers "text" ++ [default_text]))
       (body r) None ∧
   (custom_rules parsers "text" = [] →
    (log run, outcome run) = ([], Return (body r)))).
Proof.
  intros r parsers run.
  assert (type r = None ∨ type r = Some EmptyString) as Hkind by (by left).
  split; [exact Hkind|]. split; [reflexivity|].
  exact (C10_absent_type_is_text JsonText.parse [] r parsers None Hkind).
Defined.

(** * Proofs about [quickFind] *)

(** ** Strings *)

Lemma length_append (x y : string) :
  String.length (x +:+ y) = String.length x + String.length y.
Proof. induction x as [|c x IH]; simpl; [done|by rewrite IH]. Qed.

Lemma substring_append_l (x y : string) :
  String.substring 0 (String.length x) (x +:+ y) = x.
Proof.
  induction x as [|c x IH]; simpl.
  - by destruct y.
  - by rewrite IH.
Qed.

Lemma substring_append_r (x y : string) (n m : nat) :
  String.substring (String.length x + n) m (x +:+ y) = String.substring n m y.
Proof. induction x as [|c x IH]; simpl; done. Qed.

Lemma substring_whole (s : string) :
  String.substring 0 (String.length s) s = s.
Proof. induction s as [|c s IH]; simpl; [done|by rewrite IH]. Qed.

(** The text of a match has at most the length the matcher gave, and it is
    what stands in the text at its index. *)
Lemma substring_length (s : string) (i n : nat) :
  String.length (String.substring i n s) ≤ n.
Proof.
  revert i n. induction s as [|c s IH]; intros [|i] [|n]; simpl; try lia.
  - specialize (IH 0 n). lia.
  - apply IH.
  - apply IH.
Qed.

Lemma substring_again (s : string) (i n : nat) :
  String.substring i (String.length (String.substring i n s)) s
  = String.substring i n s.
Proof.
  revert i n. induction s as [|c s IH]; intros [|i] [|n]; simpl; try done.
  by rewrite IH.
Qed.

Lemma substring_empty (s : string) (i : nat) :
  String.substring i 0 s = EmptyString.
Proof. revert i. induction s as [|c s IH]; intros [|i]; simpl; done. Qed.

Lemma prefix_slash (s : string) : String.prefix "/" (String slash s) = true.
Proof. simpl. by destruct s. Qed.

Lemma prefix_slash_inv (s : string) :
  String.prefix "/" s = true → ∃ rest, s = String slash rest.
Proof.
  intros Hprefix%String.prefix_correct. destruct s as [|c s]; [done|].
  simpl in Hprefix. rewrite substring_empty in Hprefix.
  injection Hprefix as ->. by exists s.
Qed.

Lemma is_flag_slash : is_flag slash = false.
Proof. reflexivity. Qed.

Lemma lastIndexOf_bounds (c : Ascii.ascii) (s : string) :
  (-1 ≤ lastIndexOf c s < Z.of_nat (String.length s))%Z.
Proof.
  induction s as [|a s IH]; simpl; [lia|].
  destruct (0 <=? lastIndexOf c s)%Z eqn:Hk; [lia|].
  destruct (decide (a = c)); lia.
Qed.

Lemma lastIndexOf_flags (flags : string) :
  flags_only flags = true → lastIndexOf slash flags = (-1)%Z.
Proof.
  induction flags as [|a flags IH]; simpl; [done|].
  intros [Ha Hflags]%andb_true_iff. rewrite (IH Hflags). simpl.
  destruct (decide (a = slash)) as [->|]; [|done].
  by rewrite is_flag_slash in Ha.
Qed.

Lemma lastIndexOf_append (c : Ascii.ascii) (x y : string) :
  lastIndexOf c y = (-1)%Z →
  lastIndexOf c (x +:+ String c y) = Z.of_nat (String.length x).
Proof.
  intros Hy. induction x as [|a x IH]; simpl.
  - rewrite Hy. simpl. by rewrite decide_True.
  - rewrite IH. destruct (0 <=? Z.of_nat (String.length x))%Z eqn:Hk; lia.
Qed.

Lemma literal_tail_append (x flags : string) :
  flags_only flags = true → literal_tail (x +:+ String slash flags) = true.
Proof.
  intros Hflags. induction x as [|a x IH]; simpl.
  - by rewrite Hflags.
  - rewrite IH. apply orb_true_r.
Qed.

Lemma literal_tail_inv (s : string) :
  literal_tail s = true →
  ∃ x flags, s = x +:+ String slash flags ∧ flags_only flags = true.
Proof.
  induction s as [|a s IH]; simpl; [done|].
  intros [[Ha Hflags]%andb_true_iff|Htail]%orb_true_iff.
  - apply bool_decide_eq_true in Ha as ->. by exists EmptyString, s.
  - destruct (IH Htail) as (x & flags & -> & Hflags).
    by exists (String a x), flags.
Qed.

Lemma slice_position_inside (len : nat) (k : nat) :
  k ≤ len → slice_position len (Z.of_nat k) = k.
Proof.
  intros Hk. unfold slice_position.
  destruct (Z.ltb_spec (Z.of_nat k) 0); lia.
Qed.

(** The two slices of a literal give back its body and its flags. *)
Lemma slice_body (x flags : string) :
  flags_only flags = true →
  let s := String slash (x +:+ String slash flags) in
  slice s 1 (lastIndexOf slash s) = x ∧
  slice_from s (lastIndexOf slash s + 1) = flags.
Proof.
  intros Hflags s.
  assert (lastIndexOf slash s = Z.of_nat (S (String.length x))) as ->.
  { apply (lastIndexOf_append slash (String slash x) flags).
    by apply lastIndexOf_flags. }
  unfold slice, slice_from, s.
  cbn [String.length]. rewrite length_append. cbn [String.length].
  change 1%Z with (Z.of_nat 1).
  rewrite <- Nat2Z.inj_add.
  rewrite !slice_position_inside by lia.
  split.
  - replace (S (String.length x) - 1) with (String.length x) by lia.
    cbn [String.substring]. apply substring_append_l.
  - replace (S (String.length x) + 1) with (S (String.length x + 1)) by lia.
    replace (S (String.length x + S (String.length flags))
             - S (String.length x + 1)) with (String.length flags) by lia.
    cbn [String.substring].
    rewrite (substring_append_r x (String slash flags) 1 (String.length flags)).
    cbn [String.substring]. apply substring_whole.
Qed.

(** A lone slash followed by flag letters: the last slash is the first
    character, the body is empty and the rest is the flags. *)
Lemma slice_lone (flags : string) :
  flags_only flags = true →
  let s := String slash flags in
  slice s 1 (lastIndexOf slash s) = EmptyString ∧
  slice_from s (lastIndexOf slash s + 1) = flags.
Proof.
  intros Hflags s.
  assert (lastIndexOf slash s = 0%Z) as ->.
  { unfold s. simpl. by rewrite (lastIndexOf_flags flags Hflags). }
  unfold slice, slice_from, s. cbn [String.length].
  change (0 + 1)%Z with (Z.of_nat 1). change 1%Z with (Z.of_nat 1).
  change 0%Z with (Z.of_nat 0).
  rewrite !slice_position_inside by lia.
  split.
  - simpl. by destruct flags.
  - replace (S (String.length flags) - 1) with (String.length flags) by lia.
    cbn [String.substring]. apply substring_whole.
Qed.

(** ** [exec] *)

Lemma set_lastIndex_same (r : RegExp) : set_lastIndex r (lastIndex r) = r.
Proof. by destruct r. Qed.

Lemma set_lastIndex_twice (r : RegExp) (n n' : nat) :
  set_lastIndex (set_lastIndex r n) n' = set_lastIndex r n'.
Proof. done. Qed.

Lemma first_match_Some (m : matcher) (s : string) (i n j len : nat) :
  first_match m s i n = Some (j, len) →
  i ≤ j ≤ i + n ∧ m s j = Some len ∧ ∀ k, i ≤ k < j → m s k = None.
Proof.
  revert i. induction n as [|n IH]; intros i; simpl.
  - destruct (m s i) as [len'|] eqn:Hm; [|done].
    intros [= <- <-]. repeat split; [lia|lia|done|intros k ?; lia].
  - destruct (m s i) as [len'|] eqn:Hm.
    + intros [= <- <-]. repeat split; [lia|lia|done|intros k ?; lia].
    + intros (Hj & Hlen & Hgap)%IH. repeat split; [lia|lia|done|].
      intros k Hk. destruct (decide (k = i)) as [->|]; [done|].
      apply Hgap. lia.
Qed.

Lemma first_match_None (m : matcher) (s : string) (i n : nat) :
  first_match m s i n = None → ∀ k, i ≤ k ≤ i + n → m s k = None.
Proof.
  revert i. induction n as [|n IH]; intros i; simpl.
  - destruct (m s i) eqn:Hm; [done|]. intros _ k Hk.
    by replace k with i by lia.
  - destruct (m s i) eqn:Hm; [done|]. intros Hrest k Hk.
    destruct (decide (k = i)) as [->|]; [done|].
    apply (IH _ Hrest). lia.
Qed.

(** A failed [exec] on a global object: there is no match from [lastIndex]
    on, and the object is back at index [0]. *)
Lemma RegExpBuiltinExec_None (r r' : RegExp) (s : string) :
  global r = true →
  RegExpBuiltinExec r s = (r', None) →
  r' = set_lastIndex r 0 ∧
  (sticky r = false →
   ∀ k, lastIndex r ≤ k ≤ String.length s → regexp_matcher r s k = None).
Proof.
  intros Hg. unfold RegExpBuiltinExec. rewrite Hg. cbn [orb].
  destruct (decide (String.length s < lastIndex r)) as [Hlong|Hin].
  - intros [= <-]. split; [done|]. intros _ k Hk. lia.
  - destruct (sticky r) eqn:Hy.
    + destruct (regexp_matcher r s (lastIndex r)); simpl; [done|].
      by intros [= <-].
    + destruct (first_match _ _ _ _) as [[j len]|] eqn:Hfirst; [done|].
      intros [= <-]. split; [done|]. intros _ k Hk.
      apply (first_match_None _ _ _ _ Hfirst). lia.
Qed.

(** A successful [exec] on a global object: the match is the first one from
    [lastIndex] on, and the object stands at its end. *)
Lemma RegExpBuiltinExec_Some (r r' : RegExp) (s : string) (m : hit) :
  global r = true →
  RegExpBuiltinExec r s = (r', Some m) →
  ∃ len,
    lastIndex r ≤ hit_index m ≤ String.length s ∧
    (∀ k, lastIndex r ≤ k < hit_index m → regexp_matcher r s k = None) ∧
    regexp_matcher r s (hit_index m) = Some len ∧
    hit_text m = String.substring (hit_index m) len s ∧
    r' = set_lastIndex r (hit_index m + len).
Proof.
  intros Hg. unfold RegExpBuiltinExec. rewrite Hg. cbn [orb].
  destruct (decide (String.length s < lastIndex r)) as [Hlong|Hin]; [done|].
  destruct (sticky r) eqn:Hy.
  - destruct (regexp_matcher r s (lastIndex r)) as [len|] eqn:Hm; simpl; [|done].
    intros [= <- <-]. exists len. simpl.
    repeat split; [lia|lia|intros k ?; lia|done].
  - destruct (first_match _ _ _ _) as [[j len]|] eqn:Hfirst; [|done].
    intros [= <- <-]. exists len. simpl.
    apply first_match_Some in Hfirst as (Hj & Hlen & Hgap).
    repeat split; [lia|lia|done|done].
Qed.

Lemma RegExpBuiltinExec_same_object (r : RegExp) (s : string) :
  ∃ n, (RegExpBuiltinExec r s).1 = set_lastIndex r n.
Proof.
  unfold RegExpBuiltinExec.
  set (found := if decide (String.length s < _) then _ else _).
  destruct found as [[i len]|], (global r || sticky r); simpl.
  - by exists (i + len).
  - exists (lastIndex r). by rewrite set_lastIndex_same.
  - by exists 0.
  - exists (lastIndex r). by rewrite set_lastIndex_same.
Qed.

(** ** The [while] loop *)

Lemma leftmost_from_pattern (m : matcher) (s name : string) (i : nat)
    (matches : list found) :
  leftmost_from m s name i matches →
  Forall (λ f, found_pattern f = name) matches.
Proof.
  revert i. induction matches as [|f matches IH]; intros i; simpl; [done|].
  intros (len & _ & _ & _ & _ & Hname & Hrest). constructor; [done|].
  by eapply IH.
Qed.

(** Every match carries the text that stands at its index. *)
Lemma leftmost_from_genuine (m : matcher) (s name : string) (i : nat)
    (matches : list found) :
  leftmost_from m s name i matches →
  Forall (λ f, String.substring (found_index f)
                 (String.length (found_value f)) s = found_value f) matches.
Proof.
  revert i. induction matches as [|f matches IH]; intros i; simpl; [done|].
  intros (len & _ & _ & _ & Hvalue & _ & Hrest). constructor; [|by eapply IH].
  rewrite Hvalue. apply substring_again.
Qed.

Section Collect.
Variables (stringContent : prim) (s patternName : string) (maxMatches : Z).
Hypothesis Htext : prim_ToString stringContent = Return s.

Lemma exec_text (r : RegExp) :
  exec r stringContent = Return (RegExpBuiltinExec r s).
Proof. unfold exec. by rewrite Htext. Qed.

Lemma collect_spec (fuel : nat) (r : RegExp) (acc : list found) (count : Z)
    (r' : RegExp) (out : res (list found)) :
  global r = true →
  Z.to_nat (maxMatches - count) < fuel →
  collect fuel stringContent patternName maxMatches r acc count = (r', out) →
  ∃ new n,
    out = Ok (acc ++ new) ∧
    r' = set_lastIndex r n ∧
    length new ≤ Z.to_nat (maxMatches - count) ∧
    leftmost_from (regexp_matcher r) s patternName (lastIndex r) new ∧
    (length new < Z.to_nat (maxMatches - count) →
     n = 0 ∧
     (sticky r = false →
      ∀ k, end_of (regexp_matcher r) s (lastIndex r) new ≤ k ≤ String.length s →
           regexp_matcher r s k = None)).
Proof.
  revert r acc count. induction fuel as [|fuel IH]; intros r acc count Hg Hfuel;
    [lia|].
  simpl. rewrite exec_text.
  destruct (RegExpBuiltinExec r s) as [r1 [m|]] eqn:Hexec.
  - apply RegExpBuiltinExec_Some in Hexec
      as (len & Hidx & Hgap & Hm & Htxt & ->); [|done].
    destruct (Z.ltb_spec count maxMatches) as [Hlt|Hge].
    + intros Hrun. apply IH in Hrun as (new & n & -> & -> & Hlen & Hleft & Hend);
        [|done|lia].
      exists ({| found_index := hit_index m; found_value := hit_text m;
                 found_pattern := patternName |} :: new), n.
      split; [by rewrite <- app_assoc|]. split; [done|].
      split; [simpl; lia|]. split.
      * exists len. simpl. repeat split; try done. lia.
      * simpl. rewrite Hm. simpl. intros Hshort. apply Hend. lia.
    + intros [= <- <-]. exists [], (hit_index m + len).
      rewrite app_nil_r. repeat split; simpl; try done; lia.
  - apply RegExpBuiltinExec_None in Hexec as [-> Hnone]; [|done].
    intros [= <- <-]. exists [], 0. rewrite app_nil_r.
    repeat split; simpl; try done; lia.
Qed.

(** Once a match is empty the object stays where it is, and the loop
    collects that match until the limit. *)
Lemma collect_empty (fuel : nat) (r : RegExp) (acc : list found) (count : Z) :
  global r = true →
  lastIndex r ≤ String.length s →
  regexp_matcher r s (lastIndex r) = Some 0 →
  Z.to_nat (maxMatches - count) < fuel →
  collect fuel stringContent patternName maxMatches r acc count
  = (r, Ok (acc ++ replicate (Z.to_nat (maxMatches - count))
                     {| found_index := lastIndex r;
                        found_value := EmptyString;
                        found_pattern := patternName |})).
Proof.
  intros Hg Hin Hm.
  assert (RegExpBuiltinExec r s
          = (r, Some {| hit_index := lastIndex r; hit_text := EmptyString |}))
    as Hexec.
  { unfold RegExpBuiltinExec. rewrite Hg. cbn [orb].
    rewrite decide_False by lia.
    pose proof (substring_empty s (lastIndex r)) as Hsub.
    destruct (sticky r).
    - rewrite Hm. simpl. rewrite Hsub, Nat.add_0_r.
      by rewrite set_lastIndex_same.
    - destruct (String.length s - lastIndex r); simpl; rewrite Hm;
        rewrite Hsub, Nat.add_0_r; by rewrite set_lastIndex_same. }
  revert acc count. induction fuel as [|fuel IH]; intros acc count Hfuel; [lia|].
  simpl. rewrite exec_text, Hexec.
  destruct (Z.ltb_spec count maxMatches) as [Hlt|Hge].
  - rewrite IH by lia. simpl.
    replace (Z.to_nat (maxMatches - count))
      with (S (Z.to_nat (maxMatches - (count + 1)))) by lia.
    simpl. by rewrite <- app_assoc.
  - replace (Z.to_nat (maxMatches - count)) with 0 by lia.
    simpl. by rewrite app_nil_r.
Qed.
End Collect.

(** Whatever happens, the loop changes nothing of the object but its
    [lastIndex]. *)
Lemma collect_same_object (fuel : nat) (text : prim) (name : string)
    (maxMatches : Z) (r : RegExp) (acc : list found) (count : Z)
    (r' : RegExp) (out : res (list found)) :
  collect fuel text name maxMatches r acc count = (r', out) →
  ∃ n, r' = set_lastIndex r n.
Proof.
  revert r acc count. induction fuel as [|fuel IH]; intros r acc count; simpl.
  - intros [= <- <-]. exists (lastIndex r). by rewrite set_lastIndex_same.
  - unfold exec. destruct (prim_ToString text) as [s|e]; simpl.
    + destruct (RegExpBuiltinExec_same_object r s) as [n Hn].
      destruct (RegExpBuiltinExec r s) as [r1 [m|]]; simpl in Hn; subst r1.
      * destruct (count <? maxMatches)%Z.
        -- intros [n' ->]%IH. by exists n'.
        -- intros [= <- <-]. by exists n.
      * intros [= <- <-]. by exists n.
    + intros [= <- <-]. exists (lastIndex r). by rewrite set_lastIndex_same.
Qed.

(** The loop ends, and it throws only what the conversion of the text to a
    string throws. *)
Lemma collect_ends (fuel : nat) (text : prim) (name : string)
    (maxMatches : Z) (r : RegExp) (acc : list found) (count : Z) :
  Z.to_nat (maxMatches - count) < fuel →
  match (collect fuel text name maxMatches r acc count).2 with
  | Ok _ => True
  | Throw e => prim_ToString text = Raise e
  | _ => False
  end.
Proof.
  revert r acc count. induction fuel as [|fuel IH]; intros r acc count Hfuel;
    [lia|].
  simpl. unfold exec. destruct (prim_ToString text) as [s|e]; simpl; [|done].
  destruct (RegExpBuiltinExec r s) as [r1 [m|]]; [|done].
  destruct (Z.ltb_spec count maxMatches); [|done].
  apply IH. lia.
Qed.

(** ** The [results] object *)






Lemma Forall_set_property (P : string * tree → Prop) (key : string) (v : tree)
    (props : list (string * tree)) :
  Forall P props → P (key, v) → Forall P (JsonText.set_property key v props).
Proof.
  intros Hprops Hv. unfold JsonText.set_property.
  destruct (assoc key props).
  - induction Hprops as [|[k w] props Hw Hprops IH]; simpl; [done|].
    destruct (decide (k = key)) as [->|]; by constructor.
  - destruct (JsonText.array_index key) as [n|].
    + induction Hprops as [|[k w] props Hw Hprops IH]; simpl.
      * by constructor.
      * destruct (JsonText.array_index k) as [m|];
          [destruct (bool_decide (m < n)%Z)|]; by repeat constructor.
    + apply Forall_app. by repeat constructor.
Qed.

(** ** The text of the report *)

Lemma json_property_matches (matches : list found) :
  json_property (matches_tree matches)
  = Return (Some (match matches with
                  | [] => "null"
                  | _ => array_text (found_text <$> matches)
                  end)).
Proof.
  assert (tree_elements json_property (map found_tree matches)
          = Return (found_text <$> matches)) as Helems.
  { induction matches as [|m matches IH]; simpl; [done|]. by rewrite IH. }
  destruct matches as [|m matches]; [done|].
  unfold matches_tree. cbn [json_property]. by rewrite Helems.
Qed.

(** ** The [for ... of] loop *)

Section Search.
Variable RegExp_matcher : string → string → completion matcher.

Lemma globalRegEx_global (origin : option loc) (regex : RegExp) :
  global (globalRegEx origin regex).2 = true.
Proof. unfold globalRegEx. by destruct (global regex) eqn:Hg. Qed.

(** The object searched is the caller's only when the pattern is a global
    [RegExp] object. *)
Lemma globalRegEx_origin (ρ : regexps) (pattern : pattern_value)
    (origin origin' : option loc) (regex r : RegExp) (l : loc) :
  regex_of RegExp_matcher ρ pattern = Ok (origin, regex) →
  globalRegEx origin regex = (Some l, r) →
  pattern = PatRegExp l ∧ ρ !! l = Some r ∧ global r = true.
Proof.
  intros Hregex. unfold globalRegEx.
  destruct (global regex) eqn:Hg; [|done]. intros [= -> ->].
  destruct pattern as [l'|p]; simpl in Hregex.
  - destruct (ρ !! l') eqn:Hl; by simplify_eq.
  - destruct p; try (destruct (lift _); by simplify_eq).
    destruct (_ && _); destruct (lift _); by simplify_eq.
Qed.

(** Compiling a pattern that is not an object returns a new object or
    throws. *)
Lemma regex_of_prim (ρ : regexps) (p : prim) :
  match regex_of RegExp_matcher ρ (PatPrim p) with
  | Ok (None, _) | Throw _ => True
  | _ => False
  end.
Proof.
  assert (∀ c : completion RegExp,
            match lift c ≫= (λ r, Ok (@None loc, r)) with
            | Ok (None, _) | Throw _ => True
            | _ => False
            end) as Hnew by (by intros []).
  destruct p as [| | | | |s|]; cbn [regex_of]; try apply Hnew.
  destruct (String.prefix "/" s && literal_tail s); apply Hnew.
Qed.

Lemma collect_text (fuel : nat) (text text' : prim) (name : string)
    (maxMatches : Z) (r : RegExp) (acc : list found) (count : Z) :
  prim_ToString text = prim_ToString text' →
  collect fuel text name maxMatches r acc count
  = collect fuel text' name maxMatches r acc count.
Proof.
  intros Htext. revert r acc count.
  induction fuel as [|fuel IH]; intros r acc count; simpl; [done|].
  unfold exec. rewrite Htext.
  destruct (prim_ToString text') as [s|e]; simpl; [|done].
  destruct (RegExpBuiltinExec r s) as [r1 [m|]]; [|done].
  destruct (count <? maxMatches)%Z; [apply IH|done].
Qed.

Lemma search_one_text (text text' : prim) (maxMatches : Z) (name : string)
    (pattern : pattern_value) (ρ : regexps) (results : list (string * tree)) :
  prim_ToString text = prim_ToString text' →
  search_one RegExp_matcher text maxMatches name pattern ρ results
  = search_one RegExp_matcher text' maxMatches name pattern ρ results.
Proof.
  intros Htext. unfold search_one.
  destruct (regex_of _ _ _) as [[origin regex]| | |]; try done.
  destruct (globalRegEx origin regex) as [origin' r].
  by rewrite (collect_text _ text text').
Qed.

Lemma search_all_text (text text' : prim) (maxMatches : Z)
    (patterns : list (string * pattern_value)) (ρ : regexps)
    (results : list (string * tree)) :
  prim_ToString text = prim_ToString text' →
  search_all RegExp_matcher text maxMatches patterns ρ results
  = search_all RegExp_matcher text' maxMatches patterns ρ results.
Proof.
  intros Htext. revert ρ results.
  induction patterns as [|[name pattern] patterns IH]; intros ρ results; simpl;
    [done|].
  rewrite (search_one_text text text') by done.
  destruct (search_one _ _ _ _ _ _ _) as [ρ' [results'| | |]]; auto.
Qed.

(** One turn leaves every object of the store what it was, up to the
    [lastIndex] of the global object it has searched. *)
Lemma search_one_frame (text : prim) (maxMatches : Z) (name : string)
    (pattern : pattern_value) (ρ ρ' : regexps)
    (results : list (string * tree)) (out : res (list (string * tree))) :
  search_one RegExp_matcher text maxMatches name pattern ρ results = (ρ', out) →
  ∀ l r, ρ !! l = Some r →
    ∃ n, ρ' !! l = Some (set_lastIndex r n) ∧
         (global r = false ∨ pattern ≠ PatRegExp l → n = lastIndex r).
Proof.
  unfold search_one. intros Hrun l r Hl.
  assert (∃ n, ρ !! l = Some (set_lastIndex r n) ∧
               (global r = false ∨ pattern ≠ PatRegExp l → n = lastIndex r))
    as Hsame.
  { exists (lastIndex r). by rewrite set_lastIndex_same. }
  destruct (regex_of _ _ _) as [[origin regex]| | |] eqn:Hregex;
    try by simplify_eq.
  destruct (globalRegEx origin regex) as [[l'|] r0] eqn:Hglobal;
    destruct (collect _ _ _ _ _ _ _) as [r1 matches] eqn:Hloop;
    simplify_eq; simpl; [|done].
  destruct (globalRegEx_origin _ _ _ (Some l') _ _ _ Hregex Hglobal)
    as (-> & Hl' & Hg).
  destruct (collect_same_object _ _ _ _ _ _ _ _ _ Hloop) as [n ->].
  destruct (decide (l = l')) as [->|Hne].
  - simplify_eq. exists n. split.
    + apply list_lookup_insert_eq. by eapply lookup_lt_Some.
    + intros [?|?]; congruence.
  - by rewrite list_lookup_insert_ne.
Qed.

Lemma search_all_frame (text : prim) (maxMatches : Z)
    (patterns : list (string * pattern_value)) (ρ ρ' : regexps)
    (results : list (string * tree)) (out : res (list (string * tree))) :
  search_all RegExp_matcher text maxMatches patterns ρ results = (ρ', out) →
  ∀ l r, ρ !! l = Some r →
    ∃ n, ρ' !! l = Some (set_lastIndex r n) ∧
         (global r = false ∨ PatRegExp l ∉ patterns.*2 → n = lastIndex r).
Proof.
  revert ρ results.
  induction patterns as [|[name pattern] patterns IH]; intros ρ results; simpl.
  - intros [= <- <-] l r Hl. exists (lastIndex r).
    by rewrite set_lastIndex_same.
  - destruct (search_one _ _ _ _ _ _ _) as [ρ1 out1] eqn:Hone.
    pose proof (search_one_frame _ _ _ _ _ _ _ _ Hone) as Hframe1.
    assert (∀ l r, ρ !! l = Some r →
              ∃ n, ρ1 !! l = Some (set_lastIndex r n) ∧
                (global r = false ∨ PatRegExp l ∉ pattern :: patterns.*2
                 → n = lastIndex r)) as Hfirst.
    { intros l r Hl. destruct (Hframe1 l r Hl) as (n & Hn & Hkeep).
      exists n. split; [done|]. intros [?|Hnot]; apply Hkeep; [by left|right].
      intros ->. apply Hnot. by left. }
    destruct out1 as [results1| | |]; try (intros [= <- <-]; exact Hfirst).
    intros Hrest l r Hl.
    destruct (Hframe1 l r Hl) as (n & Hn & Hkeep).
    destruct (IH _ _ Hrest l _ Hn) as (n' & Hn' & Hkeep').
    exists n'. split; [done|]. intros Hcase.
    assert (n = lastIndex r) as ->.
    { apply Hkeep. destruct Hcase as [?|Hnot]; [by left|right].
      intros ->. apply Hnot. by left. }
    rewrite set_lastIndex_same in Hkeep'. apply Hkeep'.
    destruct Hcase as [?|Hnot]; [by left|right].
    intros ?. apply Hnot. by right.
Qed.

(** A turn that returns has assigned the matches of its pattern under its
    name. *)
Lemma search_one_Ok (text : prim) (maxMatches : Z) (name : string)
    (pattern : pattern_value) (ρ ρ' : regexps)
    (results results' : list (string * tree)) :
  search_one RegExp_matcher text maxMatches name pattern ρ results
  = (ρ', Ok results') →
  ∃ matches, results' = assign name (matches_tree matches) results ∧
             length matches ≤ Z.to_nat maxMatches ∧
             Forall (λ f, found_pattern f = name) matches.
Proof.
  unfold search_one.
  destruct (regex_of _ _ _) as [[origin regex]| | |] eqn:Hregex; try done.
  destruct (globalRegEx origin regex) as [origin' r] eqn:Hglobal.
  pose proof (globalRegEx_global origin regex) as Hg.
  rewrite Hglobal in Hg. cbn [snd] in Hg.
  destruct (collect _ _ _ _ _ _ _) as [r1 [matches|e| |]] eqn:Hloop; try done.
  intros [= <- <-].
  destruct (prim_ToString text) as [s|e] eqn:Htext.
  - destruct (collect_spec text s name maxMatches Htext
                (S (Z.to_nat maxMatches)) r [] 0%Z _ _ Hg
                ltac:(lia) Hloop) as (new & n & [= ->] & _ & Hlen & Hleft & _).
    exists new. split; [done|]. split.
    + by replace (maxMatches - 0)%Z with maxMatches in Hlen by lia.
    + by eapply leftmost_from_pattern.
  - exfalso. revert Hloop. simpl. unfold exec. rewrite Htext. by simpl.
Qed.

(** On a store that holds the objects of the patterns, a turn returns or
    throws. *)
Lemma search_one_ends (text : prim) (maxMatches : Z) (name : string)
    (pattern : pattern_value) (ρ : regexps) (results : list (string * tree)) :
  patterns_closed ρ [(name, pattern)] →
  match (search_one RegExp_matcher text maxMatches name pattern ρ results).2 with
  | Ok _ | Throw _ => True
  | _ => False
  end.
Proof.
  intros Hclosed%Forall_inv. unfold search_one.
  destruct (regex_of _ _ _) as [[origin regex]| | |] eqn:Hregex;
    cbn [snd]; try done.
  - destruct (globalRegEx origin regex) as [origin' r] eqn:Hglobal.
    pose proof (collect_ends (S (Z.to_nat maxMatches)) text name maxMatches
                  r [] 0 ltac:(lia)) as Hends.
    destruct (collect _ _ _ _ _ _ _) as [r1 [matches|e| |]]; done.
  - destruct pattern as [l|p].
    + simpl in Hregex. apply lookup_lt_is_Some_2 in Hclosed as [r Hr].
      by rewrite Hr in Hregex.
    + pose proof (regex_of_prim ρ p) as Hprim. by rewrite Hregex in Hprim.
  - destruct pattern as [l|p].
    + simpl in Hregex. by destruct (ρ !! l).
    + pose proof (regex_of_prim ρ p) as Hprim. by rewrite Hregex in Hprim.
Qed.

Lemma search_one_length (text : prim) (maxMatches : Z) (name : string)
    (pattern : pattern_value) (ρ : regexps) (results : list (string * tree)) :
  length (search_one RegExp_matcher text maxMatches name pattern ρ results).1
  = length ρ.
Proof.
  unfold search_one.
  destruct (regex_of _ _ _) as [[origin regex]| | |]; cbn [fst]; try done.
  destruct (globalRegEx origin regex) as [[l|] r];
    destruct (collect _ _ _ _ _ _ _) as [r1 matches]; simpl; [|done].
  by rewrite length_insert.
Qed.

(** A pattern that is not an object is searched without the store. *)
Lemma search_one_prim (text : prim) (maxMatches : Z) (name : string)
    (p : prim) (ρ : regexps) (results : list (string * tree)) :
  search_one RegExp_matcher text maxMatches name (PatPrim p) ρ results
  = (ρ, (search_one RegExp_matcher text maxMatches name (PatPrim p) []
           results).2).
Proof.
  unfold search_one.
  assert (regex_of RegExp_matcher ρ (PatPrim p)
          = regex_of RegExp_matcher [] (PatPrim p)) as -> by done.
  pose proof (regex_of_prim [] p) as Hprim.
  destruct (regex_of _ _ _) as [[[l|] regex]| | |]; try done.
  assert (∃ r, globalRegEx None regex = (None, r)) as [r ->].
  { unfold globalRegEx. destruct (global regex); by eexists. }
  by destruct (collect _ _ _ _ _ _ _).
Qed.

Lemma search_all_prims (text : prim) (maxMatches : Z)
    (patterns : list (string * pattern_value)) (ρ : regexps)
    (results : list (string * tree)) :
  (∀ l, PatRegExp l ∉ patterns.*2) →
  search_all RegExp_matcher text maxMatches patterns ρ results
  = (ρ, (search_all RegExp_matcher text maxMatches patterns [] results).2).
Proof.
  revert results.
  induction patterns as [|[name pattern] patterns IH]; intros results Hnone;
    [done|].
  destruct pattern as [l|p]; [destruct (Hnone l); by left|].
  cbn [search_all]. rewrite (search_one_prim _ _ _ _ ρ).
  rewrite (search_one_prim _ _ _ _ []).
  destruct (search_one _ _ _ _ _ _ _).2 as [results'|e| |]; try done.
  apply IH. intros l Hl. apply (Hnone l). by right.
Qed.

Lemma patterns_closed_length (ρ ρ' : regexps)
    (patterns : list (string * pattern_value)) :
  length ρ' = length ρ → patterns_closed ρ patterns → patterns_closed ρ' patterns.
Proof.
  intros Hlen Hclosed. unfold patterns_closed.
  eapply Forall_impl; [exact Hclosed|].
  intros [name [l|p]]; [|done]. by rewrite Hlen.
Qed.
End Search.

Section SearchAll.
Variable RegExp_matcher : string → string → completion matcher.

Lemma search_all_ends (text : prim) (maxMatches : Z)
    (patterns : list (string * pattern_value)) (ρ : regexps)
    (results : list (string * tree)) :
  patterns_closed ρ patterns →
  match (search_all RegExp_matcher text maxMatches patterns ρ results).2 with
  | Ok _ | Throw _ => True
  | _ => False
  end.
Proof.
  revert ρ results.
  induction patterns as [|[name pattern] patterns IH]; intros ρ results;
    [done|].
  intros [Hone Hclosed]%Forall_cons. cbn [search_all].
  pose proof (search_one_ends RegExp_matcher text maxMatches name pattern ρ
                results ltac:(by constructor)) as Hends.
  pose proof (search_one_length RegExp_matcher text maxMatches name pattern ρ
                results) as Hlen.
  destruct (search_one _ _ _ _ _ _ _) as [ρ1 [results1|e| |]];
    cbn [fst snd] in *; try done.
  apply IH. by eapply patterns_closed_length.
Qed.

(** The members of [results] stay what the loop makes them. *)
Lemma search_all_entries (text : prim) (maxMatches : Z)
    (patterns : list (string * pattern_value)) (ρ ρ' : regexps)
    (results results' : list (string * tree)) :
  Forall (λ '(name, t), entry_of maxMatches name t) results →
  search_all RegExp_matcher text maxMatches patterns ρ results
  = (ρ', Ok results') →
  Forall (λ '(name, t), entry_of maxMatches name t) results'.
Proof.
  revert ρ results.
  induction patterns as [|[name pattern] patterns IH]; intros ρ results Hresults.
  - by intros [= <- <-].
  - cbn [search_all].
    destruct (search_one _ _ _ _ _ _ _) as [ρ1 [results1|e| |]] eqn:Hone;
      try done.
    apply search_one_Ok in Hone as (matches & -> & Hbound & Hnames).
    apply IH. unfold assign. destruct (decide (name = "__proto__")); [done|].
    apply Forall_set_property; [done|]. by exists matches.
Qed.


Lemma length_set_property (key : string) (v : tree)
    (props : list (string * tree)) :
  length (JsonText.set_property key v props) ≤ S (length props).
Proof.
  unfold JsonText.set_property. destruct (assoc key props).
  - induction props as [|[k w] props IH]; simpl; [lia|].
    destruct (decide (k = key)); simpl; lia.
  - destruct (JsonText.array_index key) as [n|].
    + induction props as [|[k w] props IH]; simpl; [lia|].
      destruct (JsonText.array_index k) as [m|];
        [destruct (bool_decide (m < n)%Z)|]; simpl; lia.
    + rewrite length_app. simpl. lia.
Qed.

(** No more members than patterns. *)
Lemma search_all_length (text : prim) (maxMatches : Z)
    (patterns : list (string * pattern_value)) (ρ ρ' : regexps)
    (results results' : list (string * tree)) :
  search_all RegExp_matcher text maxMatches patterns ρ results
  = (ρ', Ok results') →
  length results' ≤ length results + length patterns.
Proof.
  revert ρ results.
  induction patterns as [|[key pattern] patterns IH]; intros ρ results.
  - intros [= <- <-]. lia.
  - cbn [search_all].
    destruct (search_one _ _ _ _ _ _ _) as [ρ1 [results1|e| |]] eqn:Hone;
      try done.
    apply search_one_Ok in Hone as (matches & -> & _).
    intros Hlen%IH. unfold assign in Hlen. simpl.
    destruct (decide (key = "__proto__")); [lia|].
    pose proof (length_set_property key (matches_tree matches) results). lia.
Qed.

Lemma assoc_None_keys {V} (k : string) (props : list (string * V)) :
  k ∉ props.*1 → assoc k props = None.
Proof.
  induction props as [|[k' v] props IH]; simpl; [done|].
  intros Hk. rewrite decide_False; [apply IH|]; set_solver.
Qed.

Lemma set_property_keys (key : string) (v : tree)
    (props : list (string * tree)) :
  key ∉ props.*1 → JsonText.array_index key = None →
  (JsonText.set_property key v props).*1 = props.*1 ++ [key].
Proof.
  intros Hnew Hplain. unfold JsonText.set_property.
  rewrite (assoc_None_keys key props Hnew), Hplain.
  by rewrite fmap_app.
Qed.

(** Names that are not array indices become members in the order of the
    patterns. *)
Lemma search_all_keys (text : prim) (maxMatches : Z)
    (patterns : list (string * pattern_value)) (ρ ρ' : regexps)
    (results results' : list (string * tree)) :
  NoDup (results.*1 ++ patterns.*1) →
  Forall (λ name, JsonText.array_index name = None) patterns.*1 →
  search_all RegExp_matcher text maxMatches patterns ρ results
  = (ρ', Ok results') →
  results'.*1
  = results.*1 ++ filter (λ name, name ≠ "__proto__") patterns.*1.
Proof.
  revert ρ results.
  induction patterns as [|[key pattern] patterns IH]; intros ρ results Hnd Hplain.
  - intros [= <- <-]. by rewrite app_nil_r.
  - cbn [search_all].
    destruct (search_one _ _ _ _ _ _ _) as [ρ1 [results1|e| |]] eqn:Hone;
      try done.
    apply search_one_Ok in Hone as (matches & -> & _).
    simpl in Hnd, Hplain. apply Forall_cons in Hplain as [Hkey Hplain].
    apply NoDup_app in Hnd as (Hnd1 & Hdisjoint & Hnd2).
    apply NoDup_cons in Hnd2 as [Hfresh Hnd2].
    assert (key ∉ results.*1) as Hnew.
    { intros Hin. apply (Hdisjoint key Hin). by left. }
    intros Hrest. simpl. rewrite filter_cons.
    unfold assign in Hrest.
    destruct (decide (key = "__proto__")) as [->|Hname].
    + rewrite decide_False by (by intros []).
      apply (IH ρ1 results); [|done|done].
      apply NoDup_app. split; [done|]. split; [|done].
      intros k Hk Hk'. apply (Hdisjoint k Hk). by right.
    + rewrite decide_True by done.
      assert (NoDup ((JsonText.set_property key (matches_tree matches)
                        results).*1 ++ patterns.*1)) as Hnd'.
      { rewrite set_property_keys by done. rewrite <- app_assoc. simpl.
        apply NoDup_app. split; [done|]. split; [|by constructor].
        intros k Hk Hk'. by apply (Hdisjoint k Hk). }
      rewrite (IH ρ1 _ Hnd' Hplain Hrest).
      rewrite set_property_keys by done. by rewrite <- app_assoc.
Qed.
End SearchAll.

(** ** The report *)

Lemma tree_members_results (maxMatches : Z) (results : list (string * tree)) :
  Forall (λ '(name, t), entry_of maxMatches name t) results →
  ∃ members, tree_members json_property results = Return members ∧
             length members = length results.
Proof.
  induction 1 as [|[name t] results (matches & -> & _) _ (members & IH & Hlen)];
    simpl.
  - by exists [].
  - rewrite json_property_matches, IH. simpl. eexists. split; [done|].
    simpl. by rewrite Hlen.
Qed.

Lemma JSON_text_report (maxMatches : Z) (results : list (string * tree))
    (executionTime : Z) (patternsProcessed : nat) :
  Forall (λ '(name, t), entry_of maxMatches name t) results →
  ∃ members,
    JSON_text (report_tree results
                 (stats_tree executionTime patternsProcessed))
    = Return (PStr (report_text members executionTime patternsProcessed)) ∧
    length members = length results.
Proof.
  intros (members & Hmembers & Hlen)%tree_members_results.
  unfold JSON_text, report_tree, stats_tree. cbn [json_property tree_members].
  rewrite Hmembers. simpl. by exists members.
Qed.

(** * Properties of [safeStringify] and [memoizedStringify] *)

(** X1. When and what [safeStringify] logs, on a well-formed heap whose
    objects define no conversion method of their own. It logs at most one
    line, and only when it falls back to [String(value)]. That happens in
    two cases: the encoder has met a [BigInt], or the value itself is an
    invalid date. The encoder's own error for a circular structure never
    occurs, and a date inside the value never makes the call fall back. *)
Theorem X1_fallback_causes (h : heap) (v : value) :
  heap_closed h → plain_heap h → value_closed h v →
  match safeStringify h v with
  | ([], r) => r = safeStringify_try h v ∧ ∃ p, r = Ok p
  | ([line], r) =>
    r = PStr <$> JsString h v ∧
    (line = "Error in safeStringify: Do not know how to serialize a BigInt" ∨
     line = "Error in safeStringify: Invalid time value" ∧
     ∃ l, v = VRef l ∧ h !! l = Some (ODate InvalidDate))
  | _ => False
  end.
Proof.
  intros Hh _ Hv. unfold safeStringify.
  assert (match safeStringify_try h v with
          | Ok _ => True
          | Throw e =>
            e = bigint_error ∨
            e = RangeError "Invalid time value" ∧
            ∃ l, v = VRef l ∧ h !! l = Some (ODate InvalidDate)
          | _ => False
          end) as Htry.
  { pose proof (JSON_stringify_post h Hh v Hv) as Hj.
    unfold safeStringify_try. destruct v as [p|l].
    - destruct p; try done;
        destruct (JSON_stringify h _) as [[]| | |]; try done; by left.
    - simpl in Hv. destruct (lookup_closed h Hh l Hv) as (o & Ho & _).
      rewrite Ho. destruct o as [[]|text|src|elems|props]; simpl; try done.
      + right. split; [done|]. by exists l.
      + destruct (JSON_stringify h _) as [[]| | |]; try done; by left.
      + destruct (JSON_stringify h _) as [[]| | |]; try done; by left. }
  destruct (safeStringify_try h v) as [p|e| |]; try done.
  - split; [done|]. by exists p.
  - destruct Htry as [->|[-> Hdate]]; simpl; (split; [done|]); [by left|by right].
Qed.

(** ** The cache *)

Lemma Map_find_set (key k : value) (v : prim) (m : cache) :
  Map_find k (Map_set key v m)
  = if decide (k = key) then Some v else Map_find k m.
Proof.
  induction m as [|[k' w] m IH]; simpl.
  - destruct (decide (key = k)) as [->|]; [by rewrite decide_True|].
    by rewrite (decide_False (P := k = key)) by congruence.
  - destruct (decide (k' = key)) as [->|Hne]; simpl.
    + destruct (decide (key = k)) as [->|]; [by rewrite decide_True|].
      by rewrite (decide_False (P := k = key)) by congruence.
    + rewrite IH. destruct (decide (k' = k)) as [->|]; [|done].
      by rewrite (decide_False (P := k = key)) by congruence.
Qed.

Lemma Map_has_find (key : value) (m : cache) :
  Map_has key m = true ↔ is_Some (Map_find key m).
Proof. unfold Map_has. apply bool_decide_eq_true. Qed.

(** What a call does when the value has an entry. *)
Lemma memoizedStringify_hit (h : heap) (m : cache) (v : value) (s : prim) :
  Map_find v m = Some s → memoizedStringify h m v = (m, ([], Ok s)).
Proof.
  intros Hfind. unfold memoizedStringify, Map_get.
  rewrite (proj2 (Map_has_find v m)) by (by rewrite Hfind).
  by rewrite Hfind.
Qed.

(** An entry, once written, stays as it is. *)
Lemma memoizedStringify_keeps (h : heap) (m : cache) (v k : value) (s : prim) :
  Map_find k m = Some s → Map_find k (memoizedStringify h m v).1 = Some s.
Proof.
  intros Hfind. unfold memoizedStringify.
  destruct (Map_has v m) eqn:Hhas; [done|].
  destruct (safeStringify h v) as [warnings [p|e| |]]; simpl; try done.
  rewrite Map_find_set. destruct (decide (k = v)) as [->|]; [|done].
  assert (Map_has v m = true) by (apply Map_has_find; by rewrite Hfind).
  congruence.
Qed.

Lemma cache_after_keeps (calls : list (heap * value)) (m : cache) (k : value)
    (s : prim) :
  Map_find k m = Some s → Map_find k (cache_after calls m) = Some s.
Proof.
  revert m. induction calls as [|[h v] calls IH]; intros m Hfind; [done|].
  apply IH. by apply memoizedStringify_keeps.
Qed.

(** What a returning call leaves in the cache. *)
Lemma memoizedStringify_stores (h : heap) (m m' : cache) (v : value)
    (warnings : list string) (s : prim) :
  memoizedStringify h m v = (m', (warnings, Ok s)) → Map_find v m' = Some s.
Proof.
  unfold memoizedStringify.
  destruct (Map_has v m) eqn:Hhas.
  - intros [= <- <- <-]. apply Map_has_find in Hhas as [s Hs].
    unfold Map_get. by rewrite Hs.
  - destruct (safeStringify h v) as [warnings' [p|e| |]]; try done.
    intros [= <- <- <-]. unfold Map_get.
    by rewrite !Map_find_set, decide_True.
Qed.

(** X2. The cache is keyed by the identity of the value and is never
    refreshed: once a call on a value has returned, every later call on it
    returns that same result and logs nothing, whatever the heap has become
    in the meantime (an object mutated after its first call is reported as
    it was) and whatever other calls have been made. *)
Theorem X2_memo_never_refreshed (h h' : heap) (m m' : cache) (v : value)
    (warnings : list string) (s : prim) (calls : list (heap * value)) :
  memoizedStringify h m v = (m', (warnings, Ok s)) →
  memoizedStringify h' (cache_after calls m') v
  = (cache_after calls m', ([], Ok s)).
Proof.
  intros Hfirst%memoizedStringify_stores.
  apply memoizedStringify_hit. by apply cache_after_keeps.
Qed.

(** X3. On a heap that does not change, memoization is transparent: after
    any calls on that heap, starting from the empty cache, a call returns
    what [safeStringify] returns on that heap. It logs what [safeStringify]
    logs, or nothing when the result comes from the cache. *)
Theorem X3_memo_transparent (h : heap) (before : list value) (v : value) :
  let m := cache_after ((λ v, (h, v)) <$> before) [] in
  let run := (memoizedStringify h m v).2 in
  run.2 = (safeStringify h v).2 ∧
  (run.1 = (safeStringify h v).1 ∨
   run.1 = [] ∧ Map_has v m = true).
Proof.
  intros m run.
  assert (∀ k s, Map_find k m = Some s → (safeStringify h k).2 = Ok s)
    as Hcoherent.
  { subst m. clear run v.
    assert (∀ m0 : cache,
              (∀ k s, Map_find k m0 = Some s → (safeStringify h k).2 = Ok s) →
              ∀ k s, Map_find k (cache_after ((λ v, (h, v)) <$> before) m0)
                     = Some s →
                     (safeStringify h k).2 = Ok s) as Hgen.
    { induction before as [|v before IH]; intros m0 Hm0; [done|].
      simpl. apply IH. intros k s. unfold memoizedStringify.
      destruct (Map_has v m0) eqn:Hhas; [apply Hm0|].
      destruct (safeStringify h v) as [warnings [p|e| |]] eqn:Hv; simpl;
        try apply Hm0.
      rewrite Map_find_set. destruct (decide (k = v)) as [->|]; [|apply Hm0].
      intros [= <-]. by rewrite Hv. }
    apply Hgen. intros k s [=]. }
  subst run. unfold memoizedStringify.
  destruct (Map_has v m) eqn:Hhas.
  - apply Map_has_find in Hhas as [s Hs]. unfold Map_get. rewrite Hs. simpl.
    split; [by rewrite (Hcoherent v s Hs)|]. by right.
  - destruct (safeStringify h v) as [warnings [p|e| |]]; simpl;
      (split; [|by left]); try done.
    unfold Map_get. by rewrite Map_find_set, decide_True.
Qed.

(** ** On examples *)

Lemma X1_fallback_causes_witness :
  heap_closed symbol_heap ∧ plain_heap symbol_heap ∧
  value_closed symbol_heap (VRef 0) ∧
  match safeStringify symbol_heap (VRef 0) with
  | ([], r) => r = safeStringify_try symbol_heap (VRef 0) ∧ ∃ p, r = Ok p
  | ([line], r) =>
    r = PStr <$> JsString symbol_heap (VRef 0) ∧
    (line = "Error in safeStringify: Do not know how to serialize a BigInt" ∨
     line = "Error in safeStringify: Invalid time value" ∧
     ∃ l, VRef 0 = VRef l ∧ symbol_heap !! l = Some (ODate InvalidDate))
  | _ => False
  end.
Proof.
  assert (heap_closed symbol_heap) as Hh by (repeat constructor).
  assert (plain_heap symbol_heap) as Hplain by (repeat constructor).
  assert (value_closed symbol_heap (VRef 0)) as Hv by (simpl; lia).
  split; [exact Hh|]. split; [exact Hplain|]. split; [exact Hv|].
  exact (X1_fallback_causes symbol_heap (VRef 0) Hh Hplain Hv).
Defined.

Lemma X2_memo_never_refreshed_witness :
  memoizedStringify before_heap [] (VRef 0)
  = ([(VRef 0, PStr before_text)], ([], Ok (PStr before_text))) ∧
  memoizedStringify after_heap (cache_after [] [(VRef 0, PStr before_text)])
    (VRef 0)
  = (cache_after [] [(VRef 0, PStr before_text)], ([], Ok (PStr before_text))).
Proof.
  assert (memoizedStringify before_heap [] (VRef 0)
          = ([(VRef 0, PStr before_text)], ([], Ok (PStr before_text))))
    as Hfirst by reflexivity.
  split; [exact Hfirst|].
  exact (X2_memo_never_refreshed before_heap after_heap [] _ (VRef 0) [] _ []
           Hfirst).
Defined.

(** * Properties of [quickFind] *)

Section QuickFindProperties.
Variable RegExp_matcher : string → string → completion matcher.

(** X4. A missing content is rejected before anything is looked at, and the
    empty string counts as missing: for [undefined], [null], [false], [0],
    [0n] and [''] the call throws [Content is required], the callback is
    not called and no object is touched. *)
Theorem X4_content_required (h : heap) (ρ : regexps) (startTime endTime : Z)
    (content : value) (patterns : list (string * pattern_value))
    (options : option Z) (callback : option callback_fn) :
  content ∈ falsy_values →
  quickFind RegExp_matcher h ρ startTime endTime content patterns options
    callback
  = {| final_regexps := ρ; events := [];
       returned := Throw (JsError "Error" "Content is required") |}.
Proof.
  unfold falsy_values. intros Hin.
  repeat (apply elem_of_cons in Hin as [->|Hin]; [done|]).
  by apply elem_of_nil in Hin.
Qed.

(** X5. How the text of a pattern is read. A text that begins with a slash
    and whose last slash is followed by letters of [gimuy] only is a
    literal: what stands between the first and the last slash is compiled
    as the pattern, what follows as the flags. When the first slash is also
    the last, as in ["/"] or ["/img"], the pattern is the empty one. These
    are the only texts read this way. *)
Theorem X5_pattern_literal (ρ : regexps) (body flags : string) :
  flags_only flags = true →
  regex_of RegExp_matcher ρ (PatPrim (PStr ("/" +:+ body +:+ "/" +:+ flags)))
  = (r ← lift (RegExp_new RegExp_matcher body flags); Ok (None, r)) ∧
  regex_of RegExp_matcher ρ (PatPrim (PStr ("/" +:+ flags)))
  = (r ← lift (RegExp_new RegExp_matcher EmptyString flags); Ok (None, r)) ∧
  ∀ s, String.prefix "/" s && literal_tail s = true →
       ∃ body' flags', flags_only flags' = true ∧
         (s = "/" +:+ flags' ∨ s = "/" +:+ body' +:+ "/" +:+ flags').
Proof.
  intros Hflags. split; [|split].
  - destruct (slice_body body flags Hflags) as [Hbody Htail].
    cbn [regex_of]. change ("/" +:+ body +:+ "/" +:+ flags)
      with (String slash (body +:+ String slash flags)).
    rewrite Hbody, Htail.
    assert (literal_tail (String slash (body +:+ String slash flags)) = true)
      as ->.
    { simpl. rewrite (literal_tail_append body flags Hflags).
      apply orb_true_r. }
    by rewrite prefix_slash.
  - destruct (slice_lone flags Hflags) as [Hbody Htail].
    cbn [regex_of]. change ("/" +:+ flags) with (String slash flags).
    rewrite Hbody, Htail.
    assert (literal_tail (String slash flags) = true) as ->.
    { simpl. by rewrite Hflags. }
    by rewrite prefix_slash.
  - intros s [Hprefix Htail]%andb_true_iff.
    apply prefix_slash_inv in Hprefix as [rest ->].
    simpl in Htail. apply orb_true_iff in Htail as [Hlone|Hrest].
    + exists EmptyString, rest. split; [done|by left].
    + apply literal_tail_inv in Hrest as (x & tail & -> & Htail).
      exists x, tail. split; [done|by right].
Qed.

(** X6. The search ends for every limit, whatever the patterns match, and
    when it returns it returns a string: on a well-formed heap and store,
    [quickFind] returns the text of its report or throws. *)
Theorem X6_quickFind_total (h : heap) (ρ : regexps) (startTime endTime : Z)
    (content : value) (patterns : list (string * pattern_value))
    (options : option Z) (callback : option callback_fn) :
  heap_closed h → value_closed h content → patterns_closed ρ patterns →
  let run := quickFind RegExp_matcher h ρ startTime endTime content patterns
               options callback in
  (∃ text, returned run = Ok (PStr text)) ∨ (∃ e, returned run = Throw e).
Proof.
  intros Hh Hcontent Hpatterns. unfold quickFind.
  destruct (value_truthy content); cbn [negb]; [|by right; eexists].
  assert (∃ warnings text,
            stringContent h content = (warnings, text) ∧
            match text with Ok _ | Throw _ => True | _ => False end)
    as (warnings & text & -> & Htext).
  { unfold stringContent.
    destruct (safeStringify_total h content Hh Hcontent)
      as (warnings & r & Hrun & Hr).
    destruct content as [[]|l]; try (by eexists _, _);
      rewrite Hrun; exists warnings, r; (split; [done|]);
      by destruct r as [[]| | |]. }
  destruct text as [text|e| |]; try done; [|by right; eexists].
  pose proof (search_all_ends RegExp_matcher text (default 1000%Z options)
                patterns ρ [] Hpatterns) as Hends.
  destruct (search_all _ _ _ _ _ _) as [ρ' [results|e| |]] eqn:Hsearch;
    cbn [snd] in Hends; try done; [|by right; eexists].
  apply search_all_entries in Hsearch; [|constructor].
  destruct (JSON_text_report _ results (endTime - startTime) (length patterns)
              Hsearch) as (members & Hreport & _).
  destruct callback as [f|]; cbn [invoke returned].
  - rewrite Hreport. destruct (f _) as [t|e]; simpl.
    + left. by eexists.
    + right. by eexists.
  - rewrite Hreport. left. by eexists.
Qed.

(** X7. What the loop collects for one pattern, on an object that stands at
    [lastIndex]: at most [maxMatches] matches, under the name of the
    pattern, in the order of the text and without overlap; each one is the
    first match from the end of the one before it (from [lastIndex] for the
    first one, so a match before it is not seen) and carries the text that
    stands at its index. *)
Theorem X7_matches_leftmost (text : prim) (s patternName : string)
    (maxMatches : Z) (r : RegExp) :
  global r = true →
  prim_ToString text = Return s →
  ∃ matches,
    (collect (S (Z.to_nat maxMatches)) text patternName maxMatches r [] 0).2
    = Ok matches ∧
    length matches ≤ Z.to_nat maxMatches ∧
    leftmost_from (regexp_matcher r) s patternName (lastIndex r) matches ∧
    Forall (λ f, String.substring (found_index f)
                   (String.length (found_value f)) s = found_value f) matches.
Proof.
  intros Hg Htext.
  destruct (collect _ _ _ _ _ _ _) as [r' out] eqn:Hloop.
  destruct (collect_spec text s patternName maxMatches Htext
              (S (Z.to_nat maxMatches)) r [] 0%Z r' out Hg ltac:(lia) Hloop)
    as (matches & n & -> & _ & Hlen & Hleft & _).
  exists matches. split; [done|]. split; [|split].
  - by replace (maxMatches - 0)%Z with maxMatches in Hlen by lia.
  - done.
  - by eapply leftmost_from_genuine.
Qed.

(** X8. A search that stops before the limit has seen the whole text: the
    object is left at index [0], as [exec] leaves it when it fails, and,
    unless the object is sticky, the pattern matches nowhere between the
    end of the last match and the end of the text. *)
Theorem X8_search_exhaustive (text : prim) (s patternName : string)
    (maxMatches : Z) (r r' : RegExp) (matches : list found) :
  global r = true →
  prim_ToString text = Return s →
  collect (S (Z.to_nat maxMatches)) text patternName maxMatches r [] 0
  = (r', Ok matches) →
  length matches < Z.to_nat maxMatches →
  r' = set_lastIndex r 0 ∧
  (sticky r = false →
   ∀ k, end_of (regexp_matcher r) s (lastIndex r) matches ≤ k ≤ String.length s →
        regexp_matcher r s k = None).
Proof.
  intros Hg Htext Hloop Hshort.
  destruct (collect_spec text s patternName maxMatches Htext
              (S (Z.to_nat maxMatches)) r [] 0%Z r' _ Hg ltac:(lia) Hloop)
    as (new & n & [= ->] & -> & _ & _ & Hend).
  destruct Hend as [-> Hnone]; [lia|]. done.
Qed.

(** X9. An empty match stops the progress of the search: when the first
    match the object finds is empty, [lastIndex] does not move, every
    further [exec] finds the same match, and the loop collects it
    [maxMatches] times (a thousand times by default) and nothing else. *)
Theorem X9_empty_match_repeats (text : prim) (s patternName : string)
    (maxMatches : Z) (r r1 : RegExp) (m : hit) :
  global r = true →
  prim_ToString text = Return s →
  RegExpBuiltinExec r s = (r1, Some m) →
  regexp_matcher r s (hit_index m) = Some 0 →
  collect (S (Z.to_nat maxMatches)) text patternName maxMatches r [] 0
  = (r1, Ok (replicate (Z.to_nat maxMatches)
               {| found_index := hit_index m; found_value := EmptyString;
                  found_pattern := patternName |})).
Proof.
  intros Hg Htext Hexec Hempty.
  destruct (RegExpBuiltinExec_Some r r1 s m Hg Hexec)
    as (len & Hidx & _ & Hlen & Hvalue & ->).
  rewrite Hempty in Hlen. injection Hlen as <-.
  rewrite substring_empty in Hvalue. rewrite Nat.add_0_r in *.
  cbn [collect]. rewrite (exec_text text s Htext), Hexec.
  destruct (Z.ltb_spec 0 maxMatches) as [Hpos|Hneg].
  - rewrite (collect_empty text s patternName maxMatches Htext);
      [|done|simpl; lia|done|lia].
    cbn [lastIndex set_lastIndex]. rewrite Hvalue.
    replace (Z.to_nat maxMatches) with (S (Z.to_nat (maxMatches - (0 + 1))))
      by lia.
    done.
  - by replace (Z.to_nat maxMatches) with 0 by lia.
Qed.

(** X10. What a call does to the [RegExp] objects of the caller: nothing
    but moving [lastIndex], and that only on an object that is passed as a
    pattern and has the [g] flag; an object without the flag is copied and
    the copy is searched. *)
Theorem X10_objects_frame (h : heap) (ρ : regexps) (startTime endTime : Z)
    (content : value) (patterns : list (string * pattern_value))
    (options : option Z) (callback : option callback_fn)
    (l : loc) (r : RegExp) :
  ρ !! l = Some r →
  let run := quickFind RegExp_matcher h ρ startTime endTime content patterns
               options callback in
  ∃ n, final_regexps run !! l = Some (set_lastIndex r n) ∧
       (global r = false ∨ PatRegExp l ∉ patterns.*2 → n = lastIndex r).
Proof.
  intros Hl run.
  assert (∃ n, ρ !! l = Some (set_lastIndex r n) ∧
               (global r = false ∨ PatRegExp l ∉ patterns.*2 → n = lastIndex r))
    as Hsame.
  { exists (lastIndex r). by rewrite set_lastIndex_same. }
  unfold run, quickFind. destruct (negb (value_truthy content)); [done|].
  destruct (stringContent h content) as [warnings [text|e| |]]; try done.
  destruct (search_all _ _ _ _ _ _) as [ρ' out] eqn:Hsearch.
  pose proof (search_all_frame RegExp_matcher _ _ _ _ _ _ _ Hsearch l r Hl)
    as Hframe.
  destruct out as [results|e| |]; try done.
  by destruct (invoke callback _).
Qed.

(** X11. The callback is called at most once, after the search and before
    the report is written, with [null] in its first slot and the results in
    its second: an error is never handed to it. What the call of
    [quickFind] then returns is the text of the report on these results,
    unless the callback throws. *)
Theorem X11_callback_protocol (h : heap) (ρ : regexps) (startTime endTime : Z)
    (content : value) (patterns : list (string * pattern_value))
    (options : option Z) (callback : option callback_fn) :
  let run := quickFind RegExp_matcher h ρ startTime endTime content patterns
               options callback in
  match callbacks (events run) with
  | [] => callback = None ∨ ∀ p, returned run ≠ Ok p
  | [args] =>
    ∃ f results,
      callback = Some f ∧
      args = [AValue (TPrim PNull); AValue (TObject results)] ∧
      returned run
      = lift (f args ≫= λ _,
              JSON_text (report_tree results
                           (stats_tree (endTime - startTime) (length patterns))))
  | _ => False
  end.
Proof.
  assert (∀ warnings : list string, callbacks (Warn <$> warnings) = [])
    as Hwarn.
  { intros warnings. unfold callbacks.
    induction warnings as [|line warnings IH]; simpl; done. }
  intros run. unfold run, quickFind.
  destruct (negb (value_truthy content)); [by right|].
  destruct (stringContent h content) as [warnings [text|e| |]];
    cbn [events returned]; rewrite ?Hwarn; try by right.
  destruct (search_all _ _ _ _ _ _) as [ρ' [results|e| |]];
    cbn [events returned]; rewrite ?Hwarn; try by right.
  destruct callback as [f|]; cbn [invoke events returned].
  - unfold callbacks. rewrite omap_app. fold (callbacks (Warn <$> warnings)).
    rewrite Hwarn. simpl. exists f, results. split; [done|]. split; [done|].
    by destruct (f _).
  - rewrite app_nil_r, Hwarn. by left.
Qed.

(** X12. A symbol passed as content is searched as the text [undefined]:
    [safeStringify] returns [undefined] for it, and [exec] converts that to
    a string. The call is the one on the string ['undefined']. *)
Theorem X12_symbol_content (h : heap) (ρ : regexps) (startTime endTime : Z)
    (description : string) (patterns : list (string * pattern_value))
    (options : option Z) (callback : option callback_fn) :
  quickFind RegExp_matcher h ρ startTime endTime (VPrim (PSymbol description))
    patterns options callback
  = quickFind RegExp_matcher h ρ startTime endTime (VPrim (PStr "undefined"))
      patterns options callback.
Proof.
  unfold quickFind. cbn [value_truthy truthy negb stringContent].
  change (safeStringify h (VPrim (PSymbol description)))
    with (@nil string, @Ok prim PUndefined).
  cbv beta iota.
  by rewrite (search_all_text RegExp_matcher PUndefined (PStr "undefined")).
Qed.


(** X14. With patterns given as texts or other primitives, a call neither
    reads nor writes the [RegExp] objects of the caller: the patterns are
    compiled anew, so the store comes back as it was, and the call logs and
    returns what it does on the empty store. Such a call can be repeated
    with the same result. *)
Theorem X14_texts_are_stateless (h : heap) (ρ : regexps) (startTime endTime : Z)
    (content : value) (patterns : list (string * pattern_value))
    (options : option Z) (callback : option callback_fn) :
  (∀ l, PatRegExp l ∉ patterns.*2) →
  let run := quickFind RegExp_matcher h ρ startTime endTime content patterns
               options callback in
  let run0 := quickFind RegExp_matcher h [] startTime endTime content patterns
                options callback in
  final_regexps run = ρ ∧ events run = events run0 ∧
  returned run = returned run0.
Proof.
  intros Hnone run run0. unfold run, run0, quickFind.
  destruct (negb (value_truthy content)); [done|].
  destruct (stringContent h content) as [warnings [text|e| |]]; try done.
  rewrite (search_all_prims RegExp_matcher text _ patterns ρ [] Hnone).
  destruct (search_all _ _ _ _ _ _) as [ρ0 [results|e| |]]; try done.
  cbn [snd]. by destruct (invoke callback _).
Qed.

(** X18. The shape of what [quickFind] returns: the JSON text of an object
    with two members, [results], with no more members than there are
    patterns, and [stats], which is always an object that holds the
    difference of the two clock readings and the number of patterns. *)
Theorem X18_report_format (h : heap) (ρ : regexps) (startTime endTime : Z)
    (content : value) (patterns : list (string * pattern_value))
    (options : option Z) (callback : option callback_fn) (p : prim) :
  returned (quickFind RegExp_matcher h ρ startTime endTime content patterns
              options callback) = Ok p →
  ∃ members,
    p = PStr (report_text members (endTime - startTime) (length patterns)) ∧
    length members ≤ length patterns.
Proof.
  unfold quickFind. destruct (negb (value_truthy content)); [done|].
  destruct (stringContent h content) as [warnings [text|e| |]]; try done.
  destruct (search_all _ _ _ _ _ _) as [ρ' [results|e| |]] eqn:Hsearch;
    try done.
  pose proof (search_all_length _ _ _ _ _ _ _ _ Hsearch) as Hlen.
  apply search_all_entries in Hsearch; [|constructor].
  destruct (JSON_text_report _ results (endTime - startTime) (length patterns)
              Hsearch) as (members & Hreport & Hmembers).
  assert (∀ done : completion unit,
            lift (done ≫= λ _,
                  JSON_text (report_tree results
                    (stats_tree (endTime - startTime) (length patterns))))
            = Ok p →
            p = PStr (report_text members (endTime - startTime)
                        (length patterns))) as Hdone.
  { intros [[]|e]; simpl; [|done]. rewrite Hreport. by intros [= <-]. }
  destruct (invoke callback _) as [log done]. cbn [returned].
  intros Hp%Hdone. exists members. split; [done|]. simpl in Hlen. lia.
Qed.

(** X19. The members of [results] come in the order of the patterns, when
    the names of the patterns are not array indices (those an object puts
    first, in ascending order): the names of the members are the names of
    the patterns without [__proto__]. *)
Theorem X19_results_order (text : prim) (maxMatches : Z)
    (patterns : list (string * pattern_value)) (ρ ρ' : regexps)
    (results : list (string * tree)) :
  NoDup patterns.*1 →
  Forall (λ name, JsonText.array_index name = None) patterns.*1 →
  search_all RegExp_matcher text maxMatches patterns ρ [] = (ρ', Ok results) →
  results.*1 = filter (λ name, name ≠ "__proto__") patterns.*1.
Proof.
  intros Hnd Hplain Hsearch.
  by rewrite (search_all_keys RegExp_matcher text maxMatches patterns ρ ρ'
                [] results Hnd Hplain Hsearch).
Qed.
End QuickFindProperties.

(** ** On examples *)

Lemma X4_content_required_witness :
  VPrim (PStr EmptyString) ∈ falsy_values ∧
  quickFind literal_engine [] [] 0 0 (VPrim (PStr EmptyString))
    banana_patterns None None
  = {| final_regexps := []; events := [];
       returned := Throw (JsError "Error" "Content is required") |}.
Proof.
  assert (VPrim (PStr EmptyString) ∈ falsy_values) as Hin.
  { unfold falsy_values. repeat constructor. }
  split; [exact Hin|].
  exact (X4_content_required literal_engine [] [] 0 0 _ banana_patterns
           None None Hin).
Defined.

Lemma X5_pattern_literal_witness :
  flags_only "img" = true ∧
  regex_of literal_engine [] (PatPrim (PStr ("/" +:+ "usr" +:+ "/" +:+ "img")))
  = (r ← lift (RegExp_new literal_engine "usr" "img"); Ok (None, r)) ∧
  regex_of literal_engine [] (PatPrim (PStr ("/" +:+ "img")))
  = (r ← lift (RegExp_new literal_engine EmptyString "img"); Ok (None, r)) ∧
  ∀ s, String.prefix "/" s && literal_tail s = true →
       ∃ body' flags', flags_only flags' = true ∧
         (s = "/" +:+ flags' ∨ s = "/" +:+ body' +:+ "/" +:+ flags').
Proof.
  split; [reflexivity|].
  exact (X5_pattern_literal literal_engine [] "usr" "img" eq_refl).
Defined.

Lemma X6_quickFind_total_witness :
  heap_closed [] ∧ value_closed [] (VPrim (PStr "banana")) ∧
  patterns_closed [] banana_patterns ∧
  let run := quickFind literal_engine [] [] 0 0 (VPrim (PStr "banana"))
               banana_patterns None None in
  (∃ text, returned run = Ok (PStr text)) ∨ (∃ e, returned run = Throw e).
Proof.
  assert (heap_closed []) as Hh by constructor.
  assert (patterns_closed [] banana_patterns) as Hp by (repeat constructor).
  split; [exact Hh|]. split; [exact I|]. split; [exact Hp|].
  exact (X6_quickFind_total literal_engine [] [] 0 0 (VPrim (PStr "banana"))
           banana_patterns None None Hh I Hp).
Defined.

Lemma X7_matches_leftmost_witness :
  global an_regexp = true ∧
  prim_ToString (PStr "banana") = Return "banana" ∧
  ∃ matches,
    (collect (S (Z.to_nat 5)) (PStr "banana") "p" 5 an_regexp [] 0).2
    = Ok matches ∧
    length matches ≤ Z.to_nat 5 ∧
    leftmost_from (regexp_matcher an_regexp) "banana" "p"
      (lastIndex an_regexp) matches ∧
    Forall (λ f, String.substring (found_index f)
                   (String.length (found_value f)) "banana" = found_value f)
           matches.
Proof.
  split; [reflexivity|]. split; [reflexivity|].
  exact (X7_matches_leftmost (PStr "banana") "banana" "p" 5 an_regexp
           eq_refl eq_refl).
Defined.

Lemma X8_search_exhaustive_witness :
  global an_regexp = true ∧
  prim_ToString (PStr "banana") = Return "banana" ∧
  collect (S (Z.to_nat 5)) (PStr "banana") "p" 5 an_regexp [] 0
  = (set_lastIndex an_regexp 0, Ok banana_matches) ∧
  length banana_matches < Z.to_nat 5 ∧
  set_lastIndex an_regexp 0 = set_lastIndex an_regexp 0 ∧
  (sticky an_regexp = false →
   ∀ k, end_of (regexp_matcher an_regexp) "banana" (lastIndex an_regexp)
          banana_matches ≤ k ≤ String.length "banana" →
        regexp_matcher an_regexp "banana" k = None).
Proof.
  assert (length banana_matches < Z.to_nat 5) as Hshort by (simpl; lia).
  split; [reflexivity|]. split; [reflexivity|]. split; [reflexivity|].
  split; [exact Hshort|].
  exact (X8_search_exhaustive (PStr "banana") "banana" "p" 5 an_regexp _
           banana_matches eq_refl eq_refl eq_refl Hshort).
Defined.

Lemma X9_empty_match_repeats_witness :
  global empty_regexp = true ∧
  prim_ToString (PStr "abc") = Return "abc" ∧
  RegExpBuiltinExec empty_regexp "abc"
  = (empty_regexp, Some {| hit_index := 0; hit_text := EmptyString |}) ∧
  regexp_matcher empty_regexp "abc" 0 = Some 0 ∧
  collect (S (Z.to_nat 1000)) (PStr "abc") "e" 1000 empty_regexp [] 0
  = (empty_regexp,
     Ok (replicate (Z.to_nat 1000)
           {| found_index := 0; found_value := EmptyString;
              found_pattern := "e" |})).
Proof.
  split; [reflexivity|]. split; [reflexivity|]. split; [reflexivity|].
  split; [reflexivity|].
  exact (X9_empty_match_repeats (PStr "abc") "abc" "e" 1000 empty_regexp
           empty_regexp {| hit_index := 0; hit_text := EmptyString |}
           eq_refl eq_refl eq_refl eq_refl).
Defined.

Lemma X10_objects_frame_witness :
  [an_regexp] !! 0 = Some an_regexp ∧
  let run := quickFind literal_engine [] [an_regexp] 0 0
               (VPrim (PStr "banana")) [("p", PatRegExp 0)] (Some 1%Z) None in
  ∃ n, final_regexps run !! 0 = Some (set_lastIndex an_regexp n) ∧
       (global an_regexp = false ∨
        PatRegExp 0 ∉ [("p", PatRegExp 0)].*2 → n = lastIndex an_regexp).
Proof.
  split; [reflexivity|].
  exact (X10_objects_frame literal_engine [] [an_regexp] 0 0
           (VPrim (PStr "banana")) [("p", PatRegExp 0)] (Some 1%Z) None
           0 an_regexp eq_refl).
Defined.


Lemma X14_texts_are_stateless_witness :
  (∀ l, PatRegExp l ∉ banana_patterns.*2) ∧
  let run := quickFind literal_engine [] [an_regexp] 0 0
               (VPrim (PStr "banana")) banana_patterns None None in
  let run0 := quickFind literal_engine [] [] 0 0
                (VPrim (PStr "banana")) banana_patterns None None in
  final_regexps run = [an_regexp] ∧ events run = events run0 ∧
  returned run = returned run0.
Proof.
  assert (∀ l, PatRegExp l ∉ banana_patterns.*2) as Hnone.
  { intros l Hl. simpl in Hl.
    apply elem_of_cons in Hl as [Hl|Hl]; [discriminate Hl|].
    apply elem_of_cons in Hl as [Hl|Hl]; [discriminate Hl|].
    by apply elem_of_nil in Hl. }
  split; [exact Hnone|].
  exact (X14_texts_are_stateless literal_engine [] [an_regexp] 0 0
           (VPrim (PStr "banana")) banana_patterns None None Hnone).
Defined.

Lemma X18_report_format_witness :
  returned (quickFind literal_engine [] [] 10 12 (VPrim (PStr "banana"))
              banana_patterns None None)
  = Ok (PStr (report_text
                [ member_text "p" (array_text (found_text <$> banana_matches));
                  member_text "q" "null" ] 2 2)) ∧
  ∃ members,
    PStr (report_text
            [ member_text "p" (array_text (found_text <$> banana_matches));
              member_text "q" "null" ] 2 2)
    = PStr (report_text members (12 - 10) (length banana_patterns)) ∧
    length members ≤ length banana_patterns.
Proof.
  split; [reflexivity|].
  exact (X18_report_format literal_engine [] [] 10 12 (VPrim (PStr "banana"))
           banana_patterns None None _ eq_refl).
Defined.

Lemma X19_results_order_witness :
  NoDup banana_patterns.*1 ∧
  Forall (λ name, JsonText.array_index name = None) banana_patterns.*1 ∧
  search_all literal_engine (PStr "banana") 5 banana_patterns [] []
  = ([], Ok banana_results) ∧
  banana_results.*1 = filter (λ name, name ≠ "__proto__") banana_patterns.*1.
Proof.
  assert (NoDup banana_patterns.*1) as Hnd
    by exact (bool_decide_unpack (NoDup banana_patterns.*1) I).
  assert (Forall (λ name, JsonText.array_index name = None)
            banana_patterns.*1) as Hplain by (repeat constructor).
  split; [exact Hnd|]. split; [exact Hplain|]. split; [reflexivity|].
  exact (X19_results_order literal_engine (PStr "banana") 5 banana_patterns
           [] [] banana_results Hnd Hplain eq_refl).
Defined.

(** * More properties of [parseContent] *)

Section ResolverProperties.
Variable JSON_parse_text : string → parse_result.

Lemma reduce_from (fs : list fn) (current : completion tree) :
  foldl (λ current f, current ≫= f) current fs
  = current ≫= reduce fs.
Proof.
  unfold reduce. revert current.
  induction fs as [|f fs IH]; intros current; simpl.
  - by destruct current.
  - rewrite IH. destruct current as [t|e]; simpl; [by rewrite IH|done].
Qed.

(** X15. A [parse] that is an array is a pipeline: its functions are
    applied from left to right, each to the result of the one before it,
    and the first one that throws ends it. The empty pipeline returns the
    content as it is, and a pipeline in two parts is the first part
    followed by the second. *)
Theorem X15_pipeline_composes (f : fn) (fs gs : list fn) (content : tree) :
  apply_parse (Pipeline []) content = Return content ∧
  apply_parse (Pipeline (f :: fs)) content
  = f content ≫= apply_parse (Pipeline fs) ∧
  apply_parse (Pipeline (fs ++ gs)) content
  = apply_parse (Pipeline fs) content ≫= apply_parse (Pipeline gs).
Proof.
  split; [done|]. split.
  - cbn [apply_parse]. unfold reduce at 1. simpl. by rewrite reduce_from.
  - cbn [apply_parse]. unfold reduce at 1.
    rewrite foldl_app. fold (reduce fs content). by rewrite reduce_from.
Qed.

Lemma steps_effective (parsers : list (string * entry)) (v : view) :
  steps (effective parsers) v = steps parsers v.
Proof.
  revert v. induction parsers as [|[key e] parsers IH]; intros v; [done|].
  unfold effective. rewrite filter_cons. cbn [snd steps].
  fold (effective parsers). unfold entry_step.
  destruct (items e) as [rules|] eqn:Hitems.
  - rewrite decide_True by done. cbn [steps]. unfold entry_step.
    rewrite Hitems. destruct (v key); simpl; [apply IH|done].
  - rewrite decide_False by (by intros []). simpl. apply IH.
Qed.

(** X16. An entry of the caller's table that is neither an array nor a
    function contributes nothing: a rule object given directly under a
    kind, without an array around it, is ignored without a word. The call
    logs and returns what it does without such entries. *)
Theorem X16_other_entries_ignored (σ : store) (response : option Response)
    (parsers : list (string * entry)) (callback : option callback_fn) :
  let run := parseContent JSON_parse_text σ response parsers callback in
  let run' :=
    parseContent JSON_parse_text σ response (effective parsers) callback in
  log run = log run' ∧ outcome run = outcome run'.
Proof.
  intros run run'.
  destruct (parseContent_view_eq JSON_parse_text σ response parsers callback)
    as [Hrun _].
  destruct (parseContent_view_eq JSON_parse_text σ response
              (effective parsers) callback) as [Hrun' _].
  fold run in Hrun. fold run' in Hrun'.
  assert (parseContent_view JSON_parse_text response (effective parsers) callback
          = parseContent_view JSON_parse_text response parsers callback) as Heq.
  { unfold parseContent_view. destruct response as [r|]; [|done].
    by rewrite steps_effective. }
  rewrite Heq, <- Hrun in Hrun'. by injection Hrun' as -> ->.
Qed.

End ResolverProperties.

(** ** On an example *)

